(** * signal_copier.py: the signal extractor and the dispatch handler

    A shallow embedding of [src/signal_copier.py].

    - [Unicode]: Python [str] values as lists of code points, with the
      character tables the four rules look at.
    - [Re]: the part of Python's [re] module the program uses: parsed
      patterns, the backtracking matcher, [re.search] and [Match.group].
    - [SignalCopier]: [patterns], [parse_trade_signal], [handler], [main]. *)

From Stdlib Require Import Ascii String NArith ZArith Lia.
From stdpp Require Import gmap strings list fin_maps.

Open Scope N_scope.
Open Scope nat_scope.

(** ** Python strings *)
Module Unicode.

(** A Python [str] is a sequence of Unicode code points. *)
Definition codepoint : Type := N.
Definition unicode : Type := list codepoint.

Definition ord (a : ascii) : codepoint := N_of_ascii a.

(** A literal of the source, written as a Rocq string (ASCII only). *)
Fixpoint lit (s : string) : unicode :=
  match s with
  | EmptyString => []
  | String a s' => ord a :: lit s'
  end.

Definition LF : codepoint := 10%N.

(** [Py_UNICODE_ISSPACE]: what [\s] matches in a [str] pattern, and what
    [str.strip()] removes. *)
Definition Py_UNICODE_ISSPACE (c : codepoint) : bool :=
  ((0x09 <=? c) && (c <=? 0x0D) || (0x1C <=? c) && (c <=? 0x20)
   || (c =? 0x85) || (c =? 0xA0) || (c =? 0x1680)
   || (0x2000 <=? c) && (c <=? 0x200A)
   || (c =? 0x2028) || (c =? 0x2029) || (c =? 0x202F) || (c =? 0x205F)
   || (c =? 0x3000))%N.

(** The zero digits of the decimal-digit blocks (category Nd) of Unicode
    14.0.0, the database of CPython 3.11; each block holds ten digits.
    The mathematical digits U+1D7CE..U+1D7FF are five blocks in a row. *)
Definition decimal_zeros : list codepoint :=
  [0x30; 0x660; 0x6F0; 0x7C0; 0x966; 0x9E6; 0xA66; 0xAE6; 0xB66; 0xBE6;
   0xC66; 0xCE6; 0xD66; 0xDE6; 0xE50; 0xED0; 0xF20; 0x1040; 0x1090; 0x17E0;
   0x1810; 0x1946; 0x19D0; 0x1A80; 0x1A90; 0x1B50; 0x1BB0; 0x1C40; 0x1C50;
   0xA620; 0xA8D0; 0xA900; 0xA9D0; 0xA9F0; 0xAA50; 0xABF0; 0xFF10; 0x104A0;
   0x10D30; 0x11066; 0x110F0; 0x11136; 0x111D0; 0x112F0; 0x11450; 0x114D0;
   0x11650; 0x116C0; 0x11730; 0x118E0; 0x11950; 0x11C50; 0x11D50; 0x11DA0;
   0x16A60; 0x16AC0; 0x16B50; 0x1D7CE; 0x1D7D8; 0x1D7E2; 0x1D7EC; 0x1D7F6;
   0x1E140; 0x1E2F0; 0x1E950; 0x1FBF0]%N.

(** [Py_UNICODE_ISDECIMAL]: what [\d] matches in a [str] pattern. *)
Definition Py_UNICODE_ISDECIMAL (c : codepoint) : bool :=
  existsb (fun z => (z <=? c) && (c <? z + 10))%N decimal_zeros.

Definition ascii_upper_letter (c : codepoint) : bool :=
  ((0x41 <=? c) && (c <=? 0x5A))%N.
Definition ascii_lower_letter (c : codepoint) : bool :=
  ((0x61 <=? c) && (c <=? 0x7A))%N.

(** [sre_lower_unicode], the simple lower-case mapping the matcher applies
    to a text character under [re.IGNORECASE].  It is given on the code
    points whose image is a code point the rules of this program compare
    with (a-z, U+0131, U+017F, U+212A): the ASCII capitals, U+0130 (capital
    I with dot above) and U+212A (Kelvin sign).  Every other code point is
    left in place; CPython maps some of them to other code points, none of
    which the rules compare with. *)
Definition sre_lower_unicode (c : codepoint) : codepoint :=
  if ascii_upper_letter c then (c + 32)%N
  else if (c =? 0x130)%N then 0x69%N
  else if (c =? 0x212A)%N then 0x6B%N
  else c.

(** The rows of [sre_compile._equivalences] that hold an ASCII letter:
    i and dotless i, s and long s, k and the Kelvin sign. *)
Definition fixes (lo : codepoint) : list codepoint :=
  if (lo =? 0x69)%N then [0x131%N]
  else if (lo =? 0x131)%N then [0x69%N]
  else if (lo =? 0x73)%N then [0x17F%N]
  else if (lo =? 0x17F)%N then [0x73%N]
  else if (lo =? 0x6B)%N then [0x212A%N]
  else if (lo =? 0x212A)%N then [0x6B%N]
  else [].

(** The 56 code points [[A-Z]] matches under [re.IGNORECASE]. *)
Definition cased_letter (c : codepoint) : bool :=
  (ascii_upper_letter c || ascii_lower_letter c
   || (c =? 0x130) || (c =? 0x131) || (c =? 0x17F) || (c =? 0x212A))%N.

(** The small ASCII letter a code point stands for when case is ignored:
    its lower case, with i for dotless i, s for long s and k for the
    Kelvin sign.  Other code points stand for themselves. *)
Definition fold_equivalent (x : codepoint) : codepoint :=
  if (x =? 0x131)%N then 0x69%N
  else if (x =? 0x17F)%N then 0x73%N
  else if (x =? 0x212A)%N then 0x6B%N
  else x.
Definition casefold (c : codepoint) : codepoint :=
  fold_equivalent (sre_lower_unicode c).

(** [str.upper()] on one code point.  It is CPython's mapping on the code
    points the action rule can capture ([cased_letter] and [/]): the ASCII
    small letters, dotless i (to I) and long s (to S) change, the others
    are their own upper case.  Outside that set the code point is left in
    place, which is not CPython's mapping for every code point; the
    program never calls [upper] there (see [captured_by_action]). *)
Definition upper_codepoint (c : codepoint) : codepoint :=
  if ascii_lower_letter c then (c - 32)%N
  else if (c =? 0x131)%N then 0x49%N
  else if (c =? 0x17F)%N then 0x53%N
  else c.

Definition upper (s : unicode) : unicode := upper_codepoint <$> s.

(** [s.replace(old, new)] for a one-character [old]. *)
Definition replace (old : codepoint) (new : unicode) (s : unicode) : unicode :=
  s ≫= (fun c => if (c =? old)%N then new else [c]).

(** [s.strip()]: leading and trailing whitespace removed. *)
Fixpoint lstrip (s : unicode) : unicode :=
  match s with
  | c :: s' => if Py_UNICODE_ISSPACE c then lstrip s' else s
  | [] => []
  end.
Definition strip (s : unicode) : unicode :=
  reverse (lstrip (reverse (lstrip s))).

(** [s.split(sep)] for a one-character [sep]: never empty. *)
Fixpoint split (sep : codepoint) (s : unicode) : list unicode :=
  match s with
  | [] => [[]]
  | c :: s' =>
      if (c =? sep)%N then [] :: split sep s'
      else match split sep s' with
           | [] => [[c]]
           | w :: ws => (c :: w) :: ws
           end
  end.

End Unicode.
Export Unicode.

(** ** The regular-expression engine *)
Module Re.

(** One item of a character set, as [sre_parse] names them. *)
Inductive set_item : Type :=
| LITERAL (c : codepoint)
| RANGE (lo hi : codepoint)
| CATEGORY_SPACE
| CATEGORY_DIGIT.

(** A parsed pattern.  A literal character is the set [IN [LITERAL c]];
    [MAX_REPEAT] is the greedy repetition of a one-character set, the only
    repetition the program's rules use ([\s*], [[:\s]*], [[\d.]+],
    [[A-Z]{3,6}]); [hi = None] is an unbounded repetition. *)
Inductive pattern : Type :=
| EMPTY
| IN (items : list set_item)
| SEQ (p q : pattern)
| BRANCH (p q : pattern)
| MAX_REPEAT (lo : nat) (hi : option nat) (items : list set_item)
| SUBPATTERN (g : nat) (p : pattern).

(** Flags of [re.search]. *)
Definition flags : Type := bool.
Definition IGNORECASE : flags := true.
Definition NOFLAG : flags := false.

(** A lower-cased text character [x] against a lower-cased pattern
    character [lo] and its equivalents. *)
Definition in_cases (lo x : codepoint) : bool :=
  (x =? lo)%N || existsb (N.eqb x) (fixes lo).

Definition codes (lo hi : codepoint) : list codepoint :=
  N.of_nat <$> seq (N.to_nat lo) (N.to_nat hi + 1 - N.to_nat lo).

Definition item_match (ic : flags) (it : set_item) (c : codepoint) : bool :=
  match it with
  | LITERAL p =>
      if ic then in_cases (sre_lower_unicode p) (sre_lower_unicode c)
      else (c =? p)%N
  | RANGE lo hi =>
      if ic then
        existsb (fun p => in_cases (sre_lower_unicode p) (sre_lower_unicode c))
                (codes lo hi)
      else ((lo <=? c) && (c <=? hi))%N
  | CATEGORY_SPACE => Py_UNICODE_ISSPACE c
  | CATEGORY_DIGIT => Py_UNICODE_ISDECIMAL c
  end.

Definition set_match (ic : flags) (items : list set_item) (c : codepoint) : bool :=
  existsb (fun it => item_match ic it c) items.

(** The spans of the groups that took part, relative to where the match
    starts: group number, start offset, end offset (latest first). *)
Definition marks : Type := list (nat * (nat * nat)).

Definition shift (n : nat) (m : marks) : marks :=
  (fun '(g, (b, e)) => (g, (n + b, n + e))) <$> m.

(** How many leading characters of [s], at most [cap], are in the set. *)
Fixpoint count_run (test : codepoint -> bool) (cap : nat) (s : unicode) : nat :=
  match cap, s with
  | S cap', c :: s' => if test c then S (count_run test cap' s') else 0
  | _, _ => 0
  end.

(** The lengths [k, k-1, ..., lo] a greedy repetition tries, longest first. *)
Definition backoff (lo k : nat) : list nat := reverse (seq lo (S k - lo)).

(** The matcher: every way [p] matches a prefix of [s], in the order the
    backtracking engine tries them (the first alternative of a branch
    first, the longest repetition first).  A result is the number of
    characters consumed and the groups set on the way. *)
Fixpoint exec (ic : flags) (p : pattern) (s : unicode) : list (nat * marks) :=
  match p with
  | EMPTY => [(0, [])]
  | IN items =>
      match s with
      | c :: _ => if set_match ic items c then [(1, [])] else []
      | [] => []
      end
  | SEQ p q =>
      '(n1, m1) ← exec ic p s;
      '(n2, m2) ← exec ic q (drop n1 s);
      [(n1 + n2, shift n1 m2 ++ m1)]
  | BRANCH p q => exec ic p s ++ exec ic q s
  | MAX_REPEAT lo hi items =>
      let cap := default (length s) hi in
      (fun n => (n, [])) <$> backoff lo (count_run (set_match ic items) cap s)
  | SUBPATTERN g p =>
      (fun '(n, m) => (n, (g, (0, n)) :: m)) <$> exec ic p s
  end.

(** A match object: the searched string, where the match starts, its
    length and the group spans. *)
Record Match : Type := mkMatch {
  m_string : unicode;
  m_start : nat;
  m_len : nat;
  m_marks : marks
}.

(** The scan of [re.search]: the first position, from [i] on, at which
    the pattern matches; [s] is the text from position [i]. *)
Fixpoint search_from (ic : flags) (p : pattern) (s : unicode) (i : nat)
  : option (nat * nat * marks) :=
  match exec ic p s with
  | (n, m) :: _ => Some (i, n, m)
  | [] =>
      match s with
      | [] => None
      | _ :: s' => search_from ic p s' (S i)
      end
  end.

(** [re.search(pattern, string, flags)]. *)
Definition search (p : pattern) (string : unicode) (ic : flags) : option Match :=
  (fun '(i, n, m) => mkMatch string i n m) <$> search_from ic p string 0.

Fixpoint span_of (g : nat) (m : marks) : option (nat * nat) :=
  match m with
  | [] => None
  | (g', sp) :: m' => if Nat.eqb g' g then Some sp else span_of g m'
  end.

(** [match.group(g)] for [g >= 1]: [None] when the group took no part. *)
Definition group_opt (mo : Match) (g : nat) : option unicode :=
  '(b, e) ← span_of g (m_marks mo);
  Some (take (e - b) (drop (m_start mo + b) (m_string mo))).

(** [match.group(g)] where the group is known to take part (in each of
    the program's rules both groups lie on every path through the
    pattern, see [search_groups]). *)
Definition group (mo : Match) (g : nat) : unicode :=
  default [] (group_opt mo g).

(** The pattern of a literal word. *)
Fixpoint word_of (w : unicode) : pattern :=
  match w with
  | [] => EMPTY
  | [c] => IN [LITERAL c]
  | c :: w' => SEQ (IN [LITERAL c]) (word_of w')
  end.
Definition word (w : string) : pattern := word_of (lit w).

End Re.
Export Re.

(** ** The program *)
Module SignalCopier.

Declare Scope re_scope.
Delimit Scope re_scope with re.
Notation "p ⨾ q" := (SEQ p q) (at level 41, right associativity) : re_scope.
Notation "p ∣ q" := (BRANCH p q) (at level 42, right associativity) : re_scope.

(** The keys of the dictionary [patterns]. *)
Inductive rule : Type := action | entry | tp | sl.

Definition SPACES : pattern := MAX_REPEAT 0 None [CATEGORY_SPACE].
(** [[:\s]*] *)
Definition SEPARATORS : pattern :=
  MAX_REPEAT 0 None [LITERAL (ord ":"); CATEGORY_SPACE].
(** [([\d.]+)] *)
Definition NUMBER : pattern :=
  SUBPATTERN 2 (MAX_REPEAT 1 None [CATEGORY_DIGIT; LITERAL (ord ".")]).
(** [[A-Z]{3,6}] *)
Definition LETTERS_3_6 : pattern :=
  MAX_REPEAT 3 (Some 6) [RANGE (ord "A") (ord "Z")].

(** The four rules, as [sre_parse] reads the source's pattern strings:
<<
  'action': r'(BUY|SELL)\s*([A-Z]{3,6}\/[A-Z]{3,6}|XAUUSD|XAU\/USD|GBPUSD|EURUSD)'
  'entry':  r'(Entry|Enter|En)\s*[:\s]*([\d.]+)'
  'tp':     r'(TP|Take\s*Profit)\s*[:\s]*([\d.]+)'
  'sl':     r'(SL|Stop\s*Loss)\s*[:\s]*([\d.]+)'
>> *)
Definition patterns (k : rule) : pattern :=
  match k with
  | action =>
      SUBPATTERN 1 (word "BUY" ∣ word "SELL") ⨾ SPACES ⨾
      SUBPATTERN 2 (LETTERS_3_6 ⨾ word "/" ⨾ LETTERS_3_6
                    ∣ word "XAUUSD" ∣ word "XAU/USD" ∣ word "GBPUSD"
                    ∣ word "EURUSD")
  | entry =>
      SUBPATTERN 1 (word "Entry" ∣ word "Enter" ∣ word "En") ⨾
      SPACES ⨾ SEPARATORS ⨾ NUMBER
  | tp =>
      SUBPATTERN 1 (word "TP" ∣ word "Take" ⨾ SPACES ⨾ word "Profit") ⨾
      SPACES ⨾ SEPARATORS ⨾ NUMBER
  | sl =>
      SUBPATTERN 1 (word "SL" ∣ word "Stop" ⨾ SPACES ⨾ word "Loss") ⨾
      SPACES ⨾ SEPARATORS ⨾ NUMBER
  end%re.

(** [if m: trade[key] = m.group(2)] *)
Definition set_if_match (key : string) (m : option Match)
    (trade : gmap string unicode) : gmap string unicode :=
  match m with
  | Some m => <[key := group m 2]> trade
  | None => trade
  end.

(** [parse_trade_signal(message_text)]: the dictionary [trade], or [None]. *)
Definition parse_trade_signal (message_text : unicode)
  : option (gmap string unicode) :=
  let trade : gmap string unicode := ∅ in
  match search (patterns action) message_text IGNORECASE with
  | Some action_match =>
      let trade := <["action" := upper (group action_match 1)]> trade in
      let trade :=
        <["symbol" := replace (ord "/") [] (upper (group action_match 2))]> trade in
      let entry_match := search (patterns entry) message_text IGNORECASE in
      let trade := set_if_match "entry" entry_match trade in
      let tp_match := search (patterns tp) message_text IGNORECASE in
      let trade := set_if_match "tp" tp_match trade in
      let sl_match := search (patterns sl) message_text IGNORECASE in
      let trade := set_if_match "sl" sl_match trade in
      if bool_decide (is_Some (trade !! "action") ∧ is_Some (trade !! "symbol"))
      then Some trade
      else None
  | None => None
  end.

(** *** Exceptions, effects and the world outside *)

(** What can be raised: [KeyError] and [ValueError] while the secrets are
    read; [Exception] stands for any other error deriving from Python's
    [Exception] (what the transport raises when a send fails);
    [BaseException] for one that does not ([KeyboardInterrupt],
    [SystemExit], [asyncio.CancelledError]). *)
Inductive exception : Type :=
| KeyError (key : string)
| ValueError (arg : unicode)
| Exception (what : unicode)
| BaseException (what : unicode).

(** [isinstance(e, Exception)] *)
Definition is_Exception (e : exception) : bool :=
  match e with
  | BaseException _ => false
  | _ => true
  end.

(** The lines the program prints. *)
Inductive line : Type :=
| Starting
| ErrorReadingSecrets (e : exception)
| ClientStarted (source_channel_ids : list Z)
| NewMessageReceived (chat_id : Z)
| NoTextSkipping
| TradeSignalDetected (trade_signal : gmap string unicode)
| SuccessfullyForwarded
| ErrorSending (e : exception)
| NoValidTradeSignal.

(** What the program does to the world, in the order it does it. *)
Inductive effect : Type :=
| print (l : line)
| TelegramClient (session : string) (api_id : Z) (api_hash : unicode)
| on_NewMessage (chats : list Z)
| start
| send_message (entity : Z) (message : unicode) (parse_mode : string)
| run_until_disconnected.

(** An inbound event: [event.chat_id] and [event.message.message], which
    is a [str] or [None]. *)
Record event : Type := mkEvent {
  chat_id : Z;
  message : option unicode
}.

(** A small error monad for the code that may raise. *)
Inductive result (A : Type) : Type :=
| Ok (a : A)
| Raise (e : exception).
Arguments Ok {A} a.
Arguments Raise {A} e.

Definition bind {A B : Type} (r : result A) (k : A -> result B) : result B :=
  match r with
  | Ok a => k a
  | Raise e => Raise e
  end.
Notation "'try!' x <- r ; k" := (bind r (fun x => k))
  (at level 10, x pattern, r at level 100, k at level 200).

Fixpoint for_each {A B : Type} (f : A -> result B) (l : list A) : result (list B) :=
  match l with
  | [] => Ok []
  | a :: l' => try! b <- f a; try! bs <- for_each f l'; Ok (b :: bs)
  end.

(** [os.environ[key]] *)
Definition getitem (environ : gmap string unicode) (key : string) : result unicode :=
  match environ !! key with
  | Some v => Ok v
  | None => Raise (KeyError key)
  end.

(** Truth values: [None] and the empty string are false, and so are
    [None] and the empty dictionary. *)
Definition truthy_str (s : option unicode) : bool :=
  match s with
  | Some (_ :: _) => true
  | _ => false
  end.
Definition truthy_dict (d : option (gmap string unicode)) : bool :=
  match d with
  | Some d => negb (bool_decide (d = ∅))
  | None => false
  end.

(** [d.get(key)] inside an f-string: the value, or the text [None]. *)
Definition get_str (d : gmap string unicode) (key : string) : unicode :=
  default (lit "None") (d !! key).
(** [d.get(key, 'Not Specified')] *)
Definition get_or (d : gmap string unicode) (key : string) (dflt : string) : unicode :=
  default (lit dflt) (d !! key).

Definition FIRE : codepoint := 0x1F525%N.

(** The f-string [formatted_message] of [handler]. *)
Definition formatted_message (trade_signal : gmap string unicode) : unicode :=
  ([FIRE] ++ lit " **Forwarded Signal: " ++ get_str trade_signal "symbol"
          ++ lit "** " ++ [FIRE] ++ [LF; LF])
  ++ (lit "```" ++ [LF])
  ++ (lit "Action:      " ++ get_str trade_signal "action" ++ [LF])
  ++ (lit "Entry:       " ++ get_or trade_signal "entry" "Not Specified" ++ [LF])
  ++ (lit "Stop Loss:   " ++ get_or trade_signal "sl" "Not Specified" ++ [LF])
  ++ (lit "Take Profit: " ++ get_or trade_signal "tp" "Not Specified" ++ [LF])
  ++ lit "```".

Section Pipeline.

(** The transport collaborator (Telethon's client): its state, and what
    [client.send_message] does with it, returning the error it raises if
    the send fails. *)
Context {sink : Type}.
Variable client_send_message :
  sink -> Z -> unicode -> string -> sink * option exception.

(** The builtin [int] on a string; [None] stands for [ValueError]. *)
Variable int : unicode -> option Z.

(** The world: the transport's state and what the program did so far. *)
Record world : Type := mkWorld {
  client : sink;
  trace : list effect
}.

Definition do (e : effect) (w : world) : world :=
  mkWorld (client w) (trace w ++ [e]).

(** [await client.send_message(...)]: the request is made, and the
    transport answers. *)
Definition await_send (w : world) (entity : Z) (message : unicode)
    (parse_mode : string) : world * option exception :=
  let w := do (send_message entity message parse_mode) w in
  let '(c, r) := client_send_message (client w) entity message parse_mode in
  (mkWorld c (trace w), r).

(** [handler(event)], with the extractor it calls as a parameter.  The
    result is the world afterwards and the exception that escapes, if
    any. *)
Definition handler_with (extract : unicode -> option (gmap string unicode))
    (destination_channel_id : Z) (ev : event) (w : world)
  : world * option exception :=
  let w := do (print (NewMessageReceived (chat_id ev))) w in
  let message_text := message ev in
  if negb (truthy_str message_text) then
    (do (print NoTextSkipping) w, None)
  else
    let trade_signal := extract (default [] message_text) in
    if truthy_dict trade_signal then
      let d := default ∅ trade_signal in
      let w := do (print (TradeSignalDetected d)) w in
      match await_send w destination_channel_id (formatted_message d) "Markdown" with
      | (w, None) => (do (print SuccessfullyForwarded) w, None)
      | (w, Some e) =>
          (* except Exception as e *)
          if is_Exception e then (do (print (ErrorSending e)) w, None)
          else (w, Some e)
      end
    else
      (do (print NoValidTradeSignal) w, None).

Definition handler : Z -> event -> world -> world * option exception :=
  handler_with parse_trade_signal.

(** [int(s)] *)
Definition to_int (s : unicode) : result Z :=
  match int s with
  | Some z => Ok z
  | None => Raise (ValueError s)
  end.

(** The body of the [try] block of [main]. *)
Definition read_secrets (environ : gmap string unicode)
  : result (Z * unicode * list Z * Z) :=
  try! api_id <- (try! v <- getitem environ "API_ID"; to_int v);
  try! api_hash <- getitem environ "API_HASH";
  try! source_channel_ids <-
    (try! v <- getitem environ "SOURCE_CHANNEL_IDS";
     for_each (fun x => to_int (strip x)) (split (ord ",") v));
  try! destination_channel_id <-
    (try! v <- getitem environ "DESTINATION_CHANNEL_ID"; to_int v);
  Ok (api_id, api_hash, source_channel_ids, destination_channel_id).

(** Modelled from the spec: the delivery of events by the transport
    collaborator between [client.start()] and disconnection (Telethon's
    dispatcher, which is not under [src/]).  The spec has the
    collaborator deliver "a sequence of inbound messages" through "a
    subscription scoped to a configured set of source identifiers"
    (sections 1 and 6); "each inbound event triggers one independent unit
    of work" (section 5), and what happens to one event does "never
    propagate to other events or terminate the pipeline" (section 7).
    So [inbound] lists the events the subscription yields (the filter
    [chats=source_channel_ids] of the decorator is the collaborator's),
    the handler is called once on each of them, and an error that
    escapes one call does not keep it from being called on the others.
    The calls are made one after the other in the order of the list,
    none of them interleaved at its send: one of the schedules the spec
    allows (section 4.2 requires no order).  The second component of the
    result is the first error that escaped a call, if any; what the
    collaborator does with it is not modelled. *)
Fixpoint deliver (destination_channel_id : Z) (inbound : list event) (w : world)
  : world * option exception :=
  match inbound with
  | [] => (w, None)
  | ev :: rest =>
      let '(w, r) := handler destination_channel_id ev w in
      let '(w, r') := deliver destination_channel_id rest w in
      (w, match r with Some e => Some e | None => r' end)
  end.

(** [main()], run against the environment variables [environ] and the
    events [inbound] the transport delivers while the client listens. *)
Definition main (environ : gmap string unicode) (inbound : list event) (w : world)
  : world * option exception :=
  let w := do (print Starting) w in
  match read_secrets environ with
  | Raise e =>
      (* except (KeyError, ValueError) as e *)
      match e with
      | KeyError _ | ValueError _ => (do (print (ErrorReadingSecrets e)) w, None)
      | _ => (w, Some e)
      end
  | Ok (api_id, api_hash, source_channel_ids, destination_channel_id) =>
      let w := do (TelegramClient "signal_copier.session" api_id api_hash) w in
      let w := do (on_NewMessage source_channel_ids) w in
      let w := do start w in
      let w := do (print (ClientStarted source_channel_ids)) w in
      let w := do run_until_disconnected w in
      deliver destination_channel_id inbound w
  end.

End Pipeline.

End SignalCopier.
Export SignalCopier.

(** ** Vocabulary of the statements *)
Module Vocabulary.

(** The language of a pattern: [matches ic p w] when the whole of [w] is
    a string the pattern describes. *)
Fixpoint matches (ic : flags) (p : pattern) (w : unicode) : Prop :=
  match p with
  | EMPTY => w = []
  | IN items => ∃ c, w = [c] ∧ set_match ic items c = true
  | SEQ p q => ∃ w1 w2, w = w1 ++ w2 ∧ matches ic p w1 ∧ matches ic q w2
  | BRANCH p q => matches ic p w ∨ matches ic q w
  | MAX_REPEAT lo hi items =>
      lo ≤ length w ∧ (∀ h, hi = Some h → length w ≤ h)
      ∧ Forall (fun c => set_match ic items c = true) w
  | SUBPATTERN _ p => matches ic p w
  end.

(** The pattern describes some substring of the text. *)
Definition occurs (ic : flags) (p : pattern) (text : unicode) : Prop :=
  ∃ pre w suf, text = pre ++ w ++ suf ∧ matches ic p w.

(** The pattern matches at position [i] of the text. *)
Definition matches_at (ic : flags) (p : pattern) (text : unicode) (i : nat) : Prop :=
  exec ic p (drop i text) ≠ [].

(** The rule [k] matches at no position of the text before [n]: a match
    that starts at [n] is the leftmost one. *)
Definition unmatched_before (k : rule) (text : unicode) (n : nat) : Prop :=
  ∀ i, i < n → ¬ matches_at IGNORECASE (patterns k) text i.

(** [w] is the ASCII word [w0] up to letter case, as [re.IGNORECASE]
    compares (see [any_case_matches]). *)
Definition any_case (w0 : string) (w : unicode) : Prop :=
  casefold <$> w = casefold <$> lit w0.

(** The first character of [s] passes [test]. *)
Definition starts_with (test : codepoint → bool) (s : unicode) : bool :=
  match s with
  | c :: _ => test c
  | [] => false
  end.

(** How [SEQ p q] goes on after [p] consumed [n1] characters of [s]. *)
Definition seq_step (ic : flags) (q : pattern) (s : unicode)
    (x : nat * marks) : list (nat * marks) :=
  let '(n1, m1) := x in
  '(n2, m2) ← exec ic q (drop n1 s);
  [(n1 + n2, shift n1 m2 ++ m1)].

(** The parts of a rule: what group 1 holds (the action words, the label
    synonyms), what may stand between the groups, what group 2 holds
    (the instrument token, the digits and dots); see [patterns_parts]. *)
Definition labels (k : rule) : pattern :=
  match k with
  | action => word "BUY" ∣ word "SELL"
  | entry => word "Entry" ∣ word "Enter" ∣ word "En"
  | tp => word "TP" ∣ word "Take" ⨾ SPACES ⨾ word "Profit"
  | sl => word "SL" ∣ word "Stop" ⨾ SPACES ⨾ word "Loss"
  end%re.
Definition gap (k : rule) : pattern :=
  match k with
  | action => SPACES
  | _ => SPACES ⨾ SEPARATORS
  end%re.
Definition value (k : rule) : pattern :=
  match k with
  | action =>
      LETTERS_3_6 ⨾ word "/" ⨾ LETTERS_3_6
      ∣ word "XAUUSD" ∣ word "XAU/USD" ∣ word "GBPUSD" ∣ word "EURUSD"
  | _ => MAX_REPEAT 1 None [CATEGORY_DIGIT; LITERAL (ord ".")]
  end%re.

(** The key under which [parse_trade_signal] stores group 2 of a field
    rule. *)
Definition key_of (k : rule) : string :=
  match k with
  | action => "symbol"
  | entry => "entry"
  | tp => "tp"
  | sl => "sl"
  end.
Definition is_field (k : rule) : bool :=
  match k with
  | action => false
  | _ => true
  end.

(** What a field rule captures from a text: group 2 of the first match. *)
Definition captured (k : rule) (text : unicode) : option unicode :=
  (fun m => group m 2) <$> search (patterns k) text IGNORECASE.

(** The character sets [[\d.]], [[:\s]] and [\s] under [re.IGNORECASE]. *)
Definition digit_or_dot (c : codepoint) : bool :=
  set_match IGNORECASE [CATEGORY_DIGIT; LITERAL (ord ".")] c.
Definition separator (c : codepoint) : bool :=
  set_match IGNORECASE [LITERAL (ord ":"); CATEGORY_SPACE] c.
Definition whitespace (c : codepoint) : bool :=
  set_match IGNORECASE [CATEGORY_SPACE] c.

(** A decimal number, read generously: digits with at most one point
    among them, and at least one digit. *)
Definition decimal_number (v : unicode) : bool :=
  forallb digit_or_dot v
  && (1 <=? length (filter (fun c => Py_UNICODE_ISDECIMAL c = true) v))
  && (length (filter (fun c => c = ord ".") v) <=? 1).

(** [v] is a contiguous piece of [text]. *)
Definition substring (v text : unicode) : Prop :=
  ∃ pre suf, text = pre ++ v ++ suf.

(** Three to six letters, as [[A-Z]{3,6}] reads them when case is
    ignored. *)
Definition letters_3_6 (x : unicode) : Prop :=
  3 ≤ length x ≤ 6 ∧ Forall (fun c => cased_letter c = true) x.

(** An instrument token: a pair of three to six letters each with [/]
    between them, or one of the bare symbols. *)
Definition instrument (tok : unicode) : Prop :=
  (∃ x y, tok = x ++ ord "/" :: y ∧ letters_3_6 x ∧ letters_3_6 y)
  ∨ any_case "XAUUSD" tok ∨ any_case "XAU/USD" tok
  ∨ any_case "GBPUSD" tok ∨ any_case "EURUSD" tok.

(** An action token, optional whitespace, an instrument token. *)
Definition action_phrase (w : unicode) : Prop :=
  ∃ a ws tok, w = a ++ ws ++ tok
    ∧ (any_case "BUY" a ∨ any_case "SELL" a)
    ∧ Forall (fun c => Py_UNICODE_ISSPACE c = true) ws
    ∧ instrument tok.

(** No decimal block meets the range [lo..hi]. *)
Definition clear_of_decimals (lo hi : codepoint) : bool :=
  forallb (fun z => (z + 10 <=? lo) || (hi <? z))%N decimal_zeros.

(** A capital ASCII letter other than I and K, or a character without
    case: what [upper] gives back for every spelling of it. *)
Definition own_upper (p : codepoint) : bool :=
  (ascii_upper_letter p && negb (p =? 0x49)%N && negb (p =? 0x4B)%N)
  || negb (cased_letter p).

(** The text goes on with [/] and three letters: what makes the action
    rule read a longer instrument token after six letters. *)
Definition slash_letters (suf : unicode) : bool :=
  match suf with
  | c :: c1 :: c2 :: c3 :: _ =>
      (c =? ord "/")%N && cased_letter c1 && cased_letter c2 && cased_letter c3
  | _ => false
  end.

(** The label synonyms of a rule in any letter case (for the action rule,
    the action words); the two-word labels may have whitespace, or none,
    between the words. *)
Definition two_words (w1 w2 : string) (L : unicode) : Prop :=
  ∃ x ws y, L = x ++ ws ++ y ∧ any_case w1 x
            ∧ Forall (fun c => Py_UNICODE_ISSPACE c = true) ws ∧ any_case w2 y.
Definition label (k : rule) (L : unicode) : Prop :=
  match k with
  | action => any_case "BUY" L ∨ any_case "SELL" L
  | entry => any_case "Entry" L ∨ any_case "Enter" L ∨ any_case "En" L
  | tp => any_case "TP" L ∨ two_words "Take" "Profit" L
  | sl => any_case "SL" L ∨ two_words "Stop" "Loss" L
  end.

(** The text [s] begins with the word [w0], as the engine compares. *)
Fixpoint prefix_match (ic : flags) (w0 s : unicode) : bool :=
  match w0, s with
  | [], _ => true
  | p :: w0', c :: s' => set_match ic [LITERAL p] c && prefix_match ic w0' s'
  | _ :: _, [] => false
  end.

(** A pattern without groups. *)
Fixpoint plain (p : pattern) : bool :=
  match p with
  | SEQ p q | BRANCH p q => plain p && plain q
  | SUBPATTERN _ _ => false
  | _ => true
  end.


(** The send requests in a trace: destination, body, parse mode. *)
Fixpoint sends (tr : list effect) : list (Z * unicode * string) :=
  match tr with
  | [] => []
  | send_message entity body mode :: tr' => (entity, body, mode) :: sends tr'
  | _ :: tr' => sends tr'
  end.

(** The events a trace reports as received. *)
Fixpoint received (tr : list effect) : list Z :=
  match tr with
  | [] => []
  | print (NewMessageReceived id) :: tr' => id :: received tr'
  | _ :: tr' => received tr'
  end.

(** The send an event calls for, by its text alone. *)
Definition request_of (destination_channel_id : Z) (ev : event)
  : list (Z * unicode * string) :=
  match message ev with
  | Some (c :: t) =>
      match parse_trade_signal (c :: t) with
      | Some trade => [(destination_channel_id, formatted_message trade, "Markdown")]
      | None => []
      end
  | _ => []
  end.

(** The message format as the specification gives it: the lines of the
    template, with the fields in their places. *)
Definition join_lines (ls : list unicode) : unicode :=
  match ls with
  | [] => []
  | l :: ls => l ++ (ls ≫= fun l' => LF :: l')
  end.
Definition spec_template (SYMBOL ACTION ENTRY SL TP : unicode) : unicode :=
  join_lines
    [ [FIRE] ++ lit " **Forwarded Signal: " ++ SYMBOL ++ lit "** " ++ [FIRE];
      [];
      lit "```";
      lit "Action:      " ++ ACTION;
      lit "Entry:       " ++ ENTRY;
      lit "Stop Loss:   " ++ SL;
      lit "Take Profit: " ++ TP;
      lit "```" ].
Definition or_not_specified (field : option unicode) : unicode :=
  default (lit "Not Specified") field.

(** A complete configuration: the four settings are there, and those
    that name an identifier read as integers. *)
Definition well_configured (int : unicode → option Z)
    (environ : gmap string unicode) : Prop :=
  (∃ v, environ !! "API_ID" = Some v ∧ is_Some (int v))
  ∧ is_Some (environ !! "API_HASH")
  ∧ (∃ v, environ !! "SOURCE_CHANNEL_IDS" = Some v
          ∧ Forall (fun x => is_Some (int (strip x))) (split (ord ",") v))
  ∧ (∃ v, environ !! "DESTINATION_CHANNEL_ID" = Some v ∧ is_Some (int v)).

(** What the program does with the transport: everything but printing. *)
Definition touches_transport (e : effect) : bool :=
  match e with
  | print _ => false
  | _ => true
  end.

(** An instance of the builtin [int] for the examples: an optional sign
    and ASCII digits. *)
Fixpoint digits_value (acc : Z) (s : unicode) : option Z :=
  match s with
  | [] => Some acc
  | c :: s' =>
      if ((0x30 <=? c) && (c <=? 0x39))%N
      then digits_value (10 * acc + Z.of_N (c - 0x30)) s'
      else None
  end.
Definition int_ascii (s : unicode) : option Z :=
  match s with
  | [] => None
  | c :: s' =>
      if (c =? ord "-")%N then
        match s' with [] => None | _ => Z.opp <$> digits_value 0 s' end
      else if (c =? ord "+")%N then
        match s' with [] => None | _ => digits_value 0 s' end
      else digits_value 0 s
  end.

(** A transport for the examples: it counts the requests; the first one
    fails with an error, the later ones succeed. *)
Definition flaky (attempts : nat) (entity : Z) (body : unicode) (mode : string)
  : nat * option exception :=
  match attempts with
  | 0 => (1, Some (Exception (lit "FloodWaitError")))
  | S n => (S (S n), None)
  end.

(** An environment for the examples: one source identifier is not a
    number. *)
Definition bad_environ : gmap string unicode :=
  <["API_ID" := lit "12345"]>
    (<["API_HASH" := lit "0123456789abcdef"]>
       (<["SOURCE_CHANNEL_IDS" := lit "-1001, oops"]>
          (<["DESTINATION_CHANNEL_ID" := lit "-1002"]> ∅))).

(** The dictionary [parse_trade_signal] builds from the action match. *)
Definition trade_of (action_match : Match) (text : unicode) : gmap string unicode :=
  set_if_match "sl" (search (patterns sl) text IGNORECASE)
    (set_if_match "tp" (search (patterns tp) text IGNORECASE)
       (set_if_match "entry" (search (patterns entry) text IGNORECASE)
          (<["symbol" := replace (ord "/") [] (upper (group action_match 2))]>
             (<["action" := upper (group action_match 1)]> ∅)))).

(** What [upper] makes of a letter the action rule reads: a capital
    ASCII letter, capital I with dot above or the Kelvin sign (the last
    two are their own upper case). *)
Definition capital (c : codepoint) : bool :=
  (ascii_upper_letter c || (c =? 0x130) || (c =? 0x212A))%N.

(** A code point with its ASCII capital, if it is one, made small: two
    texts with the same image differ in the case of ASCII letters only. *)
Definition lower_ascii (c : codepoint) : codepoint :=
  if ascii_upper_letter c then (c + 32)%N else c.

(** Nothing but whitespace: what [strip] empties. *)
Definition blank (x : unicode) : Prop :=
  Forall (fun c => Py_UNICODE_ISSPACE c = true) x.

(** Environments for the examples: a complete one, and one whose list of
    source identifiers ends with a comma. *)
Definition good_environ : gmap string unicode :=
  <["API_ID" := lit "12345"]>
    (<["API_HASH" := lit "0123456789abcdef"]>
       (<["SOURCE_CHANNEL_IDS" := lit "-1001, -1003"]>
          (<["DESTINATION_CHANNEL_ID" := lit "-1002"]> ∅))).
Definition trailing_comma_environ : gmap string unicode :=
  <["SOURCE_CHANNEL_IDS" := lit "-1001,"]> good_environ.

(** A transport for the examples: every send is cancelled, with an error
    that does not derive from [Exception]. *)
Definition cancelled (attempts : nat) (entity : Z) (body : unicode) (mode : string)
  : nat * option exception :=
  (S attempts, Some (BaseException (lit "CancelledError"))).

(** What a call of the handler may add to the trace: a printed line or a
    send request. *)
Definition handler_effect (e : effect) : bool :=
  match e with
  | print _ | send_message _ _ _ => true
  | _ => false
  end.

End Vocabulary.
Export Vocabulary.

(** ** Facts about the engine *)
Module ReFacts.

Lemma count_run_le test cap s :
  count_run test cap s ≤ cap ∧ count_run test cap s ≤ length s.
Proof.
  revert s; induction cap as [|cap IH]; intros [|c s]; simpl; try lia.
  destruct (test c); simpl; [|lia]. specialize (IH s). lia.
Qed.

Lemma count_run_Forall test cap s :
  Forall (fun c => test c = true) (take (count_run test cap s) s).
Proof.
  revert s; induction cap as [|cap IH]; intros [|c s]; simpl; try constructor.
  destruct (test c) eqn:E; simpl; constructor; auto.
Qed.

(** The run is greedy: it covers every leading stretch of set members
    the bound allows. *)
Lemma count_run_ge test cap w rest :
  Forall (fun c => test c = true) w → length w ≤ cap →
  length w ≤ count_run test cap (w ++ rest).
Proof.
  revert cap; induction w as [|c w IH]; intros cap Hw Hc; simpl in *; [lia|].
  inversion Hw as [|? ? Hc' Hw']; subst.
  destruct cap as [|cap]; [lia|]. simpl. rewrite Hc'.
  specialize (IH cap Hw'). lia.
Qed.

(** The run stops at the first character outside the set. *)
Lemma count_run_stop test cap w c rest :
  Forall (fun c => test c = true) w → test c = false → length w ≤ cap →
  count_run test cap (w ++ c :: rest) = length w.
Proof.
  revert cap; induction w as [|x w IH]; intros cap Hw Hc Hcap; simpl in *.
  - destruct cap; simpl; [done|]. by rewrite Hc.
  - inversion Hw as [|? ? Hx Hw']; subst.
    destruct cap as [|cap]; [lia|]. simpl. rewrite Hx.
    f_equal. apply IH; auto. lia.
Qed.

Lemma count_run_all test cap w :
  Forall (fun c => test c = true) w → length w ≤ cap →
  count_run test cap w = length w.
Proof.
  revert cap; induction w as [|x w IH]; intros cap Hw Hcap; simpl in *.
  - by destruct cap.
  - inversion Hw as [|? ? Hx Hw']; subst.
    destruct cap as [|cap]; [lia|]. simpl. rewrite Hx.
    f_equal. apply IH; auto. lia.
Qed.

Lemma elem_of_backoff lo k n : n ∈ backoff lo k ↔ lo ≤ n ≤ k.
Proof.
  unfold backoff. rewrite elem_of_reverse, elem_of_seq. lia.
Qed.

Lemma backoff_head lo k : lo ≤ k → ∃ l, backoff lo k = k :: l.
Proof.
  intros H. unfold backoff.
  replace (S k - lo) with (S (k - lo)) by lia.
  rewrite seq_S, reverse_snoc. replace (lo + (k - lo)) with k by lia. eauto.
Qed.

Lemma backoff_nil lo k : k < lo → backoff lo k = [].
Proof.
  intros H. unfold backoff. by replace (S k - lo) with 0 by lia.
Qed.

Lemma elem_of_exec_IN ic items s n m :
  (n, m) ∈ exec ic (IN items) s ↔
  n = 1 ∧ m = [] ∧ ∃ c s', s = c :: s' ∧ set_match ic items c = true.
Proof.
  simpl. destruct s as [|c s].
  - split; [by intros ?%elem_of_nil | by intros (_ & _ & ? & ? & ? & _)].
  - destruct (set_match ic items c) eqn:E.
    + rewrite list_elem_of_singleton. split.
      * intros [= -> ->]. eauto 8.
      * by intros (-> & -> & _).
    + split; [by intros ?%elem_of_nil|].
      intros (_ & _ & c' & s' & [= <- <-] & H). congruence.
Qed.

Lemma elem_of_exec_SEQ ic p q s n m :
  (n, m) ∈ exec ic (SEQ p q) s ↔
  ∃ n1 m1 n2 m2, (n1, m1) ∈ exec ic p s ∧ (n2, m2) ∈ exec ic q (drop n1 s)
                 ∧ n = n1 + n2 ∧ m = shift n1 m2 ++ m1.
Proof.
  simpl. rewrite list_elem_of_bind. split.
  - intros ([n1 m1] & H & H1). apply list_elem_of_bind in H as ([n2 m2] & H & H2).
    apply list_elem_of_singleton in H as [= -> ->]. eauto 10.
  - intros (n1 & m1 & n2 & m2 & H1 & H2 & -> & ->).
    exists (n1, m1). split; [|done]. apply list_elem_of_bind.
    exists (n2, m2). split; [|done]. by apply list_elem_of_singleton.
Qed.

Lemma elem_of_exec_BRANCH ic p q s x :
  x ∈ exec ic (BRANCH p q) s ↔ x ∈ exec ic p s ∨ x ∈ exec ic q s.
Proof. simpl. apply elem_of_app. Qed.

Lemma elem_of_exec_MAX_REPEAT ic lo hi items s n m :
  (n, m) ∈ exec ic (MAX_REPEAT lo hi items) s ↔
  m = [] ∧ lo ≤ n ≤ count_run (set_match ic items) (default (length s) hi) s.
Proof.
  simpl. rewrite list_elem_of_fmap. split.
  - intros (k & [= -> ->] & H%elem_of_backoff). done.
  - intros (-> & H). exists n. split; [done|]. by apply elem_of_backoff.
Qed.

Lemma elem_of_exec_SUBPATTERN ic g p s n m :
  (n, m) ∈ exec ic (SUBPATTERN g p) s ↔
  ∃ m', (n, m') ∈ exec ic p s ∧ m = (g, (0, n)) :: m'.
Proof.
  simpl. rewrite list_elem_of_fmap. split.
  - intros ([n' m'] & [= -> ->] & H). eauto.
  - intros (m' & H & ->). by exists (n, m').
Qed.

(** Soundness: what the matcher returns is a prefix in the language. *)
Lemma exec_sound ic p s n m :
  (n, m) ∈ exec ic p s → n ≤ length s ∧ matches ic p (take n s).
Proof.
  revert s n m. induction p as [|items|p IHp q IHq|p IHp q IHq|lo hi items|g p IHp];
    intros s n m H.
  - apply list_elem_of_singleton in H as [= -> ->]. simpl. split; [lia|done].
  - apply elem_of_exec_IN in H as (-> & -> & c & s' & -> & Hc).
    simpl. split; [lia|]. exists c. by rewrite take_0.
  - apply elem_of_exec_SEQ in H as (n1 & m1 & n2 & m2 & H1 & H2 & -> & ->).
    apply IHp in H1 as [L1 M1]. apply IHq in H2 as [L2 M2].
    rewrite length_drop in L2. split; [lia|].
    exists (take n1 s), (take n2 (drop n1 s)). by rewrite take_take_drop.
  - apply elem_of_exec_BRANCH in H as [H|H]; [apply IHp in H|apply IHq in H];
      simpl; tauto.
  - apply elem_of_exec_MAX_REPEAT in H as (-> & Hlo & Hhi).
    pose proof (count_run_le (set_match ic items) (default (length s) hi) s) as [Hc Hl].
    pose proof (count_run_Forall (set_match ic items) (default (length s) hi) s) as HF.
    split; [lia|]. simpl. rewrite length_take_le by lia. split; [done|]. split.
    + intros h ->. simpl in *. lia.
    + apply (Forall_take _ n) in HF. by rewrite take_take, Nat.min_l in HF by lia.
  - apply elem_of_exec_SUBPATTERN in H as (m' & H & ->). by apply IHp in H.
Qed.

(** Completeness: every prefix in the language is found. *)
Lemma exec_complete ic p w rest :
  matches ic p w → ∃ m, (length w, m) ∈ exec ic p (w ++ rest).
Proof.
  revert w rest. induction p as [|items|p IHp q IHq|p IHp q IHq|lo hi items|g p IHp];
    intros w rest H; simpl in H.
  - subst. exists []. by apply list_elem_of_singleton.
  - destruct H as (c & -> & Hc). exists []. apply elem_of_exec_IN. eauto 8.
  - destruct H as (w1 & w2 & -> & H1 & H2).
    destruct (IHp w1 (w2 ++ rest) H1) as [m1 E1].
    destruct (IHq w2 rest H2) as [m2 E2].
    exists (shift (length w1) m2 ++ m1). apply elem_of_exec_SEQ.
    exists (length w1), m1, (length w2), m2.
    rewrite <- (assoc_L (++)). rewrite drop_app_length.
    by rewrite length_app.
  - destruct H as [H|H]; [destruct (IHp w rest H) as [m E]
                         |destruct (IHq w rest H) as [m E]];
      exists m; apply elem_of_exec_BRANCH; auto.
  - destruct H as (Hlo & Hhi & HF). exists []. apply elem_of_exec_MAX_REPEAT.
    split; [done|]. split; [done|]. apply count_run_ge; [done|].
    destruct hi as [h|]; simpl; [by apply Hhi|]. rewrite length_app. lia.
  - destruct (IHp w rest H) as [m E]. eexists. apply elem_of_exec_SUBPATTERN. eauto.
Qed.

(** *** Characters under [re.IGNORECASE] *)

(** Case analysis on the comparisons of a goal: a comparison the
    hypotheses settle is replaced by its value, any other is split in
    two. *)
Ltac cmp_settle :=
  match goal with
  | |- context [N.eqb ?a ?b] =>
      first [rewrite (proj2 (N.eqb_eq a b)) by lia
            |rewrite (proj2 (N.eqb_neq a b)) by lia]
  | |- context [N.leb ?a ?b] =>
      first [rewrite (proj2 (N.leb_le a b)) by lia
            |rewrite (proj2 (N.leb_gt a b)) by lia]
  | |- context [N.ltb ?a ?b] =>
      first [rewrite (proj2 (N.ltb_lt a b)) by lia
            |rewrite (proj2 (N.ltb_ge a b)) by lia]
  end.
Ltac is_atom t :=
  first [is_var t | lazymatch t with N0 => idtac | Npos _ => idtac end].
Ltac cmp_split :=
  match goal with
  | |- context [N.eqb ?a ?b] => is_atom a; is_atom b; destruct (N.eqb_spec a b)
  | |- context [N.leb ?a ?b] => is_atom a; is_atom b; destruct (N.leb_spec a b)
  | |- context [N.ltb ?a ?b] => is_atom a; is_atom b; destruct (N.ltb_spec a b)
  end.
Ltac case_cmp :=
  repeat (first [cmp_settle | cmp_split]; cbn [andb orb negb]).

Lemma in_cases_fold lo x :
  in_cases lo x = (fold_equivalent x =? fold_equivalent lo)%N.
Proof.
  unfold in_cases, fixes, fold_equivalent.
  destruct (N.eqb_spec lo 0x69), (N.eqb_spec lo 0x131), (N.eqb_spec lo 0x73),
    (N.eqb_spec lo 0x17F), (N.eqb_spec lo 0x6B), (N.eqb_spec lo 0x212A);
    try lia; subst; cbn [existsb];
    case_cmp; try reflexivity; try lia.
Qed.

(** A literal of a pattern is tested on the folded characters. *)
Lemma literal_test p c :
  set_match IGNORECASE [LITERAL p] c = (casefold c =? casefold p)%N.
Proof.
  unfold set_match; simpl. rewrite orb_false_r. apply in_cases_fold.
Qed.

Lemma casefold_cased c : cased_letter c = ascii_lower_letter (casefold c).
Proof.
  unfold cased_letter, casefold, sre_lower_unicode, fold_equivalent,
    ascii_lower_letter, ascii_upper_letter.
  case_cmp; try reflexivity; try lia.
Qed.

Lemma casefold_uncased c : cased_letter c = false → casefold c = c.
Proof.
  unfold cased_letter, casefold, sre_lower_unicode, fold_equivalent,
    ascii_lower_letter, ascii_upper_letter.
  case_cmp; try discriminate; try reflexivity.
Qed.

Lemma cased_not_space c : cased_letter c = true → Py_UNICODE_ISSPACE c = false.
Proof.
  unfold cased_letter, Py_UNICODE_ISSPACE, ascii_lower_letter, ascii_upper_letter.
  case_cmp; try discriminate; try reflexivity.
Qed.

Lemma clear_of_decimals_spec lo hi c :
  clear_of_decimals lo hi = true → (lo ≤ c)%N → (c ≤ hi)%N →
  Py_UNICODE_ISDECIMAL c = false.
Proof.
  unfold clear_of_decimals, Py_UNICODE_ISDECIMAL.
  induction decimal_zeros as [|z l IH]; simpl; [done|].
  intros [Hz Hl]%andb_true_iff Hlo Hhi. rewrite (IH Hl Hlo Hhi), orb_false_r.
  apply orb_true_iff in Hz as [Hz%N.leb_le|Hz%N.ltb_lt];
    apply andb_false_iff; [right; apply N.ltb_ge|left; apply N.leb_gt]; lia.
Qed.

Lemma cased_not_digit c : cased_letter c = true → Py_UNICODE_ISDECIMAL c = false.
Proof.
  unfold cased_letter, ascii_lower_letter, ascii_upper_letter.
  intros H.
  destruct (N.leb_spec 0x41 c), (N.leb_spec c 0x5A);
    [by apply (clear_of_decimals_spec 0x41%N 0x5A%N)|..];
    (destruct (N.leb_spec 0x61 c), (N.leb_spec c 0x7A);
     [by apply (clear_of_decimals_spec 0x61%N 0x7A%N)|..]);
    simpl in H;
    (destruct (N.eqb_spec c 0x130); [by subst|]);
    (destruct (N.eqb_spec c 0x131); [by subst|]);
    (destruct (N.eqb_spec c 0x17F); [by subst|]);
    (destruct (N.eqb_spec c 0x212A); [by subst|]); discriminate.
Qed.

(** Folding keeps the character classes. *)
Lemma casefold_space c : Py_UNICODE_ISSPACE (casefold c) = Py_UNICODE_ISSPACE c.
Proof.
  destruct (cased_letter c) eqn:E.
  - rewrite (cased_not_space c E). apply cased_not_space.
    rewrite casefold_cased in E. unfold cased_letter. by rewrite E, orb_true_r.
  - by rewrite casefold_uncased.
Qed.

Lemma casefold_digit c : Py_UNICODE_ISDECIMAL (casefold c) = Py_UNICODE_ISDECIMAL c.
Proof.
  destruct (cased_letter c) eqn:E.
  - rewrite (cased_not_digit c E). apply cased_not_digit.
    rewrite casefold_cased in E. unfold cased_letter. by rewrite E, orb_true_r.
  - by rewrite casefold_uncased.
Qed.

(** Under [re.IGNORECASE] every test sees a character through its fold. *)
Lemma item_match_casefold it c c' :
  casefold c = casefold c' →
  item_match IGNORECASE it c = item_match IGNORECASE it c'.
Proof.
  intros H. destruct it as [p|lo hi| |]; simpl.
  - rewrite !in_cases_fold. fold (casefold c) (casefold c'). by rewrite H.
  - induction (codes lo hi) as [|p l IH]; simpl; [done|].
    rewrite !in_cases_fold. fold (casefold c) (casefold c'). by rewrite H, IH.
  - by rewrite <- casefold_space, H, casefold_space.
  - by rewrite <- casefold_digit, H, casefold_digit.
Qed.

Lemma set_match_casefold items c c' :
  casefold c = casefold c' →
  set_match IGNORECASE items c = set_match IGNORECASE items c'.
Proof.
  intros H. unfold set_match. induction items as [|it l IH]; simpl; [done|].
  by rewrite (item_match_casefold it c c' H), IH.
Qed.

Lemma existsb_in_cases c l :
  existsb (fun p => in_cases (sre_lower_unicode p) (sre_lower_unicode c)) l
  = existsb (N.eqb (casefold c)) (casefold <$> l).
Proof.
  induction l as [|p l IH]; simpl; [done|].
  by rewrite in_cases_fold, IH.
Qed.

(** [[A-Z]] under [re.IGNORECASE]: the 52 ASCII letters and four more. *)
Lemma range_test c :
  set_match IGNORECASE [RANGE (ord "A") (ord "Z")] c = cased_letter c.
Proof.
  rewrite casefold_cased. unfold set_match. cbn [existsb item_match IGNORECASE].
  rewrite orb_false_r, existsb_in_cases.
  generalize (casefold c). intros x.
  let l := eval vm_compute in (casefold <$> codes (ord "A") (ord "Z")) in
  change (casefold <$> codes (ord "A") (ord "Z")) with l.
  unfold ascii_lower_letter. cbn [existsb].
  repeat (match goal with
          | |- context [N.eqb x ?b] => destruct (N.eqb_spec x b); [by subst|]
          end; cbn [orb]).
  case_cmp; reflexivity.
Qed.

(** Texts that differ in letter case only are matched alike. *)
Lemma count_run_casefold items cap s s' :
  casefold <$> s = casefold <$> s' →
  count_run (set_match IGNORECASE items) cap s
  = count_run (set_match IGNORECASE items) cap s'.
Proof.
  revert s s'. induction cap as [|cap IH]; intros [|c s] [|c' s'] H;
    try done; simpl in *.
  injection H as Hc Hs. rewrite (set_match_casefold items c c' Hc).
  destruct (set_match IGNORECASE items c'); [|done]. f_equal. by apply IH.
Qed.

Lemma exec_casefold p s s' :
  casefold <$> s = casefold <$> s' →
  exec IGNORECASE p s = exec IGNORECASE p s'.
Proof.
  revert s s'. induction p as [|items|p IHp q IHq|p IHp q IHq|lo hi items|g p IHp];
    intros s s' H; simpl.
  - done.
  - destruct s as [|c s], s' as [|c' s']; try done. injection H as Hc Hs.
    by rewrite (set_match_casefold items c c' Hc).
  - rewrite (IHp s s' H). apply list_bind_ext; [|done]. intros [n1 m1].
    rewrite (IHq (drop n1 s) (drop n1 s')); [done|]. by rewrite !fmap_drop, H.
  - by rewrite (IHp s s' H), (IHq s s' H).
  - rewrite (count_run_casefold items _ s s' H).
    apply (f_equal length) in H. rewrite !length_fmap in H. by rewrite H.
  - by rewrite (IHp s s' H).
Qed.

Lemma search_from_casefold p s s' i :
  casefold <$> s = casefold <$> s' →
  search_from IGNORECASE p s i = search_from IGNORECASE p s' i.
Proof.
  revert s' i. induction s as [|c s IH]; intros [|c' s'] i H; try done; simpl.
  rewrite (exec_casefold p (c :: s) (c' :: s') H).
  destruct (exec IGNORECASE p (c' :: s')) as [|[n m] l]; [|done].
  injection H as Hc Hs. by apply IH.
Qed.

(** *** The first result *)

Lemma exec_SEQ_unfold ic p q s :
  exec ic (SEQ p q) s = exec ic p s ≫= seq_step ic q s.
Proof. simpl. apply list_bind_ext; [|done]. by intros [n1 m1]. Qed.

(** The first way through [p] that [q] can go on from is the first
    result of [SEQ p q]. *)
Lemma exec_SEQ_first ic p q s n1 m1 l1 n2 m2 l2 :
  exec ic p s = (n1, m1) :: l1 →
  exec ic q (drop n1 s) = (n2, m2) :: l2 →
  ∃ l, exec ic (SEQ p q) s = (n1 + n2, shift n1 m2 ++ m1) :: l.
Proof.
  intros Hp Hq. rewrite exec_SEQ_unfold, Hp, bind_cons. simpl. rewrite Hq.
  rewrite bind_cons. simpl. eauto.
Qed.

Lemma exec_SEQ_nil ic p q s :
  (∀ n m, (n, m) ∈ exec ic p s → exec ic q (drop n s) = []) →
  exec ic (SEQ p q) s = [].
Proof.
  intros H. rewrite exec_SEQ_unfold.
  induction (exec ic p s) as [|[n m] l IH]; [done|].
  rewrite bind_cons. simpl. rewrite (H n m) by left. simpl.
  apply IH. intros n' m' Hin. apply (H n' m'). by right.
Qed.

Lemma exec_BRANCH_first_l ic p q s x l :
  exec ic p s = x :: l → ∃ l', exec ic (BRANCH p q) s = x :: l'.
Proof. intros H. simpl. rewrite H. simpl. eauto. Qed.

Lemma exec_BRANCH_nil_l ic p q s :
  exec ic p s = [] → exec ic (BRANCH p q) s = exec ic q s.
Proof. intros H. simpl. by rewrite H. Qed.

Lemma exec_SUBPATTERN_first ic g p s n m l :
  exec ic p s = (n, m) :: l →
  ∃ l', exec ic (SUBPATTERN g p) s = (n, (g, (0, n)) :: m) :: l'.
Proof. intros H. simpl. rewrite H. simpl. eauto. Qed.

Lemma exec_MAX_REPEAT_short ic lo hi items s :
  count_run (set_match ic items) (default (length s) hi) s < lo →
  exec ic (MAX_REPEAT lo hi items) s = [].
Proof. intros H. simpl. by rewrite backoff_nil. Qed.

(** *** [re.search] *)

Lemma search_from_Some ic p s i j n m :
  search_from ic p s i = Some (j, n, m) ↔
  ∃ k, j = i + k ∧ k ≤ length s
       ∧ (∀ k', k' < k → exec ic p (drop k' s) = [])
       ∧ head (exec ic p (drop k s)) = Some (n, m).
Proof.
  revert i. induction s as [|c s IH]; intros i; simpl.
  - destruct (exec ic p []) as [|[n' m'] l] eqn:E.
    + split; [done|]. intros (k & -> & Hk & _ & H).
      assert (k = 0) as -> by (simpl in Hk; lia). simpl in H. by rewrite E in H.
    + split.
      * intros [= <- <- <-]. exists 0. simpl. rewrite E.
        repeat split; [lia|lia|]. intros; lia.
      * intros (k & -> & Hk & _ & H).
        assert (k = 0) as -> by (simpl in Hk; lia). simpl in H. rewrite E in H.
        injection H as -> ->. by rewrite Nat.add_0_r.
  - destruct (exec ic p (c :: s)) as [|[n' m'] l] eqn:E.
    + rewrite IH. split.
      * intros (k & -> & Hk & Hno & H). exists (S k). repeat split; [lia|lia| |done].
        intros [|k'] ?; [done|]. apply Hno. lia.
      * intros (k & -> & Hk & Hno & H). destruct k as [|k].
        { simpl in H. by rewrite E in H. }
        exists k. repeat split; [lia|lia| |done].
        intros k' ?. apply (Hno (S k')). lia.
    + split.
      * intros [= <- <- <-]. exists 0. simpl. rewrite E.
        repeat split; [lia|lia|]. intros; lia.
      * intros (k & -> & Hk & Hno & H). destruct k as [|k].
        { simpl in H. rewrite E in H. injection H as -> ->. by rewrite Nat.add_0_r. }
        specialize (Hno 0 ltac:(lia)). simpl in Hno. by rewrite E in Hno.
Qed.

Lemma search_from_None ic p s i :
  search_from ic p s i = None ↔ ∀ k, k ≤ length s → exec ic p (drop k s) = [].
Proof.
  revert i. induction s as [|c s IH]; intros i; simpl.
  - destruct (exec ic p []) as [|[n' m'] l] eqn:E.
    + split; [|done]. intros _ k Hk. by replace k with 0 by lia.
    + split; [done|]. intros H. specialize (H 0 ltac:(lia)). simpl in H. congruence.
  - destruct (exec ic p (c :: s)) as [|[n' m'] l] eqn:E.
    + rewrite IH. split.
      * intros H [|k] Hk; [done|]. apply H. lia.
      * intros H k Hk. apply (H (S k)). lia.
    + split; [done|]. intros H. specialize (H 0 ltac:(lia)). simpl in H. congruence.
Qed.

(** The scan stops at the leftmost position where the pattern matches. *)
Lemma search_from_app ic p pre s n m l :
  (∀ i, i < length pre → exec ic p (drop i (pre ++ s)) = []) →
  exec ic p s = (n, m) :: l →
  search_from ic p (pre ++ s) 0 = Some (length pre, n, m).
Proof.
  intros Hpre Hs. apply search_from_Some. exists (length pre).
  rewrite drop_app_length, Hs, length_app. repeat split; [lia|done].
Qed.

(** [re.search] finds nothing exactly when the pattern describes no
    substring of the text. *)
Lemma search_None_occurs ic p text :
  search p text ic = None ↔ ¬ occurs ic p text.
Proof.
  unfold search. rewrite fmap_None, search_from_None. split.
  - intros H (pre & w & suf & -> & Hw).
    destruct (exec_complete ic p w suf Hw) as [m Hm].
    specialize (H (length pre)). rewrite drop_app_length, length_app in H.
    rewrite H in Hm by lia. by apply elem_of_nil in Hm.
  - intros H k Hk. destruct (exec ic p (drop k text)) as [|[n m] l] eqn:E; [done|].
    destruct (exec_sound ic p (drop k text) n m) as [Hn Hm]; [rewrite E; left|].
    exfalso. apply H. exists (take k text), (take n (drop k text)),
      (drop n (drop k text)). by rewrite !take_drop.
Qed.

End ReFacts.

(** ** Facts about the extractor *)
Module ExtractorFacts.
Import ReFacts.

Lemma patterns_parts k :
  patterns k =
  if is_field k
  then (SUBPATTERN 1 (labels k) ⨾ SPACES ⨾ SEPARATORS ⨾ SUBPATTERN 2 (value k))%re
  else (SUBPATTERN 1 (labels k) ⨾ SPACES ⨾ SUBPATTERN 2 (value k))%re.
Proof. by destruct k. Qed.

Lemma plain_marks ic p s n m :
  plain p = true → (n, m) ∈ exec ic p s → m = [].
Proof.
  revert s n m. induction p as [|items|p IHp q IHq|p IHp q IHq|lo hi items|g p IHp];
    intros s n m Hp H; simpl in Hp.
  - by apply list_elem_of_singleton in H as [= -> ->].
  - by apply elem_of_exec_IN in H as (_ & -> & _).
  - apply andb_true_iff in Hp as [Hp Hq].
    apply elem_of_exec_SEQ in H as (n1 & m1 & n2 & m2 & H1 & H2 & -> & ->).
    by rewrite (IHp _ _ _ Hp H1), (IHq _ _ _ Hq H2).
  - apply andb_true_iff in Hp as [Hp Hq].
    apply elem_of_exec_BRANCH in H as [H|H]; eauto.
  - by apply elem_of_exec_MAX_REPEAT in H as [-> _].
  - done.
Qed.

Lemma plain_parts k :
  plain (labels k) = true ∧ plain (gap k) = true ∧ plain (value k) = true.
Proof. by destruct k. Qed.

(** Every way a rule matches: group 1 holds a label, group 2 a value,
    and only what the rule allows stands between them. *)
Lemma exec_rule ic k s n m :
  (n, m) ∈ exec ic (patterns k) s →
  ∃ n1 n2 n3,
    n = n1 + n2 + n3 ∧ n ≤ length s
    ∧ m = [(2, (n1 + n2, n1 + n2 + n3)); (1, (0, n1))]
    ∧ matches ic (labels k) (take n1 s)
    ∧ matches ic (gap k) (take n2 (drop n1 s))
    ∧ matches ic (value k) (take n3 (drop (n1 + n2) s)).
Proof.
  intros H. pose proof (exec_sound ic _ _ _ _ H) as [Hn _].
  destruct (plain_parts k) as (Pl & Pg & Pv).
  rewrite patterns_parts in H. destruct (is_field k) eqn:Ek.
  - apply elem_of_exec_SEQ in H as (n1 & m1 & n' & m' & H1 & H & -> & ->).
    apply elem_of_exec_SUBPATTERN in H1 as (m1' & H1 & ->).
    apply elem_of_exec_SEQ in H as (n2 & m2 & n'' & m'' & H2 & H & -> & ->).
    apply elem_of_exec_SEQ in H as (n3 & m3 & n4 & m4 & H3 & H4 & -> & ->).
    apply elem_of_exec_SUBPATTERN in H4 as (m4' & H4 & ->).
    pose proof (plain_marks _ _ _ _ _ Pl H1) as ->.
    pose proof (plain_marks _ _ _ _ _ Pv H4) as ->.
    pose proof (plain_marks ic SPACES _ _ _ eq_refl H2) as ->.
    pose proof (plain_marks ic SEPARATORS _ _ _ eq_refl H3) as ->.
    exists n1, (n2 + n3), n4.
    split_and!; [lia|lia|simpl; do 3 f_equal; lia| | |].
    + by apply exec_sound in H1 as [_ ?].
    + assert (gap k = SEQ SPACES SEPARATORS) as -> by by destruct k.
      apply exec_sound in H2 as [_ M2]. apply exec_sound in H3 as [_ M3].
      exists (take n2 (drop n1 s)), (take n3 (drop n2 (drop n1 s))).
      by rewrite take_take_drop.
    + apply exec_sound in H4 as [_ M4]. by rewrite !drop_drop in M4.
  - assert (k = action) as -> by by destruct k.
    apply elem_of_exec_SEQ in H as (n1 & m1 & n' & m' & H1 & H & -> & ->).
    apply elem_of_exec_SUBPATTERN in H1 as (m1' & H1 & ->).
    apply elem_of_exec_SEQ in H as (n2 & m2 & n3 & m3 & H2 & H3 & -> & ->).
    apply elem_of_exec_SUBPATTERN in H3 as (m3' & H3 & ->).
    pose proof (plain_marks _ _ _ _ _ Pl H1) as ->.
    pose proof (plain_marks _ _ _ _ _ Pv H3) as ->.
    pose proof (plain_marks ic SPACES _ _ _ eq_refl H2) as ->.
    exists n1, n2, n3.
    split_and!; [lia|lia|simpl; do 3 f_equal; lia| | |].
    + by apply exec_sound in H1 as [_ ?].
    + by apply exec_sound in H2 as [_ ?].
    + apply exec_sound in H3 as [_ M3]. by rewrite !drop_drop in M3.
Qed.

(** What [re.search] returns for a rule: the match is at the leftmost
    position where the rule matches, and both groups took part. *)
Lemma search_groups ic k text mo :
  search (patterns k) text ic = Some mo →
  ∃ pre g1 mid g2 suf,
    text = pre ++ g1 ++ mid ++ g2 ++ suf
    ∧ m_string mo = text ∧ m_start mo = length pre
    ∧ group_opt mo 1 = Some g1 ∧ group_opt mo 2 = Some g2
    ∧ matches ic (labels k) g1 ∧ matches ic (gap k) mid
    ∧ matches ic (value k) g2
    ∧ (∀ i, i < length pre → ¬ matches_at ic (patterns k) text i)
    ∧ head (exec ic (patterns k) (g1 ++ mid ++ g2 ++ suf))
      = Some (length g1 + length mid + length g2, m_marks mo).
Proof.
  unfold search. intros H. apply fmap_Some in H as ([[i n] m] & H & ->).
  apply search_from_Some in H as (k' & -> & Hk & Hno & Hhd). simpl in *.
  destruct (exec ic (patterns k) (drop k' text)) as [|x l] eqn:E; [done|].
  injection Hhd as ->.
  destruct (exec_rule ic k (drop k' text) n m) as (n1 & n2 & n3 & -> & Hn & -> & M1 & M2 & M3);
    [rewrite E; left|].
  set (s := drop k' text) in *.
  assert (Hs : s = take n1 s ++ take n2 (drop n1 s)
                   ++ take n3 (drop (n1 + n2) s) ++ drop (n1 + n2 + n3) s).
  { rewrite <- (drop_drop s n2 n1), <- (drop_drop s n3 (n1 + n2)).
    rewrite <- (drop_drop s n2 n1). by rewrite !take_drop. }
  exists (take k' text), (take n1 s), (take n2 (drop n1 s)),
    (take n3 (drop (n1 + n2) s)), (drop (n1 + n2 + n3) s).
  rewrite <- Hs. rewrite length_take_le by done.
  assert (n1 ≤ length s ∧ n2 ≤ length (drop n1 s)
          ∧ n3 ≤ length (drop (n1 + n2) s)) as (L1 & L2 & L3).
  { rewrite !length_drop. lia. }
  rewrite !length_take_le by done.
  unfold group_opt; simpl.
  split_and!; try done.
  - subst s. by rewrite take_drop.
  - rewrite Nat.add_0_r, Nat.sub_0_r. done.
  - replace (n1 + n2 + n3 - (n1 + n2)) with n3 by lia.
    subst s. by rewrite drop_drop.
  - intros i Hi. unfold matches_at. rewrite Hno; [tauto|done].
  - by rewrite E.
Qed.

(** In each rule both groups take part in every match, so
    [match.group] never yields [None]. *)
Lemma search_group ic k text mo g :
  search (patterns k) text ic = Some mo → g = 1 ∨ g = 2 →
  group_opt mo g = Some (group mo g).
Proof.
  intros H Hg. destruct (search_groups ic k text mo H)
    as (pre & g1 & mid & g2 & suf & _ & _ & _ & G1 & G2 & _).
  unfold group. by destruct Hg as [-> | ->]; rewrite ?G1, ?G2.
Qed.

(** *** The languages of the parts *)

Lemma fmap_casefold_eq (w w0 : unicode) :
  casefold <$> w = casefold <$> w0 ↔
  Forall2 (fun c p => casefold c = casefold p) w w0.
Proof.
  revert w0. induction w as [|c w IH]; intros [|p w0]; simpl; split;
    try done; try by inversion 1.
  - intros [= Hc Hw]. constructor; [done|]. by apply IH.
  - inversion 1; subst. f_equal; [done|]. by apply IH.
Qed.

Lemma matches_word_of w0 w :
  matches IGNORECASE (word_of w0) w ↔ casefold <$> w = casefold <$> w0.
Proof.
  revert w. induction w0 as [|p w0 IH]; intros w.
  - simpl. split; [by intros ->|]. by destruct w.
  - assert (matches IGNORECASE (word_of (p :: w0)) w ↔
            ∃ c w', w = c :: w' ∧ set_match IGNORECASE [LITERAL p] c = true
                    ∧ matches IGNORECASE (word_of w0) w') as ->.
    { destruct w0 as [|p' w0]; simpl.
      - split.
        + intros (c & -> & Hc). by exists c, [].
        + intros (c & w' & -> & Hc & ->). eauto.
      - split.
        + intros (w1 & w2 & -> & (c & -> & Hc) & H2). by exists c, w2.
        + intros (c & w' & -> & Hc & H2). exists [c], w'. eauto. }
    split.
    + intros (c & w' & -> & Hc & Hw'). rewrite literal_test in Hc.
      apply N.eqb_eq in Hc. simpl. f_equal; [done|]. by apply IH.
    + destruct w as [|c w']; [done|]. intros [= Hc Hw'].
      exists c, w'. rewrite literal_test. split_and!; [done| |by apply IH].
      by apply N.eqb_eq.
Qed.

(** [any_case] is how [re.IGNORECASE] reads a literal word. *)
Lemma any_case_matches w0 w :
  matches IGNORECASE (word w0) w ↔ any_case w0 w.
Proof. apply matches_word_of. Qed.

Lemma matches_SPACES w :
  matches IGNORECASE SPACES w ↔ Forall (fun c => Py_UNICODE_ISSPACE c = true) w.
Proof.
  simpl. split.
  - intros (_ & _ & H). eapply Forall_impl; [exact H|]. intros c Hc.
    unfold set_match in Hc. simpl in Hc. by rewrite orb_false_r in Hc.
  - intros H. split_and!; [lia|done|]. eapply Forall_impl; [exact H|].
    intros c Hc. unfold set_match. simpl. by rewrite orb_false_r.
Qed.

Lemma matches_LETTERS_3_6 w :
  matches IGNORECASE LETTERS_3_6 w ↔ letters_3_6 w.
Proof.
  unfold letters_3_6. cbn [matches LETTERS_3_6]. split.
  - intros (Hlo & Hhi & H). split; [split; [done|by apply Hhi]|].
    eapply Forall_impl; [exact H|]. intros c Hc. by rewrite <- range_test.
  - intros ([Hlo Hhi] & H). split_and!; [done|by intros ? [= <-]|].
    eapply Forall_impl; [exact H|]. intros c Hc. by rewrite range_test.
Qed.

Lemma matches_instrument tok :
  matches IGNORECASE (value action) tok ↔ instrument tok.
Proof.
  unfold instrument. cbn [value matches].
  rewrite !any_case_matches. apply or_iff_compat_r. split.
  - intros (x & r & -> & Hx%matches_LETTERS_3_6 & s & y & -> & Hs & Hy%matches_LETTERS_3_6).
    apply (any_case_matches "/") in Hs. unfold any_case in Hs.
    destruct s as [|c [|? ?]]; try done. injection Hs as Hc.
    assert (c = ord "/") as ->.
    { destruct (cased_letter c) eqn:E.
      - rewrite casefold_cased, Hc in E. done.
      - by rewrite casefold_uncased in Hc. }
    eauto.
  - intros (x & y & -> & Hx%matches_LETTERS_3_6 & Hy%matches_LETTERS_3_6).
    exists x, (ord "/" :: y). split_and!; [done..|].
    exists [ord "/"], y. split_and!; [done| |done]. by apply (any_case_matches "/").
Qed.

(** The action rule describes exactly the action phrases. *)
Lemma matches_action w :
  matches IGNORECASE (patterns action) w ↔ action_phrase w.
Proof.
  unfold action_phrase. cbn [patterns]. cbn [matches]. split.
  - intros (a & r & -> & Ha & ws & tok & -> & Hws%matches_SPACES & Htok%matches_instrument).
    exists a, ws, tok. by rewrite !any_case_matches in Ha.
  - intros (a & ws & tok & -> & Ha & Hws & Htok).
    exists a, (ws ++ tok). split_and!; [done| |].
    + by rewrite !any_case_matches.
    + exists ws, tok. split_and!; [done| |].
      * by apply matches_SPACES.
      * by apply matches_instrument.
Qed.

(** *** [upper] on what the action rule captures *)

Lemma upper_codepoint_casefold c p :
  own_upper p = true → casefold c = casefold p → upper_codepoint c = p.
Proof.
  intros Hp Hc. destruct (cased_letter p) eqn:Ep.
  - unfold own_upper in Hp. rewrite Ep, orb_false_r in Hp.
    apply andb_true_iff in Hp as [[Hu Hi%negb_true_iff]%andb_true_iff Hk%negb_true_iff].
    apply N.eqb_neq in Hi, Hk. revert Hc Hu.
    unfold casefold, sre_lower_unicode, fold_equivalent, upper_codepoint,
      ascii_upper_letter, ascii_lower_letter.
    destruct (N.leb_spec 0x41 p), (N.leb_spec p 0x5A); try done; cbn [andb].
    intros Hc _. revert Hc. case_cmp; lia.
  - assert (cased_letter c = false) as Ec.
    { rewrite casefold_cased, Hc, <- casefold_cased. done. }
    rewrite !casefold_uncased in Hc by done. subst c.
    revert Ep. unfold cased_letter, upper_codepoint, ascii_lower_letter, ascii_upper_letter.
    case_cmp; try done.
Qed.

Lemma upper_any_case (w0 : string) w :
  forallb own_upper (lit w0) = true → any_case w0 w → upper w = lit w0.
Proof.
  unfold any_case, upper. generalize (lit w0). clear w0.
  intros w0. revert w. induction w0 as [|p w0 IH]; intros [|c w] Hp H; try done.
  simpl in *. apply andb_true_iff in Hp as [Hp Hw0]. injection H as Hc Hw.
  f_equal; [by apply upper_codepoint_casefold|by apply IH].
Qed.

(** *** The dictionary *)

Lemma lookup_set_if_match_ne key key' m (d : gmap string unicode) :
  key ≠ key' → set_if_match key m d !! key' = d !! key'.
Proof. intros H. destruct m; simpl; [by rewrite lookup_insert_ne|done]. Qed.

Lemma lookup_set_if_match key m (d : gmap string unicode) :
  d !! key = None →
  set_if_match key m d !! key = (fun m => group m 2) <$> m.
Proof. intros H. destruct m; simpl; [by rewrite lookup_insert_eq|done]. Qed.

Lemma trade_of_action am text :
  trade_of am text !! "action" = Some (upper (group am 1)).
Proof.
  unfold trade_of. rewrite !lookup_set_if_match_ne by done.
  rewrite lookup_insert_ne by done. by rewrite lookup_insert_eq.
Qed.

Lemma trade_of_symbol am text :
  trade_of am text !! "symbol"
  = Some (replace (ord "/") [] (upper (group am 2))).
Proof.
  unfold trade_of. rewrite !lookup_set_if_match_ne by done.
  by rewrite lookup_insert_eq.
Qed.

(** Each optional field holds what its own rule captures from the whole
    text, whatever the other rules found. *)
Lemma trade_of_field am text k :
  is_field k = true → trade_of am text !! key_of k = captured k text.
Proof.
  unfold trade_of, captured. destruct k; try done; intros _; simpl key_of.
  - rewrite !lookup_set_if_match_ne by done. rewrite lookup_set_if_match; [done|].
    by rewrite !lookup_insert_ne by done.
  - rewrite !lookup_set_if_match_ne by done. rewrite lookup_set_if_match; [done|].
    rewrite !lookup_set_if_match_ne by done.
    by rewrite !lookup_insert_ne by done.
  - rewrite lookup_set_if_match; [done|].
    rewrite !lookup_set_if_match_ne by done.
    by rewrite !lookup_insert_ne by done.
Qed.

(** The last test of [parse_trade_signal] never fails: the function is
    the action search followed by the three field searches. *)
Lemma parse_trade_signal_search text :
  parse_trade_signal text
  = (fun am => trade_of am text) <$> search (patterns action) text IGNORECASE.
Proof.
  unfold parse_trade_signal.
  destruct (search (patterns action) text IGNORECASE) as [am|]; [|done].
  fold (trade_of am text). simpl.
  rewrite bool_decide_eq_true_2; [done|].
  rewrite trade_of_action, trade_of_symbol. split; eauto.
Qed.

(** *** The gate *)

Lemma search_action_groups text am :
  search (patterns action) text IGNORECASE = Some am →
  (any_case "BUY" (group am 1) ∨ any_case "SELL" (group am 1))
  ∧ instrument (group am 2).
Proof.
  intros H. destruct (search_groups _ _ _ _ H)
    as (pre & g1 & mid & g2 & suf & _ & _ & _ & G1 & G2 & M1 & _ & M2 & _).
  unfold group. rewrite G1, G2. simpl. split.
  - cbn [labels matches] in M1. by rewrite !any_case_matches in M1.
  - by apply matches_instrument.
Qed.

Lemma any_case_letters (w0 : string) w :
  forallb (fun p => cased_letter p || (p =? ord "/")%N) (lit w0) = true →
  any_case w0 w →
  Forall (fun c => cased_letter c = true ∨ c = ord "/") w.
Proof.
  unfold any_case. generalize (lit w0). clear w0. intros w0. revert w.
  induction w0 as [|p w0 IH]; intros [|c w] Hp H; try done.
  simpl in Hp. apply andb_true_iff in Hp as [Hp Hw0]. injection H as Hc Hw.
  constructor; [|by apply IH].
  apply orb_true_iff in Hp as [Hp|Hp%N.eqb_eq].
  - left. by rewrite casefold_cased, Hc, <- casefold_cased.
  - subst p. destruct (cased_letter c) eqn:E; [by left|right].
    by rewrite casefold_uncased in Hc.
Qed.

(** What the action rule captures is made of the 56 letters of [[A-Z]]
    and of [/]: the code points on which [upper_codepoint] is CPython's
    upper case. *)
Lemma captured_by_action text am g :
  search (patterns action) text IGNORECASE = Some am → g = 1 ∨ g = 2 →
  Forall (fun c => cased_letter c = true ∨ c = ord "/") (group am g).
Proof.
  intros H Hg. destruct (search_action_groups text am H) as [H1 H2].
  destruct Hg as [-> | ->].
  - destruct H1 as [H1|H1];
      [by apply (any_case_letters "BUY")|by apply (any_case_letters "SELL")].
  - destruct H2 as [(x & y & -> & [_ Hx] & [_ Hy])|[H2|[H2|[H2|H2]]]];
      [|by apply (any_case_letters "XAUUSD")|by apply (any_case_letters "XAU/USD")
       |by apply (any_case_letters "GBPUSD")|by apply (any_case_letters "EURUSD")].
    apply Forall_app. split; [|constructor; [by right|]];
      (eapply Forall_impl; [eassumption|]); by left.
Qed.

Lemma parse_trade_signal_keys text trade :
  parse_trade_signal text = Some trade →
  (trade !! "action" = Some (lit "BUY") ∨ trade !! "action" = Some (lit "SELL"))
  ∧ is_Some (trade !! "symbol").
Proof.
  rewrite parse_trade_signal_search. intros (am & Ham & ->)%fmap_Some.
  rewrite trade_of_action, trade_of_symbol. split; [|eauto].
  destruct (search_action_groups _ _ Ham) as [[Ha|Ha] _];
    [left|right]; f_equal; by apply upper_any_case.
Qed.

(** C1. [parse_trade_signal] returns [None] exactly when the action rule
    matches nowhere in the text, that is when no substring of the text is
    an action token (BUY or SELL, in any letter case) followed, after
    optional whitespace, by an instrument token.  Every dictionary it
    returns holds the action, which is BUY or SELL, and a symbol: none
    holds optional fields only. *)
Theorem parse_trade_signal_gate (message_text : unicode) :
  (parse_trade_signal message_text = None
   ↔ search (patterns action) message_text IGNORECASE = None)
  ∧ (parse_trade_signal message_text = None
     ↔ ¬ ∃ pre w suf, message_text = pre ++ w ++ suf ∧ action_phrase w)
  ∧ (∀ trade, parse_trade_signal message_text = Some trade →
       (trade !! "action" = Some (lit "BUY")
        ∨ trade !! "action" = Some (lit "SELL"))
       ∧ is_Some (trade !! "symbol")).
Proof.
  split_and!; [| |apply parse_trade_signal_keys];
    rewrite parse_trade_signal_search.
  - by rewrite fmap_None.
  - rewrite fmap_None, search_None_occurs. unfold occurs.
    split; intros H (pre & w & suf & E & Hw); apply H; exists pre, w, suf;
      (split; [done|]); by apply matches_action.
Qed.

(** A text the gate lets through and one it stops. *)
Lemma parse_trade_signal_gate_witness :
  (∃ trade, parse_trade_signal (lit "Signal: sell xau/usd now") = Some trade
            ∧ (trade !! "action" = Some (lit "BUY")
               ∨ trade !! "action" = Some (lit "SELL"))
            ∧ is_Some (trade !! "symbol"))
  ∧ parse_trade_signal (lit "Entry 1.25 SL 1.30 TP 1.20") = None.
Proof.
  split.
  - destruct (parse_trade_signal (lit "Signal: sell xau/usd now")) as [trade|] eqn:E;
      [|by vm_compute in E].
    exists trade. split; [done|].
    exact (proj2 (proj2 (parse_trade_signal_gate _)) trade E).
  - apply (proj1 (parse_trade_signal_gate _)). by vm_compute.
Defined.

(** *** The optional fields *)

(** A literal without case is matched by itself only. *)
Lemma literal_uncased_test p c :
  cased_letter p = false →
  set_match IGNORECASE [LITERAL p] c = (c =? p)%N.
Proof.
  intros Hp. rewrite literal_test, (casefold_uncased p Hp).
  destruct (cased_letter c) eqn:Ec.
  - destruct (N.eqb_spec (casefold c) p) as [E|E], (N.eqb_spec c p) as [E'|E'];
      try done; subst.
    + rewrite casefold_cased in Ec. unfold cased_letter in Hp.
      rewrite Ec, orb_true_r in Hp. done.
    + congruence.
  - by rewrite casefold_uncased.
Qed.

Lemma digit_or_dot_spec c :
  digit_or_dot c = Py_UNICODE_ISDECIMAL c || (c =? ord ".")%N.
Proof.
  unfold digit_or_dot, set_match. cbn [existsb item_match].
  rewrite orb_false_r. f_equal.
  pose proof (literal_uncased_test (ord ".") c eq_refl) as H.
  unfold set_match in H. cbn [existsb item_match] in H.
  by rewrite orb_false_r in H.
Qed.

Lemma captured_value k text v :
  is_field k = true → captured k text = Some v →
  v ≠ [] ∧ Forall (fun c => digit_or_dot c = true) v ∧ substring v text.
Proof.
  unfold captured. intros Hk (mo & H & ->)%fmap_Some.
  destruct (search_groups _ _ _ _ H)
    as (pre & g1 & mid & g2 & suf & -> & _ & _ & _ & G2 & _ & _ & M2 & _).
  unfold group. rewrite G2. simpl.
  assert (value k = MAX_REPEAT 1 None [CATEGORY_DIGIT; LITERAL (ord ".")]) as E
    by by destruct k.
  rewrite E in M2. destruct M2 as (Hlen & _ & HF). split_and!.
  - intros ->. simpl in Hlen. lia.
  - done.
  - exists (pre ++ g1 ++ mid), suf. by rewrite <- !(assoc_L (++)).
Qed.

(** C6, as the code has it.  Whenever the dictionary holds [entry], [tp]
    or [sl], the value is a string, never a number: a non-empty run of
    decimal digits and points that stands in the message text as it is. *)
Theorem optional_field_values (message_text : unicode)
    (trade : gmap string unicode) (k : rule) (v : unicode) :
  is_field k = true →
  parse_trade_signal message_text = Some trade →
  trade !! key_of k = Some v →
  v ≠ []
  ∧ Forall (fun c => Py_UNICODE_ISDECIMAL c = true ∨ c = ord ".") v
  ∧ substring v message_text.
Proof.
  intros Hk Hp Hv. rewrite parse_trade_signal_search in Hp.
  apply fmap_Some in Hp as (am & _ & ->). rewrite trade_of_field in Hv by done.
  destruct (captured_value k message_text v Hk Hv) as (Hne & HF & Hsub).
  split_and!; [done| |done].
  eapply Forall_impl; [exact HF|]. intros c Hc. simpl in Hc.
  rewrite digit_or_dot_spec in Hc. apply orb_true_iff in Hc as [Hc|Hc%N.eqb_eq]; auto.
Qed.

Lemma optional_field_values_witness :
  ∃ trade,
    parse_trade_signal (lit "SELL GBPUSD Entry 1.25 SL 1.30") = Some trade
    ∧ trade !! "sl" = Some (lit "1.30")
    ∧ lit "1.30" ≠ []
    ∧ Forall (fun c => Py_UNICODE_ISDECIMAL c = true ∨ c = ord ".") (lit "1.30")
    ∧ substring (lit "1.30") (lit "SELL GBPUSD Entry 1.25 SL 1.30").
Proof.
  destruct (parse_trade_signal (lit "SELL GBPUSD Entry 1.25 SL 1.30"))
    as [trade|] eqn:E; [|by vm_compute in E].
  exists trade. split; [done|].
  assert (trade !! "sl" = Some (lit "1.30")) as Hsl.
  { vm_compute in E. injection E as <-. by vm_compute. }
  split; [done|].
  exact (optional_field_values _ trade sl (lit "1.30") eq_refl E Hsl).
Defined.

(** C6, as the claim states it, fails: the value need not be a decimal
    number.  The dots of a sentence that trail off are captured as the
    stop-loss. *)
Lemma field_value_not_decimal :
  ∃ trade,
    parse_trade_signal (lit "SELL GBPUSD now, SL... later") = Some trade
    ∧ trade !! "sl" = Some (lit "...")
    ∧ decimal_number (lit "...") = false.
Proof.
  eexists. split_and!; [by vm_compute|by vm_compute|by vm_compute].
Qed.

End ExtractorFacts.

(** ** Facts about the pipeline *)
Module PipelineFacts.
Import ReFacts ExtractorFacts.

Lemma sends_app tr1 tr2 : sends (tr1 ++ tr2) = sends tr1 ++ sends tr2.
Proof.
  induction tr1 as [|e tr1 IH]; [done|]. destruct e; simpl; by rewrite ?IH.
Qed.

Lemma received_app tr1 tr2 : received (tr1 ++ tr2) = received tr1 ++ received tr2.
Proof.
  induction tr1 as [|e tr1 IH]; [done|].
  destruct e as [[]| | | | |]; simpl; by rewrite ?IH.
Qed.

Lemma parse_trade_signal_truthy text trade :
  parse_trade_signal text = Some trade → truthy_dict (Some trade) = true.
Proof.
  intros H. destruct (parse_trade_signal_keys text trade H) as [Ha _].
  simpl. apply negb_true_iff, bool_decide_eq_false. intros ->.
  rewrite lookup_empty in Ha. by destruct Ha.
Qed.

Section Pipeline.

Context {sink : Type}.
Variable client_send_message :
  sink → Z → unicode → string → sink * option exception.
Variable int : unicode → option Z.
Variable destination_channel_id : Z.

Implicit Types (w : @world sink) (ev : event).

(** The handler on an event without text. *)
Lemma handler_no_text extract ev w :
  message ev = None ∨ message ev = Some [] →
  handler_with client_send_message extract destination_channel_id ev w
  = (mkWorld (client w)
       (trace w ++ [print (NewMessageReceived (chat_id ev)); print NoTextSkipping]),
     None).
Proof.
  intros H. unfold handler_with.
  assert (truthy_str (message ev) = false) as -> by by destruct H as [-> | ->].
  cbn [negb]. unfold do. cbn [client trace]. by rewrite <- (assoc_L (++)).
Qed.

(** The handler on a text the extractor rejects. *)
Lemma handler_no_signal ev w text :
  message ev = Some text → text ≠ [] → parse_trade_signal text = None →
  handler client_send_message destination_channel_id ev w
  = (mkWorld (client w)
       (trace w ++ [print (NewMessageReceived (chat_id ev)); print NoValidTradeSignal]),
     None).
Proof.
  intros Hm Hne Hp. unfold handler, handler_with. rewrite Hm.
  destruct text as [|c t]; [done|]. cbn [truthy_str negb default]. unfold id.
  rewrite Hp. cbn [truthy_dict]. unfold do. cbn [client trace].
  by rewrite <- (assoc_L (++)).
Qed.

(** The handler on a text that holds a signal: one request, and then
    what the transport answers decides the last line. *)
Lemma handler_signal ev w text trade :
  message ev = Some text → parse_trade_signal text = Some trade →
  let body := formatted_message trade in
  let tr := trace w ++ [print (NewMessageReceived (chat_id ev));
                        print (TradeSignalDetected trade);
                        send_message destination_channel_id body "Markdown"] in
  let '(c, r) := client_send_message (client w) destination_channel_id body "Markdown" in
  handler client_send_message destination_channel_id ev w
  = match r with
    | None => (mkWorld c (tr ++ [print SuccessfullyForwarded]), None)
    | Some e =>
        if is_Exception e then (mkWorld c (tr ++ [print (ErrorSending e)]), None)
        else (mkWorld c tr, Some e)
    end.
Proof.
  intros Hm Hp. unfold handler, handler_with. rewrite Hm.
  assert (text ≠ []) as Hne.
  { intros ->. by vm_compute in Hp. }
  destruct text as [|c0 t]; [done|]. cbn [truthy_str negb default]. unfold id.
  rewrite Hp, (parse_trade_signal_truthy _ _ Hp). cbn [default]. unfold id.
  unfold await_send, do. cbn [client trace].
  destruct (client_send_message (client w) destination_channel_id
              (formatted_message trade) "Markdown") as [c [e|]];
    [destruct (is_Exception e)|]; cbn [client trace];
    by rewrite <- !(assoc_L (++)).
Qed.

Lemma handler_signal_sends ev w text trade :
  message ev = Some text → parse_trade_signal text = Some trade →
  sends (trace (handler client_send_message destination_channel_id ev w).1)
  = sends (trace w)
    ++ [(destination_channel_id, formatted_message trade, "Markdown")].
Proof.
  intros Hm Hp. pose proof (handler_signal ev w text trade Hm Hp) as H.
  cbv zeta in H.
  destruct (client_send_message (client w) destination_channel_id
              (formatted_message trade) "Markdown") as [c [e|]];
    [destruct (is_Exception e)|]; rewrite H; cbn [fst trace];
    rewrite ?sends_app; cbn [sends]; by rewrite ?app_nil_r.
Qed.

(** C2. An event whose text is absent or empty is dropped with no send,
    whatever the extractor would say (the result is the same for every
    extractor: it is not consulted).  A text the extractor rejects makes
    no send.  A text that holds a signal makes exactly one send request,
    to the destination, with the formatted body. *)
Theorem handler_sends ev w :
  (message ev = None ∨ message ev = Some [] →
   ∀ extract extract',
     handler_with client_send_message extract destination_channel_id ev w
     = handler_with client_send_message extract' destination_channel_id ev w
     ∧ sends (trace (handler_with client_send_message extract
                       destination_channel_id ev w).1)
       = sends (trace w))
  ∧ (∀ text, message ev = Some text → parse_trade_signal text = None →
       sends (trace (handler client_send_message destination_channel_id ev w).1)
       = sends (trace w))
  ∧ (∀ text trade, message ev = Some text →
       parse_trade_signal text = Some trade →
       sends (trace (handler client_send_message destination_channel_id ev w).1)
       = sends (trace w)
         ++ [(destination_channel_id, formatted_message trade, "Markdown")]).
Proof.
  split_and!.
  - intros H extract extract'. rewrite !handler_no_text by done. split; [done|].
    cbn [fst trace]. by rewrite sends_app, app_nil_r.
  - intros text Hm Hp. destruct text as [|c t].
    + unfold handler. rewrite handler_no_text by auto.
      cbn [fst trace]. by rewrite sends_app, app_nil_r.
    + rewrite (handler_no_signal ev w (c :: t)) by done.
      cbn [fst trace]. by rewrite sends_app, app_nil_r.
  - intros text trade Hm Hp. by apply (handler_signal_sends ev w text).
Qed.

(** The handler lets no [Exception] of the transport escape. *)
Lemma handler_returns ev w :
  (∀ c d b m e, (client_send_message c d b m).2 = Some e → is_Exception e = true) →
  (handler client_send_message destination_channel_id ev w).2 = None.
Proof.
  intros Hsink. destruct (message ev) as [text|] eqn:Hm.
  - destruct (parse_trade_signal text) as [trade|] eqn:Hp.
    + pose proof (handler_signal ev w text trade Hm Hp) as H. cbv zeta in H.
      pose proof (Hsink (client w) destination_channel_id
                    (formatted_message trade) "Markdown") as He.
      destruct (client_send_message (client w) destination_channel_id
                  (formatted_message trade) "Markdown") as [c [e|]];
        [rewrite (He e eq_refl) in H|]; by rewrite H.
    + destruct text as [|c t].
      * unfold handler. by rewrite handler_no_text by auto.
      * by rewrite (handler_no_signal ev w (c :: t)).
  - unfold handler. by rewrite handler_no_text by auto.
Qed.

(** What does not derive from [Exception] is not caught: it escapes the
    handler, and nothing is printed after the request. *)
Lemma handler_propagates ev w text trade c e :
  message ev = Some text → parse_trade_signal text = Some trade →
  client_send_message (client w) destination_channel_id
    (formatted_message trade) "Markdown" = (c, Some e) →
  is_Exception e = false →
  handler client_send_message destination_channel_id ev w
  = (mkWorld c
       (trace w ++ [print (NewMessageReceived (chat_id ev));
                    print (TradeSignalDetected trade);
                    send_message destination_channel_id
                      (formatted_message trade) "Markdown"]),
     Some e).
Proof.
  intros Hm Hp Hs He.
  pose proof (handler_signal ev w text trade Hm Hp) as H. cbv zeta in H.
  by rewrite Hs, He in H.
Qed.

Lemma handler_received ev w :
  received (trace (handler client_send_message destination_channel_id ev w).1)
  = received (trace w) ++ [chat_id ev].
Proof.
  destruct (message ev) as [text|] eqn:Hm.
  - destruct (parse_trade_signal text) as [trade|] eqn:Hp.
    + pose proof (handler_signal ev w text trade Hm Hp) as H. cbv zeta in H.
      destruct (client_send_message (client w) destination_channel_id
                  (formatted_message trade) "Markdown") as [c [e|]];
        [destruct (is_Exception e)|]; rewrite H; cbn [fst trace];
        by rewrite ?received_app; cbn [received]; rewrite ?app_nil_r.
    + destruct text as [|c t].
      * unfold handler. rewrite handler_no_text by auto. cbn [fst trace].
        by rewrite received_app.
      * rewrite (handler_no_signal ev w (c :: t)) by done. cbn [fst trace].
        by rewrite received_app.
  - unfold handler. rewrite handler_no_text by auto. cbn [fst trace].
    by rewrite received_app.
Qed.

Lemma handler_request ev w :
  sends (trace (handler client_send_message destination_channel_id ev w).1)
  = sends (trace w) ++ request_of destination_channel_id ev.
Proof.
  unfold request_of. destruct (message ev) as [[|c t]|] eqn:Hm.
  - unfold handler. rewrite handler_no_text by auto. cbn [fst trace].
    by rewrite sends_app.
  - destruct (parse_trade_signal (c :: t)) as [trade|] eqn:Hp.
    + pose proof (handler_signal ev w (c :: t) trade Hm Hp) as H. cbv zeta in H.
      destruct (client_send_message (client w) destination_channel_id
                  (formatted_message trade) "Markdown") as [c' [e|]];
        [destruct (is_Exception e)|]; rewrite H; cbn [fst trace];
        rewrite ?sends_app; cbn [sends]; by rewrite ?app_nil_r.
    + rewrite (handler_no_signal ev w (c :: t)) by done. cbn [fst trace].
      by rewrite sends_app.
  - unfold handler. rewrite handler_no_text by auto. cbn [fst trace].
    by rewrite sends_app.
Qed.

(** C7. Let the transport answer a send with any error deriving from
    [Exception].  Then the handler returns normally on every event; on
    the event whose send fails the error is logged after the one request
    made (there is no second request); and over a sequence of events
    every event is handled, each making the request its own text calls
    for, whatever the transport answered to the others. *)
Theorem send_failure_contained :
  (∀ c d b m e, (client_send_message c d b m).2 = Some e → is_Exception e = true) →
  (∀ ev w, (handler client_send_message destination_channel_id ev w).2 = None)
  ∧ (∀ ev w text trade c e,
       message ev = Some text → parse_trade_signal text = Some trade →
       client_send_message (client w) destination_channel_id
         (formatted_message trade) "Markdown" = (c, Some e) →
       handler client_send_message destination_channel_id ev w
       = (mkWorld c
            (trace w ++ [print (NewMessageReceived (chat_id ev));
                         print (TradeSignalDetected trade);
                         send_message destination_channel_id
                           (formatted_message trade) "Markdown";
                         print (ErrorSending e)]),
          None))
  ∧ (∀ inbound w,
       let r := deliver client_send_message destination_channel_id inbound w in
       r.2 = None
       ∧ received (trace r.1) = received (trace w) ++ (chat_id <$> inbound)
       ∧ sends (trace r.1)
         = sends (trace w) ++ (inbound ≫= request_of destination_channel_id)).
Proof.
  intros Hsink. split_and!.
  - intros ev w. by apply handler_returns.
  - intros ev w text trade c e Hm Hp Hs.
    pose proof (handler_signal ev w text trade Hm Hp) as H. cbv zeta in H.
    rewrite Hs in H. rewrite (Hsink _ _ _ _ e) in H by by rewrite Hs.
    rewrite H. by rewrite <- (assoc_L (++)).
  - intros inbound. induction inbound as [|ev inbound IH]; intros w; cbv zeta.
    + simpl. by rewrite !app_nil_r.
    + cbn [deliver].
      pose proof (handler_returns ev w Hsink) as Hr.
      pose proof (handler_received ev w) as Hrc.
      pose proof (handler_request ev w) as Hrq.
      destruct (handler client_send_message destination_channel_id ev w)
        as [w' [e|]]; [done|]. cbn [fst snd] in *.
      destruct (IH w') as (H1 & H2 & H3).
      destruct (deliver client_send_message destination_channel_id inbound w')
        as [w'' r']. cbn [fst snd] in *. split_and!; [done| |].
      * rewrite H2, Hrc. by rewrite <- (assoc_L (++)).
      * rewrite H3, Hrq. rewrite bind_cons. by rewrite <- (assoc_L (++)).
Qed.

(** *** Start-up *)

Lemma for_each_Ok {A B} (f : A → result B) l bs :
  for_each f l = Ok bs → Forall (fun a => ∃ b, f a = Ok b) l.
Proof.
  revert bs. induction l as [|a l IH]; intros bs H; [constructor|].
  simpl in H. destruct (f a) as [b|e] eqn:E; [|done]. simpl in H.
  destruct (for_each f l) as [bs'|e]; [|done]. constructor; eauto.
Qed.

Lemma for_each_Raise {A B} (f : A → result B) l e :
  for_each f l = Raise e → ∃ a, a ∈ l ∧ f a = Raise e.
Proof.
  induction l as [|a l IH]; intros H; [done|].
  simpl in H. destruct (f a) as [b|e'] eqn:E.
  - simpl in H. destruct (for_each f l) as [bs'|e'']; [done|].
    injection H as ->. destruct IH as (a' & ? & ?); [done|].
    exists a'. split; [by right|done].
  - injection H as ->. exists a. split; [by left|done].
Qed.

Lemma to_int_Ok v z : to_int int v = Ok z → int v = Some z.
Proof. unfold to_int. by destruct (int v); intros [= ->]. Qed.

(** Reading the secrets succeeds on a complete configuration only. *)
Lemma read_secrets_Ok environ r :
  read_secrets int environ = Ok r → well_configured int environ.
Proof.
  unfold read_secrets, getitem, well_configured. intros H.
  destruct (environ !! "API_ID") as [v1|]; [|done]. cbn [bind] in H.
  destruct (to_int int v1) as [z1|] eqn:E1; [|done]. cbn [bind] in H.
  destruct (environ !! "API_HASH") as [v2|]; [|done]. cbn [bind] in H.
  destruct (environ !! "SOURCE_CHANNEL_IDS") as [v3|]; [|done]. cbn [bind] in H.
  destruct (for_each _ _) as [ids|] eqn:E3; [|done]. cbn [bind] in H.
  destruct (environ !! "DESTINATION_CHANNEL_ID") as [v4|]; [|done]. cbn [bind] in H.
  destruct (to_int int v4) as [z4|] eqn:E4; [|done].
  apply to_int_Ok in E1, E4. split_and!; eauto.
  exists v3. split; [done|]. apply for_each_Ok in E3.
  eapply Forall_impl; [exact E3|]. intros x [b Hb%to_int_Ok]. eauto.
Qed.

(** What reading the secrets raises is a [KeyError] or a [ValueError]. *)
Lemma read_secrets_Raise environ e :
  read_secrets int environ = Raise e →
  (∃ key, e = KeyError key) ∨ (∃ arg, e = ValueError arg).
Proof.
  assert (Hint : ∀ v e', to_int int v = Raise e' → ∃ arg, e' = ValueError arg).
  { intros v e'. unfold to_int. destruct (int v); [done|]. intros [= <-]. eauto. }
  unfold read_secrets, getitem. intros H.
  destruct (environ !! "API_ID") as [v1|]; [|injection H as <-; eauto].
  cbn [bind] in H.
  destruct (to_int int v1) as [z1|e1] eqn:E1;
    [|injection H as <-; right; eauto]. cbn [bind] in H.
  destruct (environ !! "API_HASH") as [v2|]; [|injection H as <-; eauto].
  cbn [bind] in H.
  destruct (environ !! "SOURCE_CHANNEL_IDS") as [v3|]; [|injection H as <-; eauto].
  cbn [bind] in H.
  destruct (for_each _ _) as [ids|e3] eqn:E3.
  2:{ injection H as <-. apply for_each_Raise in E3 as (x & _ & Hx). right; eauto. }
  cbn [bind] in H.
  destruct (environ !! "DESTINATION_CHANNEL_ID") as [v4|]; [|injection H as <-; eauto].
  cbn [bind] in H.
  destruct (to_int int v4) as [z4|e4] eqn:E4; [done|].
  injection H as <-. right; eauto.
Qed.

(** C8. When a required setting is missing or does not read as an
    integer where one is expected, [main] prints its first line and the
    error and returns: the trace gains those two lines only, so no client
    is made, nothing is subscribed or started and nothing is sent, and
    the transport is left as it was. *)
Theorem main_aborts_on_bad_configuration environ inbound w :
  ¬ well_configured int environ →
  ∃ e, main client_send_message int environ inbound w
       = (mkWorld (client w)
            (trace w ++ [print Starting; print (ErrorReadingSecrets e)]),
          None)
       ∧ ((∃ key, e = KeyError key) ∨ (∃ arg, e = ValueError arg)).
Proof.
  intros Hbad. unfold main.
  destruct (read_secrets int environ) as [r|e] eqn:E.
  - exfalso. by apply Hbad, (read_secrets_Ok environ r).
  - exists e. pose proof (read_secrets_Raise environ e E) as He.
    split; [|done]. unfold do. cbn [client trace].
    destruct He as [[key ->]|[arg ->]]; by rewrite <- (assoc_L (++)).
Qed.

(** With a complete configuration the client is made and started. *)
Lemma main_starts environ w :
  well_configured int environ →
  ∃ api_id api_hash ids,
    main client_send_message int environ [] w
    = (mkWorld (client w)
         (trace w ++ [print Starting;
                      TelegramClient "signal_copier.session" api_id api_hash;
                      on_NewMessage ids; start; print (ClientStarted ids);
                      run_until_disconnected]),
       None).
Proof.
  intros Hok. unfold main.
  destruct (read_secrets int environ) as [[[[api_id api_hash] ids] dest]|e] eqn:E.
  - exists api_id, api_hash, ids. unfold do. cbn [deliver client trace].
    by rewrite <- !(assoc_L (++)).
  - exfalso. destruct Hok as ((v1 & H1 & [z1 Z1]) & [v2 H2] & (v3 & H3 & F3) & (v4 & H4 & [z4 Z4])).
    unfold read_secrets, getitem, to_int in E.
    rewrite H1, H2, H3, H4 in E. cbn [bind] in E. rewrite Z1, Z4 in E. cbn [bind] in E.
    destruct (for_each _ _) as [bs|e'] eqn:E3; [done|].
    apply for_each_Raise in E3 as (x & Hx & Hr).
    rewrite Forall_forall in F3. destruct (F3 x Hx) as [z Hz].
    by rewrite Hz in Hr.
Qed.

(** *** The message format *)

Lemma formatted_message_spec_template trade SYMBOL ACTION :
  trade !! "symbol" = Some SYMBOL → trade !! "action" = Some ACTION →
  formatted_message trade
  = spec_template SYMBOL ACTION (or_not_specified (trade !! "entry"))
      (or_not_specified (trade !! "sl")) (or_not_specified (trade !! "tp")).
Proof.
  intros Hs Ha. unfold formatted_message, spec_template, join_lines,
    get_str, get_or, or_not_specified. rewrite Hs, Ha. cbn [default].
  unfold id. rewrite !bind_cons.
  generalize (from_option (λ x : unicode, x) (lit "Not Specified") (trade !! "entry")),
    (from_option (λ x : unicode, x) (lit "Not Specified") (trade !! "sl")),
    (from_option (λ x : unicode, x) (lit "Not Specified") (trade !! "tp")).
  intros E S T. rewrite <- !(assoc_L (++)). simpl.
  rewrite <- ?(assoc_L (++)). simpl. by rewrite ?app_nil_r.
Qed.

(** C9. The body sent for an extracted signal is the template of the
    specification with the symbol, the action and the three optional
    fields in their places, an absent field reading [Not Specified].  The
    event text of the end-to-end scenario makes one send whose body holds
    the four lines of the scenario. *)
Theorem formatted_message_is_template :
  (∀ text trade, parse_trade_signal text = Some trade →
     ∃ SYMBOL ACTION,
       trade !! "symbol" = Some SYMBOL ∧ trade !! "action" = Some ACTION
       ∧ formatted_message trade
         = spec_template SYMBOL ACTION (or_not_specified (trade !! "entry"))
             (or_not_specified (trade !! "sl")) (or_not_specified (trade !! "tp")))
  ∧ (∀ id w,
       let text := lit "BUY GBPUSD Entry: 1.2650 SL 1.2600 TP 1.2750" in
       ∃ body,
         sends (trace (handler client_send_message destination_channel_id
                         (mkEvent id (Some text)) w).1)
         = sends (trace w) ++ [(destination_channel_id, body, "Markdown")]
         ∧ lit "Action:      BUY" ∈ split LF body
         ∧ lit "Entry:       1.2650" ∈ split LF body
         ∧ lit "Stop Loss:   1.2600" ∈ split LF body
         ∧ lit "Take Profit: 1.2750" ∈ split LF body).
Proof.
  split.
  - intros text trade Hp.
    destruct (parse_trade_signal_keys text trade Hp) as [Ha [SYMBOL Hs]].
    exists SYMBOL. destruct Ha as [Ha|Ha]; eexists; split_and!; try done;
      by apply formatted_message_spec_template.
  - intros id w text. subst text.
    destruct (parse_trade_signal (lit "BUY GBPUSD Entry: 1.2650 SL 1.2600 TP 1.2750"))
      as [trade|] eqn:Hp; [|by vm_compute in Hp].
    exists (formatted_message trade). split.
    + by apply (handler_signal_sends _ w
                  (lit "BUY GBPUSD Entry: 1.2650 SL 1.2600 TP 1.2750")).
    + vm_compute in Hp. injection Hp as <-.
      split_and!; refine (bool_decide_unpack _ _); by vm_compute.
Qed.

End Pipeline.

Lemma handler_sends_witness :
  (∃ trade,
     parse_trade_signal (lit "BUY XAUUSD TP: 1950.5") = Some trade
     ∧ sends (trace (handler flaky (-1002)
                       (mkEvent (-1001) (Some (lit "BUY XAUUSD TP: 1950.5")))
                       (mkWorld 0 [])).1)
       = [] ++ [((-1002)%Z, formatted_message trade, "Markdown")])
  ∧ sends (trace (handler flaky (-1002)
                    (mkEvent (-1001) (Some (lit "good morning traders")))
                    (mkWorld 0 [])).1) = []
  ∧ sends (trace (handler flaky (-1002) (mkEvent (-1001) None)
                    (mkWorld 0 [])).1) = [].
Proof.
  split_and!.
  - destruct (parse_trade_signal (lit "BUY XAUUSD TP: 1950.5")) as [trade|] eqn:E;
      [|by vm_compute in E].
    exists trade. split; [done|].
    exact (proj2 (proj2 (handler_sends flaky (-1002)
             (mkEvent (-1001) (Some (lit "BUY XAUUSD TP: 1950.5"))) (mkWorld 0 [])))
             _ trade eq_refl E).
  - exact (proj1 (proj2 (handler_sends flaky (-1002)
             (mkEvent (-1001) (Some (lit "good morning traders"))) (mkWorld 0 [])))
             _ eq_refl eq_refl).
  - exact (proj2 (proj1 (handler_sends flaky (-1002)
             (mkEvent (-1001) None) (mkWorld 0 []))
             (or_introl eq_refl) parse_trade_signal parse_trade_signal)).
Defined.

Lemma flaky_raises_errors c d b m e :
  (flaky c d b m).2 = Some e → is_Exception e = true.
Proof. destruct c; simpl; [by intros [= <-]|done]. Qed.

(** Two signals arrive; the transport fails on the first send.  Both
    events are handled and both requests are made. *)
Lemma send_failure_contained_witness :
  let inbound := [mkEvent (-1001) (Some (lit "BUY EURUSD"));
                  mkEvent (-1001) (Some (lit "SELL XAUUSD SL 1950"))] in
  let r := deliver flaky (-1002) inbound (mkWorld 0 []) in
  r.2 = None
  ∧ received (trace r.1) = [] ++ (chat_id <$> inbound)
  ∧ sends (trace r.1) = [] ++ (inbound ≫= request_of (-1002)).
Proof.
  exact (proj2 (proj2 (send_failure_contained flaky (-1002) flaky_raises_errors))
           _ (mkWorld 0 [])).
Defined.

Lemma bad_environ_not_well_configured : ¬ well_configured int_ascii bad_environ.
Proof.
  intros (_ & _ & (v & Hv & F) & _).
  vm_compute in Hv. injection Hv as <-.
  apply Forall_cons in F as [_ F]. apply Forall_cons in F as [[z Hz] _].
  by vm_compute in Hz.
Qed.

Lemma main_aborts_on_bad_configuration_witness :
  ∃ e, main flaky int_ascii bad_environ
         [mkEvent (-1001) (Some (lit "BUY EURUSD"))] (mkWorld 0 [])
       = (mkWorld 0 ([] ++ [print Starting; print (ErrorReadingSecrets e)]), None)
       ∧ ((∃ key, e = KeyError key) ∨ (∃ arg, e = ValueError arg)).
Proof.
  exact (main_aborts_on_bad_configuration flaky int_ascii bad_environ _
           (mkWorld 0 []) bad_environ_not_well_configured).
Defined.

Lemma formatted_message_is_template_witness :
  ∃ trade SYMBOL ACTION,
    parse_trade_signal (lit "BUY XAUUSD TP: 1950.5") = Some trade
    ∧ trade !! "symbol" = Some SYMBOL ∧ trade !! "action" = Some ACTION
    ∧ formatted_message trade
      = spec_template SYMBOL ACTION (or_not_specified (trade !! "entry"))
          (or_not_specified (trade !! "sl")) (or_not_specified (trade !! "tp")).
Proof.
  destruct (parse_trade_signal (lit "BUY XAUUSD TP: 1950.5")) as [trade|] eqn:E;
    [|by vm_compute in E].
  destruct (proj1 (formatted_message_is_template flaky 0) _ trade E)
    as (SYMBOL & ACTION & H).
  by exists trade, SYMBOL, ACTION.
Defined.

End PipelineFacts.

(** ** Which match comes first *)
Module FirstMatchFacts.
Import ReFacts ExtractorFacts.

Lemma any_case_length w0 w : any_case w0 w → length w = length (lit w0).
Proof. intros H. apply (f_equal length) in H. by rewrite !length_fmap in H. Qed.

(** *** The character sets of the rules *)

Lemma whitespace_spec c : whitespace c = Py_UNICODE_ISSPACE c.
Proof. unfold whitespace, set_match. simpl. by rewrite orb_false_r. Qed.

Lemma separator_spec c :
  separator c = (c =? ord ":")%N || Py_UNICODE_ISSPACE c.
Proof.
  unfold separator, set_match. cbn [existsb item_match].
  rewrite orb_false_r. f_equal.
  pose proof (literal_uncased_test (ord ":") c eq_refl) as H.
  unfold set_match in H. cbn [existsb item_match] in H.
  by rewrite orb_false_r in H.
Qed.

Lemma space_not_digit c :
  Py_UNICODE_ISSPACE c = true → Py_UNICODE_ISDECIMAL c = false.
Proof.
  unfold Py_UNICODE_ISSPACE. intros H.
  repeat (apply orb_true_iff in H as [H|H]);
    first [ apply N.eqb_eq in H; by subst
          | apply andb_true_iff in H as [H1%N.leb_le H2%N.leb_le];
            eapply clear_of_decimals_spec; [|exact H1|exact H2]; by vm_compute ].
Qed.

Lemma digit_or_dot_not_separator c :
  digit_or_dot c = true → separator c = false.
Proof.
  rewrite digit_or_dot_spec, separator_spec.
  intros [H|H%N.eqb_eq]%orb_true_iff.
  - apply orb_false_iff. split.
    + apply N.eqb_neq. intros ->. by vm_compute in H.
    + destruct (Py_UNICODE_ISSPACE c) eqn:E; [|done].
      by rewrite (space_not_digit c E) in H.
  - by subst.
Qed.

Lemma digit_or_dot_not_cased c : digit_or_dot c = true → cased_letter c = false.
Proof.
  rewrite digit_or_dot_spec. intros [H|H%N.eqb_eq]%orb_true_iff.
  - destruct (cased_letter c) eqn:E; [|done]. by rewrite (cased_not_digit c E) in H.
  - by subst.
Qed.

Lemma separator_not_cased c : separator c = true → cased_letter c = false.
Proof.
  rewrite separator_spec. intros [H%N.eqb_eq|H]%orb_true_iff.
  - by subst.
  - destruct (cased_letter c) eqn:E; [|done]. by rewrite (cased_not_space c E) in H.
Qed.

(** A letter of a pattern matches no character without case. *)
Lemma literal_letter_uncased p c :
  cased_letter p = true → cased_letter c = false →
  set_match IGNORECASE [LITERAL p] c = false.
Proof.
  intros Hp Hc. rewrite literal_test, (casefold_uncased c Hc).
  apply N.eqb_neq. intros ->. rewrite casefold_cased in Hp.
  unfold cased_letter in Hc. by rewrite Hp, orb_true_r in Hc.
Qed.

(** *** Greedy runs *)

Lemma count_run_le_prefix test cap w rest :
  starts_with test rest = false → count_run test cap (w ++ rest) ≤ length w.
Proof.
  intros Hr. revert cap. induction w as [|c w IH]; intros cap; simpl.
  - destruct cap, rest as [|c r]; simpl in *; try lia. by rewrite Hr.
  - destruct cap; simpl; [lia|]. destruct (test c); [|lia].
    specialize (IH cap). lia.
Qed.

(** A greedy repetition over a run [w] of set members that ends where
    the text ends or a character outside the set stands: the whole run
    is tried first. *)
Lemma exec_MAX_REPEAT_stop ic lo hi items w rest :
  Forall (fun c => set_match ic items c = true) w →
  starts_with (set_match ic items) rest = false →
  lo ≤ length w → (∀ h, hi = Some h → length w ≤ h) →
  ∃ l, exec ic (MAX_REPEAT lo hi items) (w ++ rest) = (length w, []) :: l.
Proof.
  intros Hw Hrest Hlo Hhi. simpl.
  assert (count_run (set_match ic items) (default (length (w ++ rest)) hi) (w ++ rest)
          = length w) as ->.
  { assert (length w ≤ default (length (w ++ rest)) hi) as Hcap.
    { destruct hi as [h|]; simpl; [by apply Hhi|]. rewrite length_app. lia. }
    destruct rest as [|c rest]; simpl in Hrest.
    - rewrite app_nil_r in *. by apply count_run_all.
    - by apply count_run_stop. }
  destruct (backoff_head lo (length w) Hlo) as [l ->]. simpl. eauto.
Qed.

(** [\s*] and then [[:\s]*] run over all the separators before a
    number, and then [([\d.]+)] takes the whole of the number. *)
Lemma separators_number_first sep v rest :
  Forall (fun c => separator c = true) sep →
  v ≠ [] → Forall (fun c => digit_or_dot c = true) v →
  starts_with digit_or_dot rest = false →
  ∃ l, exec IGNORECASE (SPACES ⨾ SEPARATORS ⨾ SUBPATTERN 2 (value entry))%re
         (sep ++ v ++ rest)
       = (length sep + length v, [(2, (length sep, length sep + length v))]) :: l.
Proof.
  intros Hsep Hne Hv Hrest.
  destruct v as [|d v']; [done|]. clear Hne.
  assert (Hd : digit_or_dot d = true) by by inversion Hv.
  assert (Hvs : starts_with separator ((d :: v') ++ rest) = false).
  { simpl. by apply digit_or_dot_not_separator. }
  assert (Hvw : starts_with whitespace ((d :: v') ++ rest) = false).
  { simpl. pose proof (digit_or_dot_not_separator d Hd) as H.
    rewrite separator_spec in H. apply orb_false_iff in H as [_ H].
    by rewrite whitespace_spec. }
  set (s := sep ++ (d :: v') ++ rest).
  set (k0 := count_run whitespace (length s) s).
  assert (Hk0 : k0 ≤ length sep) by by apply count_run_le_prefix.
  (* the spaces *)
  assert (H1 : ∃ l, exec IGNORECASE SPACES s = (k0, []) :: l).
  { unfold SPACES. cbn [exec default].
    change (count_run (set_match IGNORECASE [CATEGORY_SPACE]) (length s) s) with k0.
    destruct (backoff_head 0 k0) as [l ->]; [lia|]. simpl. eauto. }
  (* the separators *)
  assert (H2 : ∃ l, exec IGNORECASE SEPARATORS (drop k0 s)
                    = (length sep - k0, []) :: l).
  { subst s. rewrite drop_app_le by done.
    rewrite <- (length_drop sep k0).
    apply exec_MAX_REPEAT_stop; [|done|lia|done].
    by apply Forall_drop. }
  (* the number *)
  assert (H3 : ∃ l, exec IGNORECASE (SUBPATTERN 2 (value entry))
                      (drop (length sep - k0) (drop k0 s))
                    = (length (d :: v'), [(2, (0, length (d :: v')))]) :: l).
  { subst s. rewrite drop_drop.
    replace (k0 + (length sep - k0)) with (length sep) by lia.
    rewrite drop_app_length.
    destruct (exec_MAX_REPEAT_stop IGNORECASE 1 None
                [CATEGORY_DIGIT; LITERAL (ord ".")] (d :: v') rest)
      as [l Hl]; [done|done|simpl; lia|done|].
    eapply exec_SUBPATTERN_first. exact Hl. }
  destruct H1 as [l1 H1], H2 as [l2 H2], H3 as [l3 H3].
  destruct (exec_SEQ_first _ _ _ _ _ _ _ _ _ _ H2 H3) as [l23 H23].
  destruct (exec_SEQ_first _ _ _ _ _ _ _ _ _ _ H1 H23) as [l H].
  exists l. rewrite H. f_equal. simpl.
  rewrite !Nat.add_0_r. f_equal; [lia|]. do 3 f_equal; lia.
Qed.

(** *** Words *)

Lemma exec_word_of ic w0 s :
  exec ic (word_of w0) s
  = if prefix_match ic w0 s then [(length w0, [])] else [].
Proof.
  revert s. induction w0 as [|p w0 IH]; intros s; [done|].
  destruct w0 as [|p' w0].
  - destruct s as [|c s]; [done|]. cbn [word_of exec prefix_match].
    rewrite andb_true_r. by destruct (set_match ic [LITERAL p] c).
  - change (word_of (p :: p' :: w0))
      with (SEQ (IN [LITERAL p]) (word_of (p' :: w0))).
    rewrite exec_SEQ_unfold. destruct s as [|c s]; [done|].
    change (prefix_match ic (p :: p' :: w0) (c :: s))
      with (set_match ic [LITERAL p] c && prefix_match ic (p' :: w0) s).
    cbn [exec].
    destruct (set_match ic [LITERAL p] c); [|done].
    rewrite bind_singleton. unfold seq_step. cbn [drop]. rewrite drop_0, IH.
    by destruct (prefix_match ic (p' :: w0) s).
Qed.

Lemma prefix_match_any_case w0 w T :
  casefold <$> w = casefold <$> w0 → prefix_match IGNORECASE w0 (w ++ T) = true.
Proof.
  revert w. induction w0 as [|p w0 IH]; intros [|c w] H; try done.
  injection H as Hc Hw. simpl. rewrite IH by done.
  rewrite andb_true_r. change (set_match IGNORECASE [LITERAL p] c = true).
  rewrite literal_test. by apply N.eqb_eq.
Qed.

Lemma exec_word_match (w0 : string) w T :
  any_case w0 w → exec IGNORECASE (word w0) (w ++ T) = [(length w, [])].
Proof.
  intros H. unfold word. rewrite exec_word_of, prefix_match_any_case by done.
  by rewrite (any_case_length w0 w H).
Qed.

(** A word that goes on with a letter where the text has a character
    without case does not match. *)
Lemma prefix_match_stop w0 p w1 x c T :
  length x = length w0 → cased_letter p = true → cased_letter c = false →
  prefix_match IGNORECASE (w0 ++ p :: w1) (x ++ c :: T) = false.
Proof.
  intros Hlen Hp Hc. revert x Hlen.
  induction w0 as [|q w0 IH]; intros [|d x] Hlen; try done; simpl.
  - change (set_match IGNORECASE [LITERAL p] c && prefix_match IGNORECASE w1 T = false).
    by rewrite literal_letter_uncased.
  - rewrite IH; [apply andb_false_r|]. simpl in Hlen. lia.
Qed.

(** *** The labels *)

Lemma two_words_first (w1 w2 : string) L T :
  two_words w1 w2 L → starts_with whitespace (lit w2) = false → lit w2 ≠ [] →
  ∃ l, exec IGNORECASE (word w1 ⨾ SPACES ⨾ word w2)%re (L ++ T)
       = (length L, []) :: l.
Proof.
  intros (x & ws & y & -> & Hx & Hws & Hy) Hw2 Hne.
  rewrite <- !(assoc_L (++)).
  pose proof (exec_word_match w1 x (ws ++ y ++ T) Hx) as H1.
  assert (H2 : ∃ l, exec IGNORECASE SPACES (ws ++ y ++ T) = (length ws, []) :: l).
  { apply exec_MAX_REPEAT_stop; [|  |lia|done].
    - eapply Forall_impl; [exact Hws|]. intros c Hc.
      change (whitespace c = true). by rewrite whitespace_spec.
    - unfold any_case in Hy. destruct y as [|c y], (lit w2) as [|p r]; try done.
      injection Hy as Hc _. simpl in *. change (whitespace c = false).
      change (whitespace p = false) in Hw2.
      rewrite whitespace_spec in *.
      by rewrite <- casefold_space, Hc, casefold_space. }
  pose proof (exec_word_match w2 y T Hy) as H3.
  destruct H2 as [l2 H2].
  assert (H3' : exec IGNORECASE (word w2) (drop (length ws) (ws ++ y ++ T))
                = (length y, []) :: []) by by rewrite drop_app_length.
  destruct (exec_SEQ_first _ _ _ _ _ _ _ _ _ _ H2 H3') as [l23 H23].
  assert (H23' : exec IGNORECASE (SPACES ⨾ word w2)%re
                   (drop (length x) (x ++ ws ++ y ++ T))
                 = (length ws + length y, shift (length ws) [] ++ []) :: l23)
    by by rewrite drop_app_length.
  destruct (exec_SEQ_first _ _ _ _ _ _ _ _ _ _ H1 H23') as [l H].
  exists l. rewrite H. simpl. by rewrite !length_app.
Qed.

(** After a label the text goes on with a separator or with the number:
    the matcher's first way through the labels is the label itself. *)
Lemma labels_first k L T :
  label k L → (k = entry → starts_with cased_letter T = false) →
  ∃ l, exec IGNORECASE (labels k) (L ++ T) = (length L, []) :: l.
Proof.
  intros HL HT.
  assert (Hcanon : ∀ (w0 : string), any_case w0 L →
            exec IGNORECASE (labels k) (L ++ T)
            = exec IGNORECASE (labels k) (lit w0 ++ T)).
  { intros w0 H. apply exec_casefold. by rewrite !fmap_app, H. }
  destruct k; cbn [label] in HL.
  - destruct HL as [H|H]; rewrite (Hcanon _ H), (any_case_length _ _ H);
      eexists; vm_compute; reflexivity.
  - destruct HL as [H|[H|H]]; rewrite (Hcanon _ H), (any_case_length _ _ H).
    + eexists; vm_compute; reflexivity.
    + eexists; vm_compute; reflexivity.
    + destruct T as [|c T]; [eexists; vm_compute; reflexivity|].
      specialize (HT eq_refl). simpl in HT. cbn [labels].
      rewrite exec_BRANCH_nil_l, exec_BRANCH_nil_l.
      * rewrite (exec_word_match "En" (lit "En") (c :: T) eq_refl). eauto.
      * unfold word. rewrite exec_word_of.
        change (lit "Enter") with (lit "En" ++ ord "t" :: lit "er").
        by rewrite prefix_match_stop.
      * unfold word. rewrite exec_word_of.
        change (lit "Entry") with (lit "En" ++ ord "t" :: lit "ry").
        by rewrite prefix_match_stop.
  - destruct HL as [H|H].
    + rewrite (Hcanon _ H), (any_case_length _ _ H).
      eexists; vm_compute; reflexivity.
    + cbn [labels]. rewrite exec_BRANCH_nil_l.
      * by apply two_words_first.
      * destruct H as (x & ws & y & -> & Hx & _).
        rewrite <- !(assoc_L (++)).
        rewrite (exec_casefold _ _ (lit "Take" ++ ws ++ y ++ T))
          by by rewrite !(fmap_app _ x), Hx, <- fmap_app.
        vm_compute; reflexivity.
  - destruct HL as [H|H].
    + rewrite (Hcanon _ H), (any_case_length _ _ H).
      eexists; vm_compute; reflexivity.
    + cbn [labels]. rewrite exec_BRANCH_nil_l.
      * by apply two_words_first.
      * destruct H as (x & ws & y & -> & Hx & _).
        rewrite <- !(assoc_L (++)).
        rewrite (exec_casefold _ _ (lit "Stop" ++ ws ++ y ++ T))
          by by rewrite !(fmap_app _ x), Hx, <- fmap_app.
        vm_compute; reflexivity.
Qed.

(** *** The field rules *)

Lemma field_rule_first k L sep v rest :
  is_field k = true → label k L →
  Forall (fun c => separator c = true) sep →
  v ≠ [] → Forall (fun c => digit_or_dot c = true) v →
  starts_with digit_or_dot rest = false →
  ∃ l, exec IGNORECASE (patterns k) (L ++ sep ++ v ++ rest)
       = (length L + length sep + length v,
          [(2, (length L + length sep, length L + length sep + length v));
           (1, (0, length L))]) :: l.
Proof.
  intros Hk HL Hsep Hne Hv Hrest.
  assert (HT : starts_with cased_letter (sep ++ v ++ rest) = false).
  { destruct sep as [|c sep]; simpl.
    - destruct v as [|d v]; [done|]. simpl. apply digit_or_dot_not_cased.
      by inversion Hv.
    - apply separator_not_cased. by inversion Hsep. }
  destruct (labels_first k L (sep ++ v ++ rest) HL (fun _ => HT)) as [l1 H1].
  destruct (exec_SUBPATTERN_first _ 1 _ _ _ _ _ H1) as [l1' H1'].
  destruct (separators_number_first sep v rest Hsep Hne Hv Hrest) as [l2 H2].
  assert (H2' : exec IGNORECASE (SPACES ⨾ SEPARATORS ⨾ SUBPATTERN 2 (value k))%re
                  (drop (length L) (L ++ sep ++ v ++ rest))
                = (length sep + length v,
                   [(2, (length sep, length sep + length v))]) :: l2).
  { rewrite drop_app_length. by destruct k. }
  destruct (exec_SEQ_first _ _ _ _ _ _ _ _ _ _ H1' H2') as [l H].
  exists l. rewrite patterns_parts, Hk, H. f_equal. simpl.
  f_equal; [lia|]. do 3 f_equal; lia.
Qed.

(** The first match of a pattern in a text, when nothing matches before
    the position where [s] starts. *)
Lemma search_first ic p pre s n m l :
  (∀ i, i < length pre → ¬ matches_at ic p (pre ++ s) i) →
  exec ic p s = (n, m) :: l →
  search p (pre ++ s) ic = Some (mkMatch (pre ++ s) (length pre) n m).
Proof.
  intros Hpre Hs. unfold search.
  rewrite (search_from_app ic p pre s n m l); [done| |done].
  intros i Hi. specialize (Hpre i Hi). unfold matches_at in Hpre.
  destruct (exec ic p (drop i (pre ++ s))); [done|]. by exfalso; apply Hpre.
Qed.

(** A label, separators and a number, with no earlier match of the
    rule: the number is what the rule captures. *)
Lemma captured_first k pre L sep v rest :
  is_field k = true → label k L →
  Forall (fun c => separator c = true) sep →
  v ≠ [] → Forall (fun c => digit_or_dot c = true) v →
  starts_with digit_or_dot rest = false →
  (∀ i, i < length pre →
        ¬ matches_at IGNORECASE (patterns k) (pre ++ L ++ sep ++ v ++ rest) i) →
  captured k (pre ++ L ++ sep ++ v ++ rest) = Some v.
Proof.
  intros Hk HL Hsep Hne Hv Hrest Hpre.
  destruct (field_rule_first k L sep v rest Hk HL Hsep Hne Hv Hrest) as [l H].
  unfold captured. rewrite (search_first _ _ _ _ _ _ _ Hpre H).
  cbn [fmap option_fmap option_map]. f_equal.
  unfold group, group_opt. cbn [m_marks m_start m_string span_of Nat.eqb].
  cbn [mbind option_bind default]. unfold id.
  replace (length L + length sep + length v - (length L + length sep))
    with (length v) by lia.
  rewrite (assoc_L (++) pre L), (assoc_L (++) (pre ++ L) sep).
  rewrite Nat.add_assoc, <- !length_app, drop_app_length.
  by rewrite take_app_length.
Qed.

(** Characters without case are told apart by their folds. *)
Lemma uncased_casefold_eq (g g' : unicode) :
  casefold <$> g = casefold <$> g' →
  Forall (fun c => cased_letter c = false) g → g = g'.
Proof.
  revert g'. induction g as [|c g IH]; intros [|c' g'] H Hg; try done.
  injection H as Hc Hgs. inversion Hg as [|? ? Hu Hg']; subst.
  f_equal; [|by apply IH].
  rewrite (casefold_uncased c Hu) in Hc.
  destruct (cased_letter c') eqn:E; [|by rewrite casefold_uncased in Hc].
  rewrite casefold_cased in E. rewrite <- Hc in E.
  unfold cased_letter in Hu. by rewrite E, orb_true_r in Hu.
Qed.

(** A field rule reads the same value from texts that differ in letter
    case only. *)
Lemma captured_casefold k text text' :
  is_field k = true → casefold <$> text = casefold <$> text' →
  captured k text = captured k text'.
Proof.
  intros Hk H.
  destruct (captured k text) as [v|] eqn:Ev.
  - pose proof (captured_value k text v Hk Ev) as (_ & Hv & _).
    revert Ev. unfold captured, search.
    rewrite (search_from_casefold _ text text' 0 H).
    destruct (search_from IGNORECASE (patterns k) text' 0) as [[[i n] m]|]; [|done].
    cbn [fmap option_fmap option_map]. intros [= <-]. f_equal.
    revert Hv. unfold group, group_opt. cbn [m_marks m_start m_string].
    destruct (span_of 2 m) as [[b e]|]; [|done].
    cbn [mbind option_bind default]. unfold id. intros Hv.
    apply uncased_casefold_eq.
    + by rewrite !fmap_take, !fmap_drop, H.
    + eapply Forall_impl; [exact Hv|]. intros c. apply digit_or_dot_not_cased.
  - revert Ev. unfold captured, search.
    rewrite (search_from_casefold _ text text' 0 H).
    by destruct (search_from IGNORECASE (patterns k) text' 0) as [[[i n] m]|].
Qed.

(** *** The action rule on EURUSD and EUR/USD *)

Lemma slash_letters_fail suf :
  slash_letters suf = false →
  exec IGNORECASE (word "/" ⨾ LETTERS_3_6)%re suf = [].
Proof.
  intros H. destruct suf as [|c s1]; [done|].
  rewrite exec_SEQ_unfold.
  change (exec IGNORECASE (word "/") (c :: s1))
    with (if set_match IGNORECASE [LITERAL (ord "/")] c
          then [(1, [] : marks)] else []).
  rewrite (literal_uncased_test (ord "/") c eq_refl).
  destruct (N.eqb_spec c (ord "/")) as [->|Hc]; [|done].
  rewrite bind_singleton. unfold seq_step. cbn [drop]. rewrite drop_0.
  unfold LETTERS_3_6. rewrite exec_MAX_REPEAT_short; [done|].
  cbn [default]. unfold id.
  unfold slash_letters in H. rewrite N.eqb_refl in H.
  destruct s1 as [|c1 [|c2 [|c3 s4]]]; cbn [count_run]; rewrite ?range_test;
    repeat match goal with
      | |- context [cased_letter ?x] => destruct (cased_letter x)
      end; cbn [andb] in H; try discriminate H; simpl; lia.
Qed.

Lemma instrument_first tok suf :
  (any_case "EURUSD" tok ∧ slash_letters suf = false)
  ∨ (any_case "EUR/USD" tok ∧ starts_with cased_letter suf = false) →
  ∃ l, exec IGNORECASE (value action) (tok ++ suf) = (length tok, []) :: l.
Proof.
  intros [[H Hsuf]|[H Hsuf]];
    rewrite (exec_casefold _ (tok ++ suf) (lit _ ++ suf))
      by (rewrite !fmap_app, H; reflexivity);
    rewrite (any_case_length _ _ H); cbn [value].
  - rewrite exec_BRANCH_nil_l; [eexists; vm_compute; reflexivity|].
    apply exec_SEQ_nil. intros n m Hin.
    assert (exec IGNORECASE LETTERS_3_6 (lit "EURUSD" ++ suf)
            = [(6, []); (5, []); (4, []); (3, [])]) as E
      by (vm_compute; reflexivity).
    rewrite E in Hin.
    repeat (apply elem_of_cons in Hin as [[= -> ->]|Hin]);
      [ change (drop 6 (lit "EURUSD" ++ suf)) with suf;
        by apply slash_letters_fail
      | vm_compute; reflexivity ..
      | by apply elem_of_nil in Hin ].
  - assert (H1 : exec IGNORECASE LETTERS_3_6 (lit "EUR/USD" ++ suf) = [(3, [])])
      by (vm_compute; reflexivity).
    assert (H2 : exec IGNORECASE (word "/") (drop 3 (lit "EUR/USD" ++ suf))
                 = [(1, [])]) by (vm_compute; reflexivity).
    assert (H3 : ∃ l, exec IGNORECASE LETTERS_3_6
                        (drop 1 (drop 3 (lit "EUR/USD" ++ suf)))
                      = (3, []) :: l).
    { change (drop 1 (drop 3 (lit "EUR/USD" ++ suf))) with (lit "USD" ++ suf).
      apply (exec_MAX_REPEAT_stop IGNORECASE 3 (Some 6) _ (lit "USD") suf).
      - repeat constructor.
      - destruct suf as [|c suf]; [done|]. cbn [starts_with] in *.
        by rewrite range_test.
      - simpl; lia.
      - intros h [= <-]. simpl; lia. }
    destruct H3 as [l3 H3].
    destruct (exec_SEQ_first _ _ _ _ _ _ _ _ _ _ H2 H3) as [l23 H23].
    destruct (exec_SEQ_first _ _ _ _ _ _ _ _ _ _ H1 H23) as [l H'].
    eapply exec_BRANCH_first_l. exact H'.
Qed.

(** An action word, whitespace or none, and the instrument EURUSD or
    EUR/USD that ends there: the first way the action rule matches. *)
Lemma action_rule_first a ws tok suf :
  label action a →
  Forall (fun c => Py_UNICODE_ISSPACE c = true) ws →
  (any_case "EURUSD" tok ∧ slash_letters suf = false)
  ∨ (any_case "EUR/USD" tok ∧ starts_with cased_letter suf = false) →
  ∃ l, exec IGNORECASE (patterns action) (a ++ ws ++ tok ++ suf)
       = (length a + length ws + length tok,
          [(2, (length a + length ws, length a + length ws + length tok));
           (1, (0, length a))]) :: l.
Proof.
  intros Ha Hws Htok.
  destruct (labels_first action a (ws ++ tok ++ suf) Ha) as [l1 H1]; [done|].
  destruct (exec_SUBPATTERN_first _ 1 _ _ _ _ _ H1) as [l1' H1'].
  assert (H2 : ∃ l, exec IGNORECASE SPACES (ws ++ tok ++ suf) = (length ws, []) :: l).
  { apply exec_MAX_REPEAT_stop; [| |lia|done].
    - eapply Forall_impl; [exact Hws|]. intros c Hc.
      change (whitespace c = true). by rewrite whitespace_spec.
    - assert (∃ c t, tok = c :: t ∧ casefold c = casefold (ord "E")) as (c & t & -> & Hc).
      { destruct Htok as [[H _]|[H _]]; unfold any_case in H;
          destruct tok as [|c t]; try done; injection H as Hc _; eauto. }
      simpl. change (whitespace c = false).
      rewrite whitespace_spec, <- casefold_space, Hc. done. }
  destruct H2 as [l2 H2].
  destruct (instrument_first tok suf Htok) as [l3 H3].
  destruct (exec_SUBPATTERN_first _ 2 _ _ _ _ _ H3) as [l3' H3'].
  assert (H3'' : exec IGNORECASE (SUBPATTERN 2 (value action))
                   (drop (length ws) (ws ++ tok ++ suf))
                 = (length tok, [(2, (0, length tok))]) :: l3')
    by by rewrite drop_app_length.
  destruct (exec_SEQ_first _ _ _ _ _ _ _ _ _ _ H2 H3'') as [l23 H23].
  assert (H23' : exec IGNORECASE (SPACES ⨾ SUBPATTERN 2 (value action))%re
                   (drop (length a) (a ++ ws ++ tok ++ suf))
                 = (length ws + length tok,
                    shift (length ws) [(2, (0, length tok))] ++ []) :: l23)
    by by rewrite drop_app_length.
  destruct (exec_SEQ_first _ _ _ _ _ _ _ _ _ _ H1' H23') as [l H].
  exists l. rewrite (patterns_parts action). cbn [is_field]. rewrite H. f_equal. simpl.
  f_equal; [lia|]. do 3 f_equal; lia.
Qed.

Lemma normalize_EURUSD tok :
  any_case "EUR/USD" tok ∨ any_case "EURUSD" tok →
  replace (ord "/") [] (upper tok) = lit "EURUSD".
Proof.
  intros [H|H].
  - by rewrite (upper_any_case "EUR/USD" tok eq_refl H).
  - by rewrite (upper_any_case "EURUSD" tok eq_refl H).
Qed.

(** The record of a text whose leftmost action match is an action word,
    whitespace or none, and EURUSD or EUR/USD. *)
Lemma parse_first_action pre a ws tok suf :
  label action a →
  Forall (fun c => Py_UNICODE_ISSPACE c = true) ws →
  (any_case "EURUSD" tok ∧ slash_letters suf = false)
  ∨ (any_case "EUR/USD" tok ∧ starts_with cased_letter suf = false) →
  unmatched_before action (pre ++ a ++ ws ++ tok ++ suf) (length pre) →
  ∃ trade,
    parse_trade_signal (pre ++ a ++ ws ++ tok ++ suf) = Some trade
    ∧ trade !! "action" = Some (upper a)
    ∧ trade !! "symbol" = Some (lit "EURUSD").
Proof.
  intros Ha Hws Htok Hpre.
  destruct (action_rule_first a ws tok suf Ha Hws Htok) as [l H].
  pose proof (search_first _ _ _ _ _ _ _ Hpre H) as Hs.
  rewrite parse_trade_signal_search, Hs. cbn [fmap option_fmap option_map].
  eexists. split; [done|]. rewrite trade_of_action, trade_of_symbol.
  unfold group, group_opt. cbn [m_marks m_start m_string span_of Nat.eqb].
  cbn [mbind option_bind default]. unfold id.
  rewrite Nat.add_0_r, Nat.sub_0_r, drop_app_length, take_app_length.
  split; [done|]. f_equal.
  replace (length a + length ws + length tok - (length a + length ws))
    with (length tok) by lia.
  rewrite (assoc_L (++) pre a), (assoc_L (++) (pre ++ a) ws).
  rewrite Nat.add_assoc, <- !length_app, drop_app_length, take_app_length.
  apply normalize_EURUSD. destruct Htok as [[? _]|[? _]]; auto.
Qed.

(** Cutting a word in any case where the word is cut. *)
Lemma any_case_split (w0 w1 w2 : string) w :
  lit w0 = lit w1 ++ lit w2 → any_case w0 w →
  any_case w1 (take (length (lit w1)) w)
  ∧ any_case w2 (drop (length (lit w1)) w).
Proof.
  unfold any_case. intros E H. rewrite E, fmap_app in H.
  rewrite fmap_take, fmap_drop, H.
  rewrite take_app_length', drop_app_length' by by rewrite length_fmap.
  done.
Qed.

Lemma any_case_space ws :
  any_case " " ws → Forall (fun c => Py_UNICODE_ISSPACE c = true) ws.
Proof.
  unfold any_case. destruct ws as [|c [|? ?]]; try done. intros [= Hc].
  repeat constructor. by rewrite <- casefold_space, Hc.
Qed.

(** C3, as the code has it.  Let the leftmost match of the action rule
    in a text begin at an occurrence of BUY EURUSD, in any letter case,
    that is not followed by [/] and three letters; the record then has
    action BUY and symbol EURUSD.  Let it begin at an occurrence of
    SELL EUR/USD, in any letter case, that is not followed by a letter;
    the record then has action SELL and symbol EURUSD. *)
Theorem leftmost_action_phrase (pre w suf : unicode) :
  unmatched_before action (pre ++ w ++ suf) (length pre) →
  (any_case "BUY EURUSD" w → slash_letters suf = false →
   ∃ trade, parse_trade_signal (pre ++ w ++ suf) = Some trade
            ∧ trade !! "action" = Some (lit "BUY")
            ∧ trade !! "symbol" = Some (lit "EURUSD"))
  ∧ (any_case "SELL EUR/USD" w → starts_with cased_letter suf = false →
     ∃ trade, parse_trade_signal (pre ++ w ++ suf) = Some trade
              ∧ trade !! "action" = Some (lit "SELL")
              ∧ trade !! "symbol" = Some (lit "EURUSD")).
Proof.
  intros Hpre. split; intros Hw Hsuf.
  - destruct (any_case_split "BUY EURUSD" "BUY" " EURUSD" w eq_refl Hw) as [Ha Hr].
    destruct (any_case_split " EURUSD" " " "EURUSD" _ eq_refl Hr) as [Hs Ht].
    assert (E : w = take 3 w ++ take 1 (drop 3 w) ++ drop 1 (drop 3 w))
      by by rewrite !take_drop.
    rewrite E in Hpre |- *. rewrite <- !(assoc_L (++)) in Hpre |- *.
    destruct (parse_first_action pre _ _ _ suf (or_introl Ha)
                (any_case_space _ Hs) (or_introl (conj Ht Hsuf)) Hpre)
      as (trade & Hp & Hact & Hsym).
    exists trade. split_and!; [done| |done].
    by rewrite Hact, (upper_any_case "BUY" _ eq_refl Ha).
  - destruct (any_case_split "SELL EUR/USD" "SELL" " EUR/USD" w eq_refl Hw) as [Ha Hr].
    destruct (any_case_split " EUR/USD" " " "EUR/USD" _ eq_refl Hr) as [Hs Ht].
    assert (E : w = take 4 w ++ take 1 (drop 4 w) ++ drop 1 (drop 4 w))
      by by rewrite !take_drop.
    rewrite E in Hpre |- *. rewrite <- !(assoc_L (++)) in Hpre |- *.
    destruct (parse_first_action pre _ _ _ suf (or_intror Ha)
                (any_case_space _ Hs) (or_intror (conj Ht Hsuf)) Hpre)
      as (trade & Hp & Hact & Hsym).
    exists trade. split_and!; [done| |done].
    by rewrite Hact, (upper_any_case "SELL" _ eq_refl Ha).
Qed.

Lemma nothing_before_buy_eurusd :
  unmatched_before action (lit "Signal: " ++ lit "buy EurUsd" ++ lit " now")
    (length (lit "Signal: ")).
Proof.
  intros i Hi. unfold matches_at.
  do 8 (destruct i as [|i]; [vm_compute; by intros H|]).
  simpl in Hi. lia.
Qed.

Lemma leftmost_action_phrase_witness :
  ∃ trade,
    parse_trade_signal (lit "Signal: " ++ lit "buy EurUsd" ++ lit " now") = Some trade
    ∧ trade !! "action" = Some (lit "BUY")
    ∧ trade !! "symbol" = Some (lit "EURUSD").
Proof.
  exact (proj1 (leftmost_action_phrase (lit "Signal: ") (lit "buy EurUsd")
                  (lit " now") nothing_before_buy_eurusd) eq_refl eq_refl).
Defined.

(** C3, as the claim states it, fails.  A text may hold BUY EURUSD after
    another signal, and then the other signal is the record; and it may
    go on with [/] and letters, and then the symbol is longer. *)
Lemma phrase_is_not_the_record :
  (∃ trade,
     substring (lit "BUY EURUSD") (lit "SELL XAUUSD now, BUY EURUSD later")
     ∧ parse_trade_signal (lit "SELL XAUUSD now, BUY EURUSD later") = Some trade
     ∧ trade !! "action" = Some (lit "SELL")
     ∧ trade !! "symbol" = Some (lit "XAUUSD"))
  ∧ (∃ trade,
       substring (lit "BUY EURUSD") (lit "BUY EURUSD/JPY")
       ∧ parse_trade_signal (lit "BUY EURUSD/JPY") = Some trade
       ∧ trade !! "symbol" = Some (lit "EURUSDJPY")).
Proof.
  split; eexists; split_and!; try by vm_compute.
  - by exists (lit "SELL XAUUSD now, "), (lit " later").
  - by exists [], (lit "/JPY").
Qed.

(** C4. The symbol of a record is the instrument token the action rule
    matched, in upper case and with every [/] taken out.  A matched token
    that reads EUR/USD or EURUSD, in any letter case, gives the symbol
    EURUSD; so two texts that differ only in writing the matched token
    one way or the other give records with the same symbol, EURUSD, and
    the same action. *)
Theorem symbol_normalization :
  (∀ text trade, parse_trade_signal text = Some trade →
     ∃ action_match,
       search (patterns action) text IGNORECASE = Some action_match
       ∧ trade !! "symbol"
         = Some (replace (ord "/") [] (upper (group action_match 2))))
  ∧ (∀ tok, any_case "EUR/USD" tok ∨ any_case "EURUSD" tok →
       replace (ord "/") [] (upper tok) = lit "EURUSD")
  ∧ (∀ pre a ws tok1 tok2 suf,
       label action a → Forall (fun c => Py_UNICODE_ISSPACE c = true) ws →
       any_case "EUR/USD" tok1 → any_case "EURUSD" tok2 →
       starts_with cased_letter suf = false → slash_letters suf = false →
       unmatched_before action (pre ++ a ++ ws ++ tok1 ++ suf) (length pre) →
       unmatched_before action (pre ++ a ++ ws ++ tok2 ++ suf) (length pre) →
       ∃ trade1 trade2,
         parse_trade_signal (pre ++ a ++ ws ++ tok1 ++ suf) = Some trade1
         ∧ parse_trade_signal (pre ++ a ++ ws ++ tok2 ++ suf) = Some trade2
         ∧ trade1 !! "symbol" = Some (lit "EURUSD")
         ∧ trade2 !! "symbol" = Some (lit "EURUSD")
         ∧ trade1 !! "action" = trade2 !! "action")
  ∧ (parse_trade_signal (lit "BUY EUR/USD") ≫= (.!! "symbol") = Some (lit "EURUSD")
     ∧ parse_trade_signal (lit "BUY EURUSD") ≫= (.!! "symbol") = Some (lit "EURUSD")).
Proof.
  split_and!.
  - intros text trade. rewrite parse_trade_signal_search.
    intros (am & Ham & ->)%fmap_Some. exists am. split; [done|].
    apply trade_of_symbol.
  - apply normalize_EURUSD.
  - intros pre a ws tok1 tok2 suf Ha Hws H1 H2 Hl Hs Hp1 Hp2.
    destruct (parse_first_action pre a ws tok1 suf Ha Hws
                (or_intror (conj H1 Hl)) Hp1) as (t1 & P1 & A1 & S1).
    destruct (parse_first_action pre a ws tok2 suf Ha Hws
                (or_introl (conj H2 Hs)) Hp2) as (t2 & P2 & A2 & S2).
    exists t1, t2. split_and!; try done. by rewrite A1, A2.
  - by vm_compute.
  - by vm_compute.
Qed.

Lemma symbol_normalization_witness :
  ∃ trade action_match,
    parse_trade_signal (lit "sell eur/usd") = Some trade
    ∧ search (patterns action) (lit "sell eur/usd") IGNORECASE = Some action_match
    ∧ trade !! "symbol"
      = Some (replace (ord "/") [] (upper (group action_match 2)))
    ∧ replace (ord "/") [] (upper (lit "eur/usd")) = lit "EURUSD".
Proof.
  destruct (parse_trade_signal (lit "sell eur/usd")) as [trade|] eqn:E;
    [|by vm_compute in E].
  destruct (proj1 symbol_normalization _ trade E) as (am & Hs & Hsym).
  exists trade, am. split_and!; [done|done|done|].
  exact (proj1 (proj2 symbol_normalization) (lit "eur/usd") (or_introl eq_refl)).
Defined.

(** *** The labels and the optional fields *)

Lemma matches_two_words (w1 w2 : string) L :
  matches IGNORECASE (word w1 ⨾ SPACES ⨾ word w2)%re L ↔ two_words w1 w2 L.
Proof.
  unfold two_words. cbn [matches]. split.
  - intros (x & r & -> & Hx%any_case_matches & ws & y & -> & Hws%matches_SPACES
            & Hy%any_case_matches). eauto 10.
  - intros (x & ws & y & -> & Hx & Hws & Hy).
    exists x, (ws ++ y). split_and!; [done|by apply any_case_matches|].
    exists ws, y. split_and!; [done| |by apply any_case_matches].
    by apply matches_SPACES.
Qed.

(** The labels of a rule are its synonyms, in any letter case. *)
Lemma label_matches k L : matches IGNORECASE (labels k) L ↔ label k L.
Proof.
  destruct k; cbn [labels label].
  - cbn [matches]. rewrite !any_case_matches. tauto.
  - cbn [matches]. rewrite !any_case_matches. tauto.
  - change (matches IGNORECASE (word "TP") L
            ∨ matches IGNORECASE (word "Take" ⨾ SPACES ⨾ word "Profit")%re L
            ↔ any_case "TP" L ∨ two_words "Take" "Profit" L).
    by rewrite matches_two_words, any_case_matches.
  - change (matches IGNORECASE (word "SL") L
            ∨ matches IGNORECASE (word "Stop" ⨾ SPACES ⨾ word "Loss")%re L
            ↔ any_case "SL" L ∨ two_words "Stop" "Loss" L).
    by rewrite matches_two_words, any_case_matches.
Qed.

Lemma gap_separators k mid :
  is_field k = true → matches IGNORECASE (gap k) mid →
  Forall (fun c => separator c = true) mid.
Proof.
  intros Hk. assert (gap k = SEQ SPACES SEPARATORS) as -> by by destruct k.
  intros (w1 & w2 & -> & H1%matches_SPACES & (_ & _ & H2)).
  apply Forall_app. split; [|done].
  eapply Forall_impl; [exact H1|]. intros c Hc.
  by rewrite separator_spec, Hc, orb_true_r.
Qed.

(** What a field rule captures stands after a label and separators, at
    the leftmost place where the rule matches. *)
Lemma captured_leftmost k text v :
  is_field k = true → captured k text = Some v →
  ∃ pre L sep suf,
    text = pre ++ L ++ sep ++ v ++ suf ∧ label k L
    ∧ Forall (fun c => separator c = true) sep
    ∧ unmatched_before k text (length pre).
Proof.
  unfold captured. intros Hk (mo & H & ->)%fmap_Some.
  destruct (search_groups _ _ _ _ H)
    as (pre & g1 & mid & g2 & suf & E & _ & _ & _ & G2 & M1 & Mg & _ & Hno & _).
  unfold group. rewrite G2. cbn [default]. unfold id.
  exists pre, g1, mid, suf. split_and!; [done| | |done].
  - by apply label_matches.
  - by apply (gap_separators k).
Qed.

(** C5. Each optional field of a record is what its own rule captures
    from the whole text; the rule reads texts that differ in letter case
    alike; after any label synonym in any letter case, separators or
    none, and a number, at the leftmost place where the rule matches, the
    field is that number; and whatever a rule captures stands at that
    leftmost place.  The three entry synonyms of the specification give
    the entry 100, and of two take-profit labels the first one counts. *)
Theorem optional_field_rules :
  (∀ k, is_field k = true →
     (∀ text trade, parse_trade_signal text = Some trade →
        trade !! key_of k = captured k text)
     ∧ (∀ text text', casefold <$> text = casefold <$> text' →
          captured k text = captured k text')
     ∧ (∀ pre L sep v rest trade,
          label k L → Forall (fun c => separator c = true) sep →
          v ≠ [] → Forall (fun c => digit_or_dot c = true) v →
          starts_with digit_or_dot rest = false →
          unmatched_before k (pre ++ L ++ sep ++ v ++ rest) (length pre) →
          parse_trade_signal (pre ++ L ++ sep ++ v ++ rest) = Some trade →
          trade !! key_of k = Some v)
     ∧ (∀ text v, captured k text = Some v →
          ∃ pre L sep suf,
            text = pre ++ L ++ sep ++ v ++ suf ∧ label k L
            ∧ Forall (fun c => separator c = true) sep
            ∧ unmatched_before k text (length pre)))
  ∧ (captured entry (lit "Enter: 100") = Some (lit "100")
     ∧ captured entry (lit "Entry 100") = Some (lit "100")
     ∧ captured entry (lit "En:100") = Some (lit "100")
     ∧ parse_trade_signal (lit "BUY EURUSD ENTER: 100") ≫= (.!! "entry")
       = Some (lit "100")
     ∧ parse_trade_signal (lit "Entry 100 sell gbpusd") ≫= (.!! "entry")
       = Some (lit "100")
     ∧ parse_trade_signal (lit "BUY EURUSD TP 1.10 then TP 1.20") ≫= (.!! "tp")
       = Some (lit "1.10")).
Proof.
  split.
  - intros k Hk. split_and!.
    + intros text trade. rewrite parse_trade_signal_search.
      intros (am & _ & ->)%fmap_Some. by apply trade_of_field.
    + intros text text'. by apply captured_casefold.
    + intros pre L sep v rest trade HL Hsep Hne Hv Hrest Hpre Hp.
      rewrite parse_trade_signal_search in Hp.
      apply fmap_Some in Hp as (am & _ & ->). rewrite trade_of_field by done.
      by apply captured_first.
    + intros text v. by apply captured_leftmost.
  - split_and!; by vm_compute.
Qed.

Lemma nothing_before_take_profit :
  unmatched_before tp
    (lit "SELL GBPUSD, " ++ lit "take  PROFIT" ++ lit " : " ++ lit "1.2650"
       ++ lit ", TP 1.30")
    (length (lit "SELL GBPUSD, ")).
Proof.
  intros i Hi. unfold matches_at.
  do 13 (destruct i as [|i]; [vm_compute; by intros H|]).
  simpl in Hi. lia.
Qed.

Lemma optional_field_rules_witness :
  ∃ trade,
    parse_trade_signal
      (lit "SELL GBPUSD, " ++ lit "take  PROFIT" ++ lit " : " ++ lit "1.2650"
         ++ lit ", TP 1.30") = Some trade
    ∧ trade !! "tp" = Some (lit "1.2650").
Proof.
  destruct (parse_trade_signal
              (lit "SELL GBPUSD, " ++ lit "take  PROFIT" ++ lit " : "
                 ++ lit "1.2650" ++ lit ", TP 1.30")) as [trade|] eqn:E;
    [|by vm_compute in E].
  exists trade. split; [done|].
  refine (proj1 (proj2 (proj2 (proj1 optional_field_rules tp eq_refl)))
            (lit "SELL GBPUSD, ") (lit "take  PROFIT") (lit " : ") (lit "1.2650")
            (lit ", TP 1.30") trade _ _ _ _ eq_refl nothing_before_take_profit E).
  - right. exists (lit "take"), (lit "  "), (lit "PROFIT").
    split_and!; [done|done|by repeat constructor|done].
  - by repeat constructor.
  - done.
  - by repeat constructor.
Defined.

(** The first character of a word in any case. *)
Lemma any_case_first (w0 : string) w p rest :
  lit w0 = p :: rest → any_case w0 w →
  ∃ c w', w = c :: w' ∧ casefold c = casefold p.
Proof.
  intros Hw0 H. unfold any_case in H. rewrite Hw0 in H.
  destruct w as [|c w']; [done|]. rewrite !fmap_cons in H.
  injection H as Hc _. by exists c, w'.
Qed.

(** Two action words that begin at the same place are the same. *)
Lemma label_action_unique x y r r' :
  label action x → label action y → x ++ r = y ++ r' → x = y.
Proof.
  intros Hx Hy E.
  assert (length x = length y → x = y) as Hlen.
  { intros Hl. apply (f_equal (take (length x))) in E.
    rewrite take_app_length, Hl, take_app_length in E. done. }
  destruct Hx as [Hx|Hx], Hy as [Hy|Hy].
  - apply Hlen. by rewrite (any_case_length _ _ Hx), (any_case_length _ _ Hy).
  - exfalso.
    destruct (any_case_first "BUY" x _ _ eq_refl Hx) as (c & x' & -> & Hc).
    destruct (any_case_first "SELL" y _ _ eq_refl Hy) as (d & y' & -> & Hd).
    injection E as <- _. rewrite Hc in Hd. by vm_compute in Hd.
  - exfalso.
    destruct (any_case_first "SELL" x _ _ eq_refl Hx) as (c & x' & -> & Hc).
    destruct (any_case_first "BUY" y _ _ eq_refl Hy) as (d & y' & -> & Hd).
    injection E as <- _. rewrite Hc in Hd. by vm_compute in Hd.
  - apply Hlen. by rewrite (any_case_length _ _ Hx), (any_case_length _ _ Hy).
Qed.

(** Whitespace before a character that is none ends at one place. *)
Lemma spaces_unique ws ws' t t' :
  Forall (fun c => Py_UNICODE_ISSPACE c = true) ws →
  Forall (fun c => Py_UNICODE_ISSPACE c = true) ws' →
  starts_with Py_UNICODE_ISSPACE t = false → t ≠ [] →
  starts_with Py_UNICODE_ISSPACE t' = false → t' ≠ [] →
  ws ++ t = ws' ++ t' → ws = ws' ∧ t = t'.
Proof.
  intros Hws. revert ws'.
  induction Hws as [|c ws Hc _ IH]; intros ws' Hws' Ht Hne Ht' Hne' E.
  - destruct Hws' as [|c' ws' Hc' _]; [done|].
    simpl in E. subst t. simpl in Ht. by rewrite Hc' in Ht.
  - destruct Hws' as [|c' ws' Hc' Hws'].
    + simpl in E. subst t'. simpl in Ht'. by rewrite Hc in Ht'.
    + injection E as <- E. destruct (IH ws' Hws' Ht Hne Ht' Hne' E) as [-> ->]. done.
Qed.

Lemma instrument_not_space tok suf :
  instrument tok →
  starts_with Py_UNICODE_ISSPACE (tok ++ suf) = false ∧ tok ++ suf ≠ [].
Proof.
  intros H.
  assert (Forall (fun c => cased_letter c = true ∨ c = ord "/") tok ∧ tok ≠ [])
    as [F Hne].
  { destruct H as [(x & y & -> & [Hx Fx] & [Hy Fy])|[H|[H|[H|H]]]].
    - split; [|by destruct x].
      apply Forall_app. split; [by eapply Forall_impl; [exact Fx|]; auto|].
      constructor; [by right|]. by eapply Forall_impl; [exact Fy|]; auto.
    - split; [by apply (any_case_letters "XAUUSD")|].
      apply any_case_length in H. by destruct tok.
    - split; [by apply (any_case_letters "XAU/USD")|].
      apply any_case_length in H. by destruct tok.
    - split; [by apply (any_case_letters "GBPUSD")|].
      apply any_case_length in H. by destruct tok.
    - split; [by apply (any_case_letters "EURUSD")|].
      apply any_case_length in H. by destruct tok. }
  destruct tok as [|c tok]; [done|]. split; [|done]. simpl.
  apply Forall_cons in F as [[Hc| ->] _]; [by apply cased_not_space|done].
Qed.

(** Where the action rule matches first, and what its groups hold: the
    action word that stands there, and the instrument token read after
    the whitespace (which may go on into what follows [tok]). *)
Lemma action_match_at pre a ws tok suf :
  label action a →
  Forall (fun c => Py_UNICODE_ISSPACE c = true) ws →
  instrument tok →
  unmatched_before action (pre ++ a ++ ws ++ tok ++ suf) (length pre) →
  ∃ am tok' suf',
    search (patterns action) (pre ++ a ++ ws ++ tok ++ suf) IGNORECASE = Some am
    ∧ m_start am = length pre
    ∧ group am 1 = a ∧ group am 2 = tok'
    ∧ instrument tok' ∧ tok ++ suf = tok' ++ suf'.
Proof.
  intros Ha Hws Htok Hpre.
  assert (action_phrase (a ++ ws ++ tok)) as Hw by by exists a, ws, tok.
  apply matches_action in Hw.
  destruct (exec_complete IGNORECASE (patterns action) _ suf Hw) as [m0 Hin].
  rewrite <- !(assoc_L (++)) in Hin.
  destruct (exec IGNORECASE (patterns action) (a ++ ws ++ tok ++ suf))
    as [|[n m] l] eqn:E; [by apply elem_of_nil in Hin|].
  pose proof (search_first _ _ _ _ _ _ _ Hpre E) as Hs.
  pose proof (search_group _ _ _ _ 1 Hs (or_introl eq_refl)) as G1.
  pose proof (search_group _ _ _ _ 2 Hs (or_intror eq_refl)) as G2.
  destruct (search_groups _ _ _ _ Hs)
    as (pre' & g1 & mid & g2 & suf' & Ht & _ & Hst & H1 & H2 & M1 & Mg & M2 & _).
  cbn [m_start] in Hst.
  rewrite H1 in G1. rewrite H2 in G2. injection G1 as G1. injection G2 as G2.
  apply app_inj_1 in Ht as [<- Ht]; [|done].
  apply (label_matches action) in M1. apply matches_SPACES in Mg.
  apply matches_instrument in M2.
  pose proof (label_action_unique _ _ _ _ Ha M1 Ht) as <-.
  apply app_inv_head in Ht.
  destruct (instrument_not_space tok suf Htok) as [Hn1 Hn2].
  destruct (instrument_not_space g2 suf' M2) as [Hn3 Hn4].
  destruct (spaces_unique _ _ _ _ Hws Mg Hn1 Hn2 Hn3 Hn4 Ht) as [_ Hts].
  eexists _, g2, suf'. split_and!; try done.
Qed.

(** Where a field rule matches first, and what its groups hold. *)
Lemma field_match_at k pre L sep v rest :
  is_field k = true → label k L →
  Forall (fun c => separator c = true) sep →
  v ≠ [] → Forall (fun c => digit_or_dot c = true) v →
  starts_with digit_or_dot rest = false →
  unmatched_before k (pre ++ L ++ sep ++ v ++ rest) (length pre) →
  ∃ m,
    search (patterns k) (pre ++ L ++ sep ++ v ++ rest) IGNORECASE = Some m
    ∧ m_start m = length pre ∧ group m 1 = L ∧ group m 2 = v.
Proof.
  intros Hk HL Hsep Hne Hv Hrest Hpre.
  destruct (field_rule_first k L sep v rest Hk HL Hsep Hne Hv Hrest) as [l H].
  pose proof (search_first _ _ _ _ _ _ _ Hpre H) as Hs.
  eexists. split; [exact Hs|]. split; [done|].
  unfold group, group_opt. cbn [m_marks m_start m_string span_of Nat.eqb].
  cbn [mbind option_bind default]. unfold id. split.
  - by rewrite Nat.add_0_r, Nat.sub_0_r, drop_app_length, take_app_length.
  - replace (length L + length sep + length v - (length L + length sep))
      with (length v) by lia.
    rewrite (assoc_L (++) pre L), (assoc_L (++) (pre ++ L) sep).
    rewrite Nat.add_assoc, <- !length_app, drop_app_length.
    by rewrite take_app_length.
Qed.

(** C10. Nothing anchors a token at a word boundary.  In REBUY EURUSD
    the action rule matches at position 2, inside the word REBUY: group 1
    is BUY, and the record has action BUY and symbol EURUSD.  In BUY
    EURUSD then 1.5 the entry rule matches at position 13, inside the
    word then: group 1 is the letters en, group 2 is 1.5, and the record
    has entry 1.5.  In general, whatever stands before and after (letters
    included): an action word followed by whitespace and an instrument
    token, with no match of the action rule before it, is where the rule
    matches, group 1 is that word and the record has its action; a field
    label followed by separators and a run of digits and points, with no
    match of the field's rule before it, is where the rule matches,
    group 1 is that label and the record has that run as the field; and
    a text that holds an action phrase anywhere gives a record. *)
Theorem no_word_boundary :
  (∃ trade,
     search (patterns action) (lit "REBUY EURUSD") IGNORECASE
     = Some (mkMatch (lit "REBUY EURUSD") 2 10 [(2, (4, 10)); (1, (0, 3))])
     ∧ lit "REBUY EURUSD" = lit "RE" ++ lit "BUY" ++ lit " " ++ lit "EURUSD"
     ∧ parse_trade_signal (lit "REBUY EURUSD") = Some trade
     ∧ trade !! "action" = Some (lit "BUY")
     ∧ trade !! "symbol" = Some (lit "EURUSD"))
  ∧ (∃ trade,
       search (patterns entry) (lit "BUY EURUSD then 1.5") IGNORECASE
       = Some (mkMatch (lit "BUY EURUSD then 1.5") 13 6 [(2, (3, 6)); (1, (0, 2))])
       ∧ lit "BUY EURUSD then 1.5"
         = lit "BUY EURUSD th" ++ lit "en" ++ lit " " ++ lit "1.5"
       ∧ parse_trade_signal (lit "BUY EURUSD then 1.5") = Some trade
       ∧ trade !! "entry" = Some (lit "1.5"))
  ∧ (∀ pre a ws tok suf,
       label action a →
       Forall (fun c => Py_UNICODE_ISSPACE c = true) ws →
       instrument tok →
       unmatched_before action (pre ++ a ++ ws ++ tok ++ suf) (length pre) →
       ∃ am tok' suf' trade,
         search (patterns action) (pre ++ a ++ ws ++ tok ++ suf) IGNORECASE = Some am
         ∧ m_start am = length pre
         ∧ group am 1 = a ∧ group am 2 = tok'
         ∧ instrument tok' ∧ tok ++ suf = tok' ++ suf'
         ∧ parse_trade_signal (pre ++ a ++ ws ++ tok ++ suf) = Some trade
         ∧ trade !! "action" = Some (upper a)
         ∧ trade !! "symbol" = Some (replace (ord "/") [] (upper tok')))
  ∧ (∀ k pre L sep v rest,
       is_field k = true → label k L →
       Forall (fun c => separator c = true) sep →
       v ≠ [] → Forall (fun c => digit_or_dot c = true) v →
       starts_with digit_or_dot rest = false →
       unmatched_before k (pre ++ L ++ sep ++ v ++ rest) (length pre) →
       ∃ m,
         search (patterns k) (pre ++ L ++ sep ++ v ++ rest) IGNORECASE = Some m
         ∧ m_start m = length pre ∧ group m 1 = L ∧ group m 2 = v
         ∧ ∀ trade,
             parse_trade_signal (pre ++ L ++ sep ++ v ++ rest) = Some trade →
             trade !! key_of k = Some v)
  ∧ (∀ pre w suf, action_phrase w →
       is_Some (parse_trade_signal (pre ++ w ++ suf))).
Proof.
  split_and!.
  - eexists. split_and!; by vm_compute.
  - eexists. split_and!; by vm_compute.
  - intros pre a ws tok suf Ha Hws Htok Hpre.
    destruct (action_match_at pre a ws tok suf Ha Hws Htok Hpre)
      as (am & tok' & suf' & Hs & Hst & G1 & G2 & Hi & Ht).
    exists am, tok', suf', (trade_of am (pre ++ a ++ ws ++ tok ++ suf)).
    split_and!; try done.
    + by rewrite parse_trade_signal_search, Hs.
    + by rewrite trade_of_action, G1.
    + by rewrite trade_of_symbol, G2.
  - intros k pre L sep v rest Hk HL Hsep Hne Hv Hrest Hpre.
    destruct (field_match_at k pre L sep v rest Hk HL Hsep Hne Hv Hrest Hpre)
      as (m & Hs & Hst & G1 & G2).
    exists m. split_and!; try done.
    intros trade Hp. rewrite parse_trade_signal_search in Hp.
    apply fmap_Some in Hp as (am & _ & ->).
    rewrite trade_of_field by done. unfold captured. by rewrite Hs, <- G2.
  - intros pre w suf Hw.
    destruct (parse_trade_signal (pre ++ w ++ suf)) eqn:E; [eauto|].
    rewrite parse_trade_signal_search, fmap_None, search_None_occurs in E.
    exfalso. apply E. exists pre, w, suf. split; [done|]. by apply matches_action.
Qed.

Lemma nothing_before_sell_in_oversell :
  unmatched_before action
    (lit "OVER" ++ lit "SELL" ++ lit " " ++ lit "GBP/USD" ++ lit "T")
    (length (lit "OVER")).
Proof.
  intros i Hi. unfold matches_at.
  do 4 (destruct i as [|i]; [vm_compute; by intros H|]).
  simpl in Hi. lia.
Qed.

Lemma nothing_before_en_in_golden :
  unmatched_before entry
    (lit "BUY EURUSD, gold" ++ lit "en" ++ lit ": " ++ lit "7" ++ [])
    (length (lit "BUY EURUSD, gold")).
Proof.
  intros i Hi. unfold matches_at.
  do 16 (destruct i as [|i]; [vm_compute; by intros H|]).
  simpl in Hi. lia.
Qed.

(** The action word inside OVERSELL, with a token that goes on into the
    next letter, and the label inside golden. *)
Lemma no_word_boundary_witness :
  (∃ am tok' suf' trade,
     search (patterns action)
       (lit "OVER" ++ lit "SELL" ++ lit " " ++ lit "GBP/USD" ++ lit "T") IGNORECASE
     = Some am
     ∧ m_start am = length (lit "OVER")
     ∧ group am 1 = lit "SELL" ∧ group am 2 = tok'
     ∧ instrument tok' ∧ lit "GBP/USD" ++ lit "T" = tok' ++ suf'
     ∧ parse_trade_signal
         (lit "OVER" ++ lit "SELL" ++ lit " " ++ lit "GBP/USD" ++ lit "T")
       = Some trade
     ∧ trade !! "action" = Some (upper (lit "SELL"))
     ∧ trade !! "symbol" = Some (replace (ord "/") [] (upper tok')))
  ∧ (∃ m,
       search (patterns entry)
         (lit "BUY EURUSD, gold" ++ lit "en" ++ lit ": " ++ lit "7" ++ []) IGNORECASE
       = Some m
       ∧ m_start m = length (lit "BUY EURUSD, gold")
       ∧ group m 1 = lit "en" ∧ group m 2 = lit "7"
       ∧ ∀ trade,
           parse_trade_signal
             (lit "BUY EURUSD, gold" ++ lit "en" ++ lit ": " ++ lit "7" ++ [])
           = Some trade →
           trade !! key_of entry = Some (lit "7")).
Proof.
  split.
  - refine (proj1 (proj2 (proj2 no_word_boundary))
              (lit "OVER") (lit "SELL") (lit " ") (lit "GBP/USD") (lit "T")
              _ _ _ nothing_before_sell_in_oversell).
    + by right.
    + by repeat constructor.
    + left. exists (lit "GBP"), (lit "USD"). split; [done|].
      split; (split; [simpl; lia|by repeat constructor]).
  - refine (proj1 (proj2 (proj2 (proj2 no_word_boundary)))
              entry (lit "BUY EURUSD, gold") (lit "en") (lit ": ") (lit "7") []
              eq_refl _ _ _ _ eq_refl nothing_before_en_in_golden).
    + by right; right.
    + by repeat constructor.
    + done.
    + by repeat constructor.
Defined.

End FirstMatchFacts.

(** ** The record: where it comes from and what it holds *)
Module RecordFacts.
Import ReFacts ExtractorFacts FirstMatchFacts.

Lemma search_Some_occurs ic p text :
  is_Some (search p text ic) ↔ occurs ic p text.
Proof.
  split.
  - intros [mo H]. unfold search in H.
    apply fmap_Some in H as ([[i n] m] & H & _).
    apply search_from_Some in H as (k & -> & Hk & _ & Hh).
    apply head_Some_elem_of, exec_sound in Hh as [Hn Hm].
    exists (take k text), (take n (drop k text)), (drop n (drop k text)).
    split; [|done]. by rewrite !take_drop.
  - intros Ho. destruct (search p text ic) eqn:E; [done|].
    by apply search_None_occurs in E.
Qed.

Lemma instrument_length tok : instrument tok → 6 ≤ length tok ≤ 13.
Proof.
  intros [(x & y & -> & [Hx _] & [Hy _])|[H|[H|[H|H]]]].
  - rewrite length_app. simpl. lia.
  - apply any_case_length in H. rewrite H. simpl. lia.
  - apply any_case_length in H. rewrite H. simpl. lia.
  - apply any_case_length in H. rewrite H. simpl. lia.
  - apply any_case_length in H. rewrite H. simpl. lia.
Qed.

(** The instrument token behind the symbol of a record. *)
Lemma symbol_instrument text trade :
  parse_trade_signal text = Some trade →
  ∃ tok, instrument tok
         ∧ trade !! "symbol" = Some (replace (ord "/") [] (upper tok)).
Proof.
  rewrite parse_trade_signal_search. intros H.
  apply fmap_Some in H as (am & Ham & ->).
  pose proof (search_group _ _ _ _ 2 Ham (or_intror eq_refl)) as G2.
  destruct (search_groups _ _ _ _ Ham)
    as (pre & g1 & mid & g2 & suf & _ & _ & _ & _ & H2 & _ & _ & M2 & _).
  rewrite H2 in G2. injection G2 as G2. exists g2. split.
  - by apply matches_instrument.
  - by rewrite trade_of_symbol, <- G2.
Qed.

Lemma upper_cased c :
  cased_letter c = true → capital (upper_codepoint c) = true.
Proof.
  unfold cased_letter, capital, upper_codepoint, ascii_upper_letter, ascii_lower_letter.
  case_cmp; try done; try lia.
Qed.

Lemma capital_not_slash c : capital c = true → c ≠ ord "/".
Proof. intros H ->. by vm_compute in H. Qed.

Lemma capital_not_LF c : capital c = true → c ≠ LF.
Proof. intros H ->. by vm_compute in H. Qed.

Lemma digit_or_dot_not_LF c : digit_or_dot c = true → c ≠ LF.
Proof. intros H ->. by vm_compute in H. Qed.

Lemma replace_none old new s :
  Forall (fun c => c ≠ old) s → replace old new s = s.
Proof.
  unfold replace. induction 1 as [|c s Hc _ IH]; [done|].
  rewrite bind_cons, IH. by rewrite (proj2 (N.eqb_neq c old)).
Qed.

Lemma replace_app old new s t :
  replace old new (s ++ t) = replace old new s ++ replace old new t.
Proof. apply bind_app. Qed.

Lemma upper_letters x :
  Forall (fun c => cased_letter c = true) x →
  Forall (fun c => capital c = true) (upper x).
Proof. intros H. apply Forall_fmap. eapply Forall_impl; [done|]. apply upper_cased. Qed.

(** The symbol an instrument token normalizes to. *)
Lemma symbol_of_instrument tok :
  instrument tok →
  6 ≤ length (replace (ord "/") [] (upper tok)) ≤ 12
  ∧ Forall (fun c => capital c = true) (replace (ord "/") [] (upper tok)).
Proof.
  intros [(x & y & -> & [Hx Fx] & [Hy Fy])|H].
  - assert (replace (ord "/") [] (upper (x ++ ord "/" :: y)) = upper x ++ upper y)
      as ->.
    { unfold upper. rewrite fmap_app, fmap_cons. fold (upper x) (upper y).
      change (upper_codepoint (ord "/")) with (ord "/").
      rewrite replace_app, (replace_none _ _ (upper x)).
      2:{ eapply Forall_impl; [by apply upper_letters|]. apply capital_not_slash. }
      f_equal. unfold replace. rewrite bind_cons, N.eqb_refl.
      apply (replace_none _ _ (upper y)).
      eapply Forall_impl; [by apply upper_letters|]. apply capital_not_slash. }
    split.
    + rewrite length_app. unfold upper. rewrite !length_fmap. lia.
    + apply Forall_app. split; by apply upper_letters.
  - assert (∀ w0 : string,
              forallb own_upper (lit w0) = true → any_case w0 tok →
              length (replace (ord "/") [] (lit w0)) = 6 →
              forallb capital (replace (ord "/") [] (lit w0)) = true →
              6 ≤ length (replace (ord "/") [] (upper tok)) ≤ 12
              ∧ Forall (fun c => capital c = true) (replace (ord "/") [] (upper tok)))
      as Hw.
    { intros w0 Hown Hany Hlen Hcap. rewrite (upper_any_case w0 tok Hown Hany).
      split; [lia|]. apply Forall_forall. intros c Hc.
      apply (proj1 (forallb_forall _ _) Hcap). by apply list_elem_of_In. }
    destruct H as [H|[H|[H|H]]].
    + by apply (Hw "XAUUSD"%string).
    + by apply (Hw "XAU/USD"%string).
    + by apply (Hw "GBPUSD"%string).
    + by apply (Hw "EURUSD"%string).
Qed.

Lemma lower_ascii_casefold c c' :
  lower_ascii c = lower_ascii c' → casefold c = casefold c'.
Proof.
  unfold lower_ascii, casefold, fold_equivalent, sre_lower_unicode, ascii_upper_letter.
  case_cmp; intros; try done; try lia.
Qed.

Lemma lower_ascii_upper c c' :
  lower_ascii c = lower_ascii c' → upper_codepoint c = upper_codepoint c'.
Proof.
  unfold lower_ascii, upper_codepoint, ascii_upper_letter, ascii_lower_letter.
  case_cmp; intros; try done; try lia.
Qed.

Lemma fmap_eq_pointwise {A B} (f g : A → B) (l l' : list A) :
  (∀ a a', f a = f a' → g a = g a') → f <$> l = f <$> l' → g <$> l = g <$> l'.
Proof.
  intros Hfg. revert l'. induction l as [|a l IH]; intros [|a' l'] H; try done.
  injection H as Ha Hl. rewrite !fmap_cons. f_equal; [by apply Hfg|by apply IH].
Qed.

(** [upper] of a group is the group of the upper-cased text. *)
Lemma upper_group text i n m g :
  upper (group (mkMatch text i n m) g) = group (mkMatch (upper text) i n m) g.
Proof.
  unfold group, group_opt. cbn [m_marks m_string m_start].
  destruct (span_of g m) as [[b e]|]; [|done]. cbn.
  unfold upper. by rewrite fmap_take, fmap_drop.
Qed.

Lemma set_if_match_captured k text d :
  set_if_match (key_of k) (search (patterns k) text IGNORECASE) d
  = match captured k text with
    | Some v => <[key_of k := v]> d
    | None => d
    end.
Proof. unfold captured. by destruct (search _ _ _). Qed.

(** The first result of a sequence: some result of the first part, and
    the first result of the second part after it. *)
Lemma head_exec_SEQ ic p q s n m :
  head (exec ic (SEQ p q) s) = Some (n, m) →
  ∃ n1 m1 n2 m2,
    (n1, m1) ∈ exec ic p s ∧ head (exec ic q (drop n1 s)) = Some (n2, m2)
    ∧ n = n1 + n2 ∧ m = shift n1 m2 ++ m1.
Proof.
  rewrite exec_SEQ_unfold.
  induction (exec ic p s) as [|[n1 m1] l IH]; [done|].
  rewrite bind_cons. unfold seq_step at 1.
  destruct (exec ic q (drop n1 s)) as [|[n2 m2] l2] eqn:E.
  - simpl. intros H. destruct (IH H) as (a & b & c & d & Hin & Hrest).
    exists a, b, c, d. split; [by right|done].
  - rewrite bind_cons. simpl. intros [= <- <-].
    exists n1, m1, n2, m2. rewrite E. split_and!; try done. by left.
Qed.

(** A run counted to the end of the text stops before a character that
    is not in the set. *)
Lemma count_run_maximal test cap s :
  length s ≤ cap → starts_with test (drop (count_run test cap s) s) = false.
Proof.
  revert cap. induction s as [|c s IH]; intros cap Hcap.
  - by destruct cap.
  - destruct cap as [|cap]; [simpl in Hcap; lia|]. simpl.
    destruct (test c) eqn:E; [|by simpl]. simpl. apply IH. simpl in Hcap. lia.
Qed.

Lemma head_exec_NUMBER s n m :
  head (exec IGNORECASE NUMBER s) = Some (n, m) →
  m = [(2, (0, n))] ∧ n ≤ length s
  ∧ starts_with digit_or_dot (drop n s) = false.
Proof.
  intros H.
  assert (head ((fun n => (n, (2, (0, n)) :: [] : marks))
                <$> backoff 1 (count_run digit_or_dot (length s) s)) = Some (n, m))
    as H'.
  { rewrite <- H. unfold NUMBER. cbn [exec default]. unfold id.
    rewrite <- list_fmap_compose. done. }
  clear H. revert H'.
  set (k := count_run digit_or_dot (length s) s).
  intros H. destruct (decide (1 ≤ k)) as [Hk|Hk].
  - destruct (backoff_head 1 k Hk) as [l Hl]. rewrite Hl in H.
    simpl in H. injection H as <- <-. split_and!; [done| |].
    + apply (count_run_le digit_or_dot (length s) s).
    + by apply count_run_maximal.
  - rewrite backoff_nil in H by lia. done.
Qed.

(** The first match of a field rule ends where the digits and points
    end. *)
Lemma field_head_stop k s n m :
  is_field k = true →
  head (exec IGNORECASE (patterns k) s) = Some (n, m) →
  starts_with digit_or_dot (drop n s) = false.
Proof.
  intros Hk H. rewrite patterns_parts, Hk in H.
  apply head_exec_SEQ in H as (a & ma & x & mx & _ & H & -> & _).
  apply head_exec_SEQ in H as (b & mb & y & my & _ & H & -> & _).
  apply head_exec_SEQ in H as (c & mc & z & mz & _ & H & -> & _).
  assert (SUBPATTERN 2 (value k) = NUMBER) as E by by destruct k.
  rewrite E in H. apply head_exec_NUMBER in H as (_ & _ & H).
  by rewrite !drop_drop in H.
Qed.

Lemma split_no_sep sep w : Forall (fun c => c ≠ sep) w → split sep w = [w].
Proof.
  induction 1 as [|c w Hc _ IH]; [done|].
  simpl. by rewrite (proj2 (N.eqb_neq c sep)), IH.
Qed.

Lemma split_app_sep sep w r :
  Forall (fun c => c ≠ sep) w → split sep (w ++ sep :: r) = w :: split sep r.
Proof.
  induction 1 as [|c w Hc _ IH]; simpl.
  - by rewrite N.eqb_refl.
  - by rewrite (proj2 (N.eqb_neq c sep)), IH.
Qed.

(** Lines without a line feed are what [split] gives back. *)
Lemma split_join_lines ls :
  ls ≠ [] → Forall (Forall (fun c => c ≠ LF)) ls → split LF (join_lines ls) = ls.
Proof.
  destruct ls as [|l ls]; [done|]. intros _ H. revert l H.
  induction ls as [|l2 ls IH]; intros l H.
  - simpl. rewrite app_nil_r. apply split_no_sep. by apply Forall_cons in H as [H _].
  - apply Forall_cons in H as [Hl H].
    unfold join_lines. rewrite bind_cons.
    change ((LF :: l2) ++ ?r) with (LF :: (l2 ++ r)).
    rewrite split_app_sep by done. f_equal. by apply IH.
Qed.

Lemma lit_no_LF (w : string) :
  forallb (fun c => negb (c =? LF)%N) (lit w) = true →
  Forall (fun c => c ≠ LF) (lit w).
Proof.
  intros H. apply Forall_forall. intros c Hc.
  apply list_elem_of_In in Hc.
  pose proof (proj1 (forallb_forall _ _) H c Hc) as Hn.
  by apply negb_true_iff, N.eqb_neq in Hn.
Qed.

Lemma field_line_no_LF text trade k :
  parse_trade_signal text = Some trade → is_field k = true →
  Forall (fun c => c ≠ LF) (or_not_specified (trade !! key_of k)).
Proof.
  rewrite parse_trade_signal_search. intros H Hk.
  apply fmap_Some in H as (am & Ham & ->).
  rewrite trade_of_field by done.
  destruct (captured k text) as [v|] eqn:E.
  - destruct (captured_value k text v Hk E) as (_ & Fv & _).
    eapply Forall_impl; [done|]. apply digit_or_dot_not_LF.
  - by apply (lit_no_LF "Not Specified").
Qed.

(** X1. Every record comes from the leftmost place where the action rule
    matches: the text reads there an action word in any letter case,
    optional whitespace and an instrument token; the record's action is
    that word in capitals (BUY or SELL) and its symbol is the token in
    capitals with the slash taken out. *)
Theorem record_origin text trade :
  parse_trade_signal text = Some trade →
  ∃ pre a ws tok suf,
    text = pre ++ a ++ ws ++ tok ++ suf
    ∧ Forall (fun c => Py_UNICODE_ISSPACE c = true) ws
    ∧ instrument tok
    ∧ unmatched_before action text (length pre)
    ∧ (any_case "BUY" a ∧ trade !! "action" = Some (lit "BUY")
       ∨ any_case "SELL" a ∧ trade !! "action" = Some (lit "SELL"))
    ∧ trade !! "symbol" = Some (replace (ord "/") [] (upper tok)).
Proof.
  rewrite parse_trade_signal_search. intros H.
  apply fmap_Some in H as (am & Ham & ->).
  pose proof (search_group _ _ _ _ 1 Ham (or_introl eq_refl)) as G1.
  pose proof (search_group _ _ _ _ 2 Ham (or_intror eq_refl)) as G2.
  destruct (search_groups _ _ _ _ Ham)
    as (pre & g1 & mid & g2 & suf & Ht & _ & _ & H1 & H2 & M1 & Mg & M2 & Hleft & _).
  rewrite H1 in G1. rewrite H2 in G2. injection G1 as G1. injection G2 as G2.
  exists pre, g1, mid, g2, suf. split_and!.
  - done.
  - by apply matches_SPACES.
  - by apply matches_instrument.
  - done.
  - rewrite trade_of_action, <- G1.
    apply (label_matches action) in M1 as [M1|M1]; [left|right]; (split; [done|]).
    + by rewrite (upper_any_case "BUY" g1).
    + by rewrite (upper_any_case "SELL" g1).
  - by rewrite trade_of_symbol, <- G2.
Qed.

Lemma record_origin_witness :
  ∃ trade pre a ws tok suf,
    parse_trade_signal (lit "gold: sell xau/usd now") = Some trade
    ∧ lit "gold: sell xau/usd now" = pre ++ a ++ ws ++ tok ++ suf
    ∧ Forall (fun c => Py_UNICODE_ISSPACE c = true) ws
    ∧ instrument tok
    ∧ unmatched_before action (lit "gold: sell xau/usd now") (length pre)
    ∧ (any_case "BUY" a ∧ trade !! "action" = Some (lit "BUY")
       ∨ any_case "SELL" a ∧ trade !! "action" = Some (lit "SELL"))
    ∧ trade !! "symbol" = Some (replace (ord "/") [] (upper tok)).
Proof.
  destruct (parse_trade_signal (lit "gold: sell xau/usd now")) as [trade|] eqn:E;
    [|by vm_compute in E].
  destruct (record_origin _ trade E) as (pre & a & ws & tok & suf & H).
  by exists trade, pre, a, ws, tok, suf.
Defined.

(** X2. A record holds the keys action and symbol, the key of each
    optional field whose rule matches somewhere in the text, and no other
    key. *)
Theorem record_keys text trade key :
  parse_trade_signal text = Some trade →
  is_Some (trade !! key) ↔
  key = "action" ∨ key = "symbol"
  ∨ ∃ k, is_field k = true ∧ key = key_of k
         ∧ occurs IGNORECASE (patterns k) text.
Proof.
  rewrite parse_trade_signal_search. intros H.
  apply fmap_Some in H as (am & Ham & ->).
  assert (∀ k, is_field k = true →
            is_Some (trade_of am text !! key_of k)
            ↔ occurs IGNORECASE (patterns k) text) as Hf.
  { intros k Hk. rewrite trade_of_field by done. unfold captured.
    by rewrite fmap_is_Some, search_Some_occurs. }
  split.
  - intros Hsome.
    destruct (decide (key = "action")) as [->|Na]; [by left|].
    destruct (decide (key = "symbol")) as [->|Ns]; [by right; left|].
    right; right.
    destruct (decide (key = "entry")) as [->|Ne];
      [exists entry; split_and!; try done; by apply (Hf entry)|].
    destruct (decide (key = "tp")) as [->|Nt];
      [exists tp; split_and!; try done; by apply (Hf tp)|].
    destruct (decide (key = "sl")) as [->|Nl];
      [exists sl; split_and!; try done; by apply (Hf sl)|].
    exfalso. unfold trade_of in Hsome.
    rewrite !lookup_set_if_match_ne, !lookup_insert_ne, lookup_empty in Hsome by done.
    by destruct Hsome.
  - intros [->|[->|(k & Hk & -> & Ho)]].
    + by rewrite trade_of_action.
    + by rewrite trade_of_symbol.
    + by apply Hf.
Qed.

Lemma record_keys_witness :
  ∃ trade,
    parse_trade_signal (lit "BUY EURUSD tp 1.5") = Some trade
    ∧ (is_Some (trade !! "tp") ↔
       "tp" = "action" ∨ "tp" = "symbol"
       ∨ ∃ k, is_field k = true ∧ "tp" = key_of k
              ∧ occurs IGNORECASE (patterns k) (lit "BUY EURUSD tp 1.5")).
Proof.
  destruct (parse_trade_signal (lit "BUY EURUSD tp 1.5")) as [trade|] eqn:E;
    [|by vm_compute in E].
  exists trade. split; [done|]. exact (record_keys _ trade "tp" E).
Defined.

(** X3. The symbol of a record has six to twelve characters, each a
    capital letter as [upper] gives them (A-Z, capital I with dot above,
    the Kelvin sign): no slash, no small letter, no whitespace. *)
Theorem symbol_format text trade sym :
  parse_trade_signal text = Some trade → trade !! "symbol" = Some sym →
  6 ≤ length sym ≤ 12 ∧ Forall (fun c => capital c = true) sym.
Proof.
  intros Hp Hs. destruct (symbol_instrument text trade Hp) as (tok & Htok & Hs').
  pose proof (eq_trans (eq_sym Hs) Hs') as [= ->]. by apply symbol_of_instrument.
Qed.

Lemma symbol_format_witness :
  ∃ trade,
    parse_trade_signal (lit "buy btcusd/tether") = Some trade
    ∧ trade !! "symbol" = Some (lit "BTCUSDTETHER")
    ∧ 6 ≤ length (lit "BTCUSDTETHER") ≤ 12
    ∧ Forall (fun c => capital c = true) (lit "BTCUSDTETHER").
Proof.
  destruct (parse_trade_signal (lit "buy btcusd/tether")) as [trade|] eqn:E;
    [|by vm_compute in E].
  exists trade. split; [done|].
  assert (trade !! "symbol" = Some (lit "BTCUSDTETHER")) as Hs.
  { vm_compute in E. injection E as <-. by vm_compute. }
  split; [done|]. exact (symbol_format _ trade _ E Hs).
Defined.

(** X4. The value of an optional field is never cut short: at the
    leftmost match of the field's rule the text reads a label, separators
    and the value, and what follows the value does not begin with a digit
    or a point. *)
Theorem value_not_cut_short k text v :
  is_field k = true → captured k text = Some v →
  ∃ pre L sep suf,
    text = pre ++ L ++ sep ++ v ++ suf ∧ label k L
    ∧ Forall (fun c => separator c = true) sep
    ∧ unmatched_before k text (length pre)
    ∧ starts_with digit_or_dot suf = false.
Proof.
  intros Hk H. unfold captured in H.
  apply fmap_Some in H as (mo & Hmo & ->).
  pose proof (search_group _ _ _ _ 2 Hmo (or_intror eq_refl)) as G2.
  destruct (search_groups _ _ _ _ Hmo)
    as (pre & g1 & mid & g2 & suf & Ht & _ & _ & _ & H2 & M1 & Mg & _ & Hleft & Hh).
  rewrite H2 in G2. injection G2 as <-.
  exists pre, g1, mid, suf. split_and!; try done.
  - by apply label_matches.
  - by apply (gap_separators k).
  - apply (field_head_stop k) in Hh; [|done].
    rewrite <- !Nat.add_assoc, <- !drop_drop in Hh.
    by rewrite !drop_app_length in Hh.
Qed.

Lemma value_not_cut_short_witness :
  ∃ pre L sep suf,
    lit "SELL GBPUSD tp: 1.2750, sl 1.2600" = pre ++ L ++ sep ++ lit "1.2750" ++ suf
    ∧ label tp L
    ∧ Forall (fun c => separator c = true) sep
    ∧ unmatched_before tp (lit "SELL GBPUSD tp: 1.2750, sl 1.2600") (length pre)
    ∧ starts_with digit_or_dot suf = false.
Proof.
  exact (value_not_cut_short tp (lit "SELL GBPUSD tp: 1.2750, sl 1.2600")
           (lit "1.2750") eq_refl eq_refl).
Defined.

(** X5. The extractor does not see the case of ASCII letters: two texts
    that differ only there give the same result, the same record or
    [None]. *)
Theorem ascii_case_ignored text text' :
  lower_ascii <$> text = lower_ascii <$> text' →
  parse_trade_signal text = parse_trade_signal text'.
Proof.
  intros H.
  pose proof (fmap_eq_pointwise _ casefold _ _ lower_ascii_casefold H) as Hc.
  pose proof (fmap_eq_pointwise _ upper_codepoint _ _ lower_ascii_upper H) as Hu.
  fold (upper text) (upper text') in Hu.
  rewrite !parse_trade_signal_search. unfold search at 1 2.
  rewrite (search_from_casefold _ text text' 0 Hc).
  destruct (search_from IGNORECASE (patterns action) text' 0) as [[[i n] m]|]; [|done].
  cbn [fmap option_fmap option_map]. f_equal. unfold trade_of.
  rewrite !upper_group, Hu.
  rewrite (set_if_match_captured sl), (set_if_match_captured tp),
    (set_if_match_captured entry).
  rewrite (set_if_match_captured sl text'), (set_if_match_captured tp text'),
    (set_if_match_captured entry text').
  by rewrite !(captured_casefold _ text text') by done.
Qed.

Lemma ascii_case_ignored_witness :
  parse_trade_signal (lit "Buy eurUsd tp 1.5")
  = parse_trade_signal (lit "BUY EURUSD TP 1.5").
Proof. by apply ascii_case_ignored. Defined.

(** X6. A text of fewer than nine characters holds no signal: the
    shortest action phrase is BUY and six letters. *)
Theorem short_text_no_signal text :
  length text < 9 → parse_trade_signal text = None.
Proof.
  intros Hlen. rewrite parse_trade_signal_search, fmap_None, search_None_occurs.
  intros (pre & w & suf & -> & Hw). apply matches_action in Hw.
  destruct Hw as (a & ws & tok & -> & Ha & _ & Htok).
  apply instrument_length in Htok.
  assert (3 ≤ length a) as Hla.
  { destruct Ha as [Ha|Ha]; apply any_case_length in Ha; rewrite Ha; simpl; lia. }
  rewrite !length_app in Hlen. lia.
Qed.

Lemma short_text_no_signal_witness :
  parse_trade_signal (lit "BUY GOLD") = None.
Proof. apply short_text_no_signal. simpl. lia. Defined.

(** X7. Whatever the text, the body sent for its record splits at the
    line feeds into the same eight lines: no captured value holds a line
    feed, so none can break the layout. *)
Theorem body_lines text trade :
  parse_trade_signal text = Some trade →
  ∃ SYMBOL ACTION,
    trade !! "symbol" = Some SYMBOL ∧ trade !! "action" = Some ACTION
    ∧ split LF (formatted_message trade)
      = [ [FIRE] ++ lit " **Forwarded Signal: " ++ SYMBOL ++ lit "** " ++ [FIRE];
          [];
          lit "```";
          lit "Action:      " ++ ACTION;
          lit "Entry:       " ++ or_not_specified (trade !! "entry");
          lit "Stop Loss:   " ++ or_not_specified (trade !! "sl");
          lit "Take Profit: " ++ or_not_specified (trade !! "tp");
          lit "```" ].
Proof.
  intros Hp.
  destruct (symbol_instrument text trade Hp) as (tok & Htok & Hs).
  destruct (symbol_of_instrument tok Htok) as [_ Fs].
  destruct (parse_trade_signal_keys text trade Hp) as [Ha _].
  pose proof (field_line_no_LF text trade entry Hp eq_refl) as Fe.
  pose proof (field_line_no_LF text trade sl Hp eq_refl) as Fl.
  pose proof (field_line_no_LF text trade tp Hp eq_refl) as Ft.
  cbn [key_of] in Fe, Fl, Ft.
  assert (∃ ACTION, trade !! "action" = Some ACTION
                    ∧ Forall (fun c => c ≠ LF) ACTION) as (ACTION & Ha' & Fa).
  { destruct Ha as [Ha|Ha]; eexists; (split; [exact Ha|]).
    - by apply (lit_no_LF "BUY").
    - by apply (lit_no_LF "SELL"). }
  eexists _, ACTION. split_and!; [exact Hs|exact Ha'|].
  rewrite (PipelineFacts.formatted_message_spec_template trade _ ACTION Hs Ha').
  unfold spec_template. apply split_join_lines; [done|].
  assert (Forall (fun c => c ≠ LF)
            ([FIRE] ++ lit " **Forwarded Signal: "
             ++ replace (ord "/") [] (upper tok) ++ lit "** " ++ [FIRE])) as L1.
  { apply Forall_app; split; [by repeat constructor|].
    apply Forall_app; split; [by apply (lit_no_LF " **Forwarded Signal: ")|].
    apply Forall_app; split.
    { eapply Forall_impl; [exact Fs|]. apply capital_not_LF. }
    apply Forall_app; split; [by apply (lit_no_LF "** ")|by repeat constructor]. }
  pose proof (lit_no_LF "```" eq_refl) as L3.
  pose proof (proj2 (Forall_app _ _ _)
                (conj (lit_no_LF "Action:      " eq_refl) Fa)) as L4.
  pose proof (proj2 (Forall_app _ _ _)
                (conj (lit_no_LF "Entry:       " eq_refl) Fe)) as L5.
  pose proof (proj2 (Forall_app _ _ _)
                (conj (lit_no_LF "Stop Loss:   " eq_refl) Fl)) as L6.
  pose proof (proj2 (Forall_app _ _ _)
                (conj (lit_no_LF "Take Profit: " eq_refl) Ft)) as L7.
  apply Forall_cons_2; [exact L1|]. apply Forall_cons_2; [constructor|].
  apply Forall_cons_2; [exact L3|]. apply Forall_cons_2; [exact L4|].
  apply Forall_cons_2; [exact L5|]. apply Forall_cons_2; [exact L6|].
  apply Forall_cons_2; [exact L7|]. apply Forall_cons_2; [exact L3|].
  apply Forall_nil_2.
Qed.

Lemma body_lines_witness :
  ∃ trade SYMBOL ACTION,
    parse_trade_signal (lit "SELL XAU/USD SL 1950") = Some trade
    ∧ trade !! "symbol" = Some SYMBOL ∧ trade !! "action" = Some ACTION
    ∧ split LF (formatted_message trade)
      = [ [FIRE] ++ lit " **Forwarded Signal: " ++ SYMBOL ++ lit "** " ++ [FIRE];
          [];
          lit "```";
          lit "Action:      " ++ ACTION;
          lit "Entry:       " ++ or_not_specified (trade !! "entry");
          lit "Stop Loss:   " ++ or_not_specified (trade !! "sl");
          lit "Take Profit: " ++ or_not_specified (trade !! "tp");
          lit "```" ].
Proof.
  destruct (parse_trade_signal (lit "SELL XAU/USD SL 1950")) as [trade|] eqn:E;
    [|by vm_compute in E].
  destruct (body_lines _ trade E) as (SYMBOL & ACTION & H).
  by exists trade, SYMBOL, ACTION.
Defined.

End RecordFacts.

(** ** The run: start-up and delivery *)
Module RunFacts.
Import ReFacts ExtractorFacts PipelineFacts.

Lemma for_each_Forall2 {A B} (f : A → result B) l bs :
  for_each f l = Ok bs → Forall2 (fun a b => f a = Ok b) l bs.
Proof.
  revert bs. induction l as [|a l IH]; intros bs; simpl.
  - intros [= <-]. constructor.
  - destruct (f a) as [b|e] eqn:E; [|done]. cbn [bind].
    destruct (for_each f l) as [bs'|e]; [|done]. cbn [bind].
    intros [= <-]. constructor; [done|by apply IH].
Qed.

(** [split] gives one piece more than there are separators. *)
Lemma split_length sep (s : list codepoint) :
  length (split sep s) = S (length (filter (fun c => c = sep) s)).
Proof.
  induction s as [|c s IH]; [done|]. cbn [split].
  destruct (N.eqb_spec c sep) as [->|Hne].
  - rewrite filter_cons_True by done. simpl. by rewrite IH.
  - rewrite filter_cons_False by done.
    destruct (split sep s); simpl in *; [lia|done].
Qed.

Lemma lstrip_blank x : blank x → lstrip x = [].
Proof. induction 1 as [|c x Hc _ IH]; [done|]. simpl. by rewrite Hc. Qed.

Lemma strip_blank x : blank x → strip x = [].
Proof. intros H. unfold strip. by rewrite (lstrip_blank x). Qed.

Lemma good_environ_well_configured : well_configured int_ascii good_environ.
Proof.
  split_and!.
  - exists (lit "12345"). split; [done|]. by eexists; vm_compute.
  - by eexists; vm_compute.
  - exists (lit "-1001, -1003"). split; [done|].
    repeat constructor; by eexists; vm_compute.
  - exists (lit "-1002"). split; [done|]. by eexists; vm_compute.
Qed.

Section Pipeline.

Context {sink : Type}.
Variable client_send_message :
  sink → Z → unicode → string → sink * option exception.
Variable int : unicode → option Z.
Variable destination_channel_id : Z.

Implicit Types (w : @world sink) (ev : event).

(** What the secrets are read from. *)
Lemma read_secrets_values environ api_id api_hash ids dest :
  read_secrets int environ = Ok (api_id, api_hash, ids, dest) →
  ∃ v_id v_src v_dest,
    environ !! "API_ID" = Some v_id ∧ int v_id = Some api_id
    ∧ environ !! "API_HASH" = Some api_hash
    ∧ environ !! "SOURCE_CHANNEL_IDS" = Some v_src
    ∧ Forall2 (fun x z => int (strip x) = Some z) (split (ord ",") v_src) ids
    ∧ environ !! "DESTINATION_CHANNEL_ID" = Some v_dest
    ∧ int v_dest = Some dest.
Proof.
  unfold read_secrets, getitem, to_int. intros H.
  destruct (environ !! "API_ID") as [v1|]; [|done]. cbn [bind] in H.
  destruct (int v1) as [z1|] eqn:Z1; [|done]. cbn [bind] in H.
  destruct (environ !! "API_HASH") as [v2|]; [|done]. cbn [bind] in H.
  destruct (environ !! "SOURCE_CHANNEL_IDS") as [v3|]; [|done]. cbn [bind] in H.
  destruct (for_each _ _) as [bs|] eqn:E3; [|done]. cbn [bind] in H.
  destruct (environ !! "DESTINATION_CHANNEL_ID") as [v4|]; [|done]. cbn [bind] in H.
  destruct (int v4) as [z4|] eqn:Z4; [|done]. cbn [bind] in H.
  injection H as <- <- <- <-.
  exists v1, v3, v4. split_and!; try done.
  apply for_each_Forall2 in E3. eapply Forall2_impl; [exact E3|].
  intros x z Hx. simpl in Hx. by destruct (int (strip x)) as [z'|]; [injection Hx as ->|].
Qed.

Lemma read_secrets_complete environ :
  well_configured int environ → ∃ r, read_secrets int environ = Ok r.
Proof.
  intros Hok. destruct (read_secrets int environ) as [r|e] eqn:E; [by exists r|].
  exfalso.
  destruct Hok as ((v1 & H1 & [z1 Z1]) & [v2 H2] & (v3 & H3 & F3) & (v4 & H4 & [z4 Z4])).
  unfold read_secrets, getitem, to_int in E.
  rewrite H1, H2, H3, H4 in E. cbn [bind] in E. rewrite Z1, Z4 in E. cbn [bind] in E.
  destruct (for_each _ _) as [bs|e'] eqn:E3; [done|].
  apply for_each_Raise in E3 as (x & Hx & Hr).
  rewrite Forall_forall in F3. destruct (F3 x Hx) as [z Hz].
  by rewrite Hz in Hr.
Qed.

(** An error escapes the handler only from a send, and only if it does
    not derive from [Exception]. *)
Lemma handler_escape ev w e :
  (handler client_send_message destination_channel_id ev w).2 = Some e →
  ∃ text trade c,
    message ev = Some text ∧ parse_trade_signal text = Some trade
    ∧ client_send_message (client w) destination_channel_id
        (formatted_message trade) "Markdown" = (c, Some e)
    ∧ is_Exception e = false.
Proof.
  destruct (message ev) as [[|c t]|] eqn:Hm.
  - unfold handler. by rewrite handler_no_text by auto.
  - destruct (parse_trade_signal (c :: t)) as [trade|] eqn:Hp.
    + pose proof (handler_signal client_send_message destination_channel_id
                    ev w (c :: t) trade Hm Hp) as H. cbv zeta in H.
      destruct (client_send_message (client w) destination_channel_id
                  (formatted_message trade) "Markdown") as [c' [e'|]] eqn:Hs;
        [destruct (is_Exception e') eqn:He|]; rewrite H; cbn [snd]; try done.
      intros [= <-]. by exists (c :: t), trade, c'.
    + by rewrite (handler_no_signal _ _ ev w (c :: t)).
  - unfold handler. by rewrite handler_no_text by auto.
Qed.

(** What the handler adds to the trace: lines and send requests. *)
Lemma handler_trace ev w :
  ∃ tr,
    trace (handler client_send_message destination_channel_id ev w).1
    = trace w ++ tr
    ∧ Forall (fun e => handler_effect e = true) tr.
Proof.
  destruct (message ev) as [[|c t]|] eqn:Hm.
  - unfold handler. rewrite handler_no_text by auto.
    eexists. split; [done|]. by repeat constructor.
  - destruct (parse_trade_signal (c :: t)) as [trade|] eqn:Hp.
    + pose proof (handler_signal client_send_message destination_channel_id
                    ev w (c :: t) trade Hm Hp) as H. cbv zeta in H.
      destruct (client_send_message (client w) destination_channel_id
                  (formatted_message trade) "Markdown") as [c' [e'|]];
        [destruct (is_Exception e')|]; rewrite H; cbn [fst trace];
        rewrite <- ?(assoc_L (++)); (eexists; split; [done|]);
        by repeat constructor.
    + rewrite (handler_no_signal _ _ ev w (c :: t)) by done.
      eexists. split; [done|]. by repeat constructor.
  - unfold handler. rewrite handler_no_text by auto.
    eexists. split; [done|]. by repeat constructor.
Qed.

(** Without a request the transport is left as it was. *)
Lemma handler_idle ev w :
  request_of destination_channel_id ev = [] →
  handler client_send_message destination_channel_id ev w
  = (mkWorld (client w)
       (trace (handler client_send_message destination_channel_id ev w).1),
     None).
Proof.
  unfold request_of. destruct (message ev) as [[|c t]|] eqn:Hm.
  - intros _. unfold handler. by rewrite handler_no_text by auto.
  - destruct (parse_trade_signal (c :: t)) as [trade|] eqn:Hp; [done|].
    intros _. by rewrite (handler_no_signal _ _ ev w (c :: t)).
  - intros _. unfold handler. by rewrite handler_no_text by auto.
Qed.

(** X8. With a complete configuration [main] makes the client from
    API_ID and API_HASH, subscribes to the identifiers SOURCE_CHANNEL_IDS
    lists (one for each piece between commas, whitespace around it
    dropped, in the order written), starts, and handles the inbound
    events with DESTINATION_CHANNEL_ID as the target. *)
Theorem main_listens environ inbound w :
  well_configured int environ →
  ∃ api_id api_hash ids dest v_id v_src v_dest,
    environ !! "API_ID" = Some v_id ∧ int v_id = Some api_id
    ∧ environ !! "API_HASH" = Some api_hash
    ∧ environ !! "SOURCE_CHANNEL_IDS" = Some v_src
    ∧ Forall2 (fun x z => int (strip x) = Some z) (split (ord ",") v_src) ids
    ∧ length ids = S (length (filter (fun c => c = ord ",") v_src))
    ∧ environ !! "DESTINATION_CHANNEL_ID" = Some v_dest
    ∧ int v_dest = Some dest
    ∧ main client_send_message int environ inbound w
      = deliver client_send_message dest inbound
          (mkWorld (client w)
             (trace w ++ [print Starting;
                          TelegramClient "signal_copier.session" api_id api_hash;
                          on_NewMessage ids; start; print (ClientStarted ids);
                          run_until_disconnected])).
Proof.
  intros Hok.
  destruct (read_secrets_complete environ Hok) as [[[[api_id api_hash] ids] dest] E].
  destruct (read_secrets_values environ _ _ _ _ E)
    as (v_id & v_src & v_dest & H1 & Z1 & H2 & H3 & F3 & H4 & Z4).
  exists api_id, api_hash, ids, dest, v_id, v_src, v_dest.
  split_and!; try done.
  - by rewrite <- (Forall2_length _ _ _ F3), split_length.
  - unfold main. rewrite E. unfold do. cbn [client trace].
    by rewrite <- !(assoc_L (++)).
Qed.

(** X9. A piece of SOURCE_CHANNEL_IDS that is empty or blank (a comma at
    the end, two commas in a row, an empty setting) stops the start-up:
    [int] of the empty string fails, and [main] prints the error and
    returns. *)
Theorem blank_source_id_aborts environ v x inbound w :
  environ !! "SOURCE_CHANNEL_IDS" = Some v →
  x ∈ split (ord ",") v → blank x → int [] = None →
  ∃ e, main client_send_message int environ inbound w
       = (mkWorld (client w)
            (trace w ++ [print Starting; print (ErrorReadingSecrets e)]),
          None).
Proof.
  intros Hv Hx Hb Hint. unfold main.
  destruct (read_secrets int environ) as [[[[api_id api_hash] ids] dest]|e] eqn:E.
  - exfalso.
    destruct (read_secrets_values environ _ _ _ _ E)
      as (_ & v' & _ & _ & _ & _ & Hv' & F & _).
    rewrite Hv in Hv'. injection Hv' as <-.
    apply (Forall2_Forall_l _ (fun x => is_Some (int (strip x)))) in F.
    2:{ apply Forall_true. intros z y Hy. by exists z. }
    rewrite Forall_forall in F. destruct (F x Hx) as [z Hz].
    rewrite strip_blank in Hz by done. by rewrite Hint in Hz.
  - exists e. destruct (read_secrets_Raise int environ e E) as [[key ->]|[arg ->]];
      unfold do; cbn [client trace]; by rewrite <- (assoc_L (++)).
Qed.

(** X10. An error leaves the handler in one case only: the text held a
    signal, the send of its message raised the error, and the error does
    not derive from [Exception].  It then leaves right after the request:
    neither the success line nor the error line is printed. *)
Theorem base_exception_escapes ev w e :
  ((handler client_send_message destination_channel_id ev w).2 = Some e ↔
   ∃ text trade c,
     message ev = Some text ∧ parse_trade_signal text = Some trade
     ∧ client_send_message (client w) destination_channel_id
         (formatted_message trade) "Markdown" = (c, Some e)
     ∧ is_Exception e = false)
  ∧ (∀ text trade c,
       message ev = Some text → parse_trade_signal text = Some trade →
       client_send_message (client w) destination_channel_id
         (formatted_message trade) "Markdown" = (c, Some e) →
       is_Exception e = false →
       handler client_send_message destination_channel_id ev w
       = (mkWorld c
            (trace w ++ [print (NewMessageReceived (chat_id ev));
                         print (TradeSignalDetected trade);
                         send_message destination_channel_id
                           (formatted_message trade) "Markdown"]),
          Some e)).
Proof.
  split; [split|].
  - apply handler_escape.
  - intros (text & trade & c & Hm & Hp & Hs & He).
    by rewrite (handler_propagates _ _ ev w text trade c e Hm Hp Hs He).
  - intros text trade c Hm Hp Hs He.
    by apply (handler_propagates _ _ ev w text trade).
Qed.

(** X11. What the handler does with an event is decided by the event
    alone, whatever the world and the transport are: it reports the event
    once, makes the send request the event's text calls for (one request
    for a signal, none otherwise), adds nothing to the trace but printed
    lines and send requests, and where no request is called for it leaves
    the transport as it was and returns normally. *)
Theorem handler_any_transport ev w :
  let r := handler client_send_message destination_channel_id ev w in
  received (trace r.1) = received (trace w) ++ [chat_id ev]
  ∧ sends (trace r.1)
    = sends (trace w) ++ request_of destination_channel_id ev
  ∧ (∃ tr, trace r.1 = trace w ++ tr
           ∧ Forall (fun e => handler_effect e = true) tr)
  ∧ (request_of destination_channel_id ev = [] →
     client r.1 = client w ∧ r.2 = None).
Proof.
  cbv zeta. split_and!.
  - apply handler_received.
  - apply handler_request.
  - apply handler_trace.
  - intros H. by rewrite (handler_idle ev w H).
Qed.

End Pipeline.

Lemma main_listens_witness :
  ∃ api_id api_hash ids dest v_id v_src v_dest,
    good_environ !! "API_ID" = Some v_id ∧ int_ascii v_id = Some api_id
    ∧ good_environ !! "API_HASH" = Some api_hash
    ∧ good_environ !! "SOURCE_CHANNEL_IDS" = Some v_src
    ∧ Forall2 (fun x z => int_ascii (strip x) = Some z) (split (ord ",") v_src) ids
    ∧ length ids = S (length (filter (fun c => c = ord ",") v_src))
    ∧ good_environ !! "DESTINATION_CHANNEL_ID" = Some v_dest
    ∧ int_ascii v_dest = Some dest
    ∧ main flaky int_ascii good_environ
        [mkEvent (-1001) (Some (lit "BUY EURUSD"))] (mkWorld 0 [])
      = deliver flaky dest [mkEvent (-1001) (Some (lit "BUY EURUSD"))]
          (mkWorld 0
             ([] ++ [print Starting;
                     TelegramClient "signal_copier.session" api_id api_hash;
                     on_NewMessage ids; start; print (ClientStarted ids);
                     run_until_disconnected])).
Proof.
  exact (main_listens flaky int_ascii good_environ _ (mkWorld 0 [])
           good_environ_well_configured).
Defined.

Lemma blank_source_id_aborts_witness :
  ∃ e, main flaky int_ascii trailing_comma_environ
         [mkEvent (-1001) (Some (lit "BUY EURUSD"))] (mkWorld 0 [])
       = (mkWorld 0 ([] ++ [print Starting; print (ErrorReadingSecrets e)]), None).
Proof.
  apply (blank_source_id_aborts flaky int_ascii trailing_comma_environ
           (lit "-1001,") []).
  - reflexivity.
  - vm_compute. right. left.
  - constructor.
  - reflexivity.
Defined.

Lemma base_exception_escapes_witness :
  ∃ trade,
    parse_trade_signal (lit "BUY EURUSD") = Some trade
    ∧ handler cancelled (-1002) (mkEvent (-1001) (Some (lit "BUY EURUSD")))
        (mkWorld 0 [])
      = (mkWorld 1
           ([] ++ [print (NewMessageReceived (-1001));
                   print (TradeSignalDetected trade);
                   send_message (-1002) (formatted_message trade) "Markdown"]),
         Some (BaseException (lit "CancelledError"))).
Proof.
  destruct (parse_trade_signal (lit "BUY EURUSD")) as [trade|] eqn:E;
    [|by vm_compute in E].
  exists trade. split; [done|].
  exact (proj2 (base_exception_escapes cancelled (-1002)
                  (mkEvent (-1001) (Some (lit "BUY EURUSD"))) (mkWorld 0 [])
                  (BaseException (lit "CancelledError")))
           (lit "BUY EURUSD") trade 1 eq_refl E eq_refl eq_refl).
Defined.

End RunFacts.
